(** * SSOQL: a shallow embedding of the tokenizer, parser and executor

    The development follows the TypeScript sources of the engine:
    - [Tokenizer] (src/tokenizer/tokenizer.ts),
    - [Parser] (src/parser/parser.ts),
    - [Executor] (src/executor/executor.ts),
    - [SSOQL.createQuery] (src/ssoql.ts).

    JavaScript values are a closed inductive type, numbers are IEEE-754
    binary64 (Rocq's primitive floats), a thrown exception is the [Throw]
    branch of an error monad, and the host's number/string conversions are
    the fields of the class [JSHost].

    Conventions of the model:
    - a record is the list of its own properties in enumeration order;
      members inherited from the built-in prototypes are not modelled:
      [getProp v key] is [v[key]] when [v] holds [key] itself or when no
      built-in prototype supplies [key] ([inherited key = false]);
    - [ToString] and [ToNumber] are [String()] and [Number()] where these
      return ([convertible]); on a record with an own property [toString]
      they throw a TypeError, which the model does not raise;
    - two records or arrays are always two distinct references (loose
      equality and [Set] membership never identify them);
    - a string is a sequence of 8-bit characters;
    - the mutable [ExecutionContext] and the executor's [this.variables] are
      passed and returned explicitly; the result object of [execute()] and
      the [Map] of variables are finite maps, which the result object is for
      every query name but [__proto__];
    - the theorems that depend on one of these conditions state it as a
      hypothesis;
    - the field [value] of a token is [value_], the field [fields] of a USE
      path is [use_fields]. *)

Set Warnings "-register-all".
From Stdlib Require Import Floats Uint63 ZArith Ascii String.
From stdpp Require Import base option list strings gmap pretty.

Open Scope string_scope.

(** ** Exceptions and the error monad *)

(** [Error m] is [throw new Error(m)]; [TypeError] is the exception of a
    property read on [null] or [undefined]; [OutOfFuel] is not a JavaScript
    exception: it marks a recursion of the model that ran out of fuel. *)
Inductive exn :=
| Error (message : string)
| TypeError
| OutOfFuel.

Inductive result (A : Type) :=
| Ok (a : A)
| Throw (e : exn).
Arguments Ok {A} a.
Arguments Throw {A} e.

Definition bind {A B} (m : result A) (k : A -> result B) : result B :=
  match m with
  | Ok a => k a
  | Throw e => Throw e
  end.

Notation "'let*' x ':=' m 'in' k" := (bind m (fun x => k))
  (at level 10, x name, m at level 100, k at level 200).
Notation "'let*' ' pat ':=' m 'in' k" :=
  (bind m (fun x => match x with pat => k end))
  (at level 10, pat pattern, m at level 100, k at level 200).

(** [try { body } catch (error) { handler }] *)
Definition try_catch {A} (body : result A) (handler : exn -> result A) : result A :=
  match body with
  | Ok a => Ok a
  | Throw e => handler e
  end.

Fixpoint mapM {A B} (f : A -> result B) (l : list A) : result (list B) :=
  match l with
  | [] => Ok []
  | x :: l' => let* y := f x in let* ys := mapM f l' in Ok (y :: ys)
  end.

Fixpoint filterM {A} (f : A -> result bool) (l : list A) : result (list A) :=
  match l with
  | [] => Ok []
  | x :: l' =>
      let* b := f x in
      let* ys := filterM f l' in
      Ok (if b : bool then x :: ys else ys)
  end.

(** ** JavaScript values *)

Inductive value :=
| VUndefined
| VNull
| VBool (b : bool)
| VNum (n : float)
| VStr (s : string)
| VArr (elements : list value)
| VObj (properties : list (string * value)).


(** [typeof v === "object"] *)
Definition typeof_object (v : value) : bool :=
  match v with
  | VNull | VArr _ | VObj _ => true
  | _ => false
  end.

Definition isNull (v : value) : bool :=
  match v with VNull => true | _ => false end.

Definition isUndefined (v : value) : bool :=
  match v with VUndefined => true | _ => false end.

Definition Array_isArray (v : value) : bool :=
  match v with VArr _ => true | _ => false end.

(** [typeof x !== "object" || x === null], the test the aggregates use to
    tell a bare value from a record. *)
Definition notRecord (v : value) : bool :=
  negb (typeof_object v) || isNull v.

Definition Num_of_nat (n : nat) : float :=
  PrimFloat.of_uint63 (Uint63.of_Z (Z.of_nat n)).

(** The conversions between numbers and text are the host's. *)
Class JSHost := {
  StringToNumber : string -> float;
  NumberToString : float -> string;
  parseFloat : string -> float;
  Math_pow : float -> float -> float
}.

Definition digit_of_ascii (c : ascii) : option nat :=
  let n := nat_of_ascii c in
  if bool_decide (48 <= n <= 57)%nat then Some (n - 48)%nat else None.

Fixpoint parse_digits (acc : nat) (cs : list ascii) : option nat :=
  match cs with
  | [] => Some acc
  | c :: cs' =>
      match digit_of_ascii c with
      | Some d => parse_digits (10 * acc + d) cs'
      | None => None
      end
  end.

(** An array index as a property key: the canonical decimal text of [i]. *)
Definition arrayIndex (key : string) : option nat :=
  match list_ascii_of_string key with
  | [] => None
  | cs =>
      match parse_digits 0 cs with
      | Some i => if bool_decide (pretty i = key) then Some i else None
      | None => None
      end
  end.

Fixpoint assoc (key : string) (props : list (string * value)) : option value :=
  match props with
  | [] => None
  | (k, v) :: props' => if String.eqb k key then Some v else assoc key props'
  end.

(** [obj[key] = v] on a record: overwrite in place, or append. *)
Fixpoint setProp (key : string) (v : value) (props : list (string * value))
  : list (string * value) :=
  match props with
  | [] => [(key, v)]
  | (k, w) :: props' =>
      if String.eqb k key then (k, v) :: props' else (k, w) :: setProp key v props'
  end.

(** [v[key]]: own properties only (members inherited from the built-in
    prototypes are not modelled). *)
Definition getProp (v : value) (key : string) : result value :=
  match v with
  | VUndefined | VNull => Throw TypeError
  | VBool _ | VNum _ => Ok VUndefined
  | VStr s =>
      if String.eqb key "length" then Ok (VNum (Num_of_nat (String.length s)))
      else match arrayIndex key with
           | Some i =>
               match String.get i s with
               | Some c => Ok (VStr (String c EmptyString))
               | None => Ok VUndefined
               end
           | None => Ok VUndefined
           end
  | VArr xs =>
      if String.eqb key "length" then Ok (VNum (Num_of_nat (length xs)))
      else match arrayIndex key with
           | Some i => Ok (nth i xs VUndefined)
           | None => Ok VUndefined
           end
  | VObj props => Ok (default VUndefined (assoc key props))
  end.

(** [Object.keys(v)] for a value with [typeof v === "object"]. *)
Definition Object_keys (v : value) : list string :=
  match v with
  | VObj props => map fst props
  | VArr xs => map pretty (seq 0 (length xs))
  | _ => []
  end.

(** The names of the members of [Object.prototype], [Array.prototype],
    [String.prototype], [Number.prototype] and [Boolean.prototype]
    (ECMAScript 2025 with Annex B); [length] is an own property of arrays and
    strings. A property read finds these members on a value that holds no
    property of that name itself. *)
Definition prototypeMembers : list string :=
  [ (* Object.prototype *)
    "constructor"; "__defineGetter__"; "__defineSetter__"; "hasOwnProperty";
    "__lookupGetter__"; "__lookupSetter__"; "isPrototypeOf";
    "propertyIsEnumerable"; "toString"; "valueOf"; "__proto__";
    "toLocaleString";
    (* Array.prototype *)
    "at"; "concat"; "copyWithin"; "fill"; "find"; "findIndex"; "findLast";
    "findLastIndex"; "lastIndexOf"; "pop"; "push"; "reverse"; "shift";
    "unshift"; "slice"; "sort"; "splice"; "includes"; "indexOf"; "join";
    "keys"; "entries"; "values"; "forEach"; "filter"; "flat"; "flatMap";
    "map"; "every"; "some"; "reduce"; "reduceRight"; "toReversed"; "toSorted";
    "toSpliced"; "with";
    (* String.prototype *)
    "anchor"; "big"; "blink"; "bold"; "charAt"; "charCodeAt"; "codePointAt";
    "endsWith"; "fontcolor"; "fontsize"; "fixed"; "isWellFormed"; "italics";
    "link"; "localeCompare"; "match"; "matchAll"; "normalize"; "padEnd";
    "padStart"; "repeat"; "replace"; "replaceAll"; "search"; "small"; "split";
    "strike"; "sub"; "substr"; "substring"; "sup"; "startsWith";
    "toWellFormed"; "trim"; "trimStart"; "trimLeft"; "trimEnd"; "trimRight";
    "toLocaleLowerCase"; "toLocaleUpperCase"; "toLowerCase"; "toUpperCase";
    (* Number.prototype *)
    "toExponential"; "toFixed"; "toPrecision" ].

(** [key] names a member of a built-in prototype. *)
Definition inherited (key : string) : bool :=
  existsb (String.eqb key) prototypeMembers.

(** [String(v)] and [Number(v)] return for [v]: a record with an own
    property [toString] makes them throw a TypeError (in data read from JSON
    such a property is not callable), also as an element of an array, which
    they join. *)
Fixpoint convertible (v : value) : bool :=
  match v with
  | VArr xs => forallb convertible xs
  | VObj props => negb (existsb (fun kv => String.eqb (fst kv) "toString") props)
  | _ => true
  end.

(** No record inside [v], at any depth, has an own property [toString]. *)
Fixpoint convertibleData (v : value) : bool :=
  match v with
  | VArr xs => forallb convertibleData xs
  | VObj props =>
      negb (existsb (fun kv => String.eqb (fst kv) "toString") props)
      && forallb (fun kv => convertibleData (snd kv)) props
  | _ => true
  end.

Section Conversions.
Context `{JSHost}.

(** [String(v)] *)
Fixpoint ToString (v : value) : string :=
  match v with
  | VUndefined => "undefined"
  | VNull => "null"
  | VBool true => "true"
  | VBool false => "false"
  | VNum n => NumberToString n
  | VStr s => s
  | VArr xs =>
      String.concat ","
        (List.map (fun x => match x with
                            | VUndefined | VNull => ""
                            | _ => ToString x
                            end) xs)
  | VObj _ => "[object Object]"
  end.

(** [Number(v)] *)
Definition ToNumber (v : value) : float :=
  match v with
  | VUndefined => nan
  | VNull => 0%float
  | VBool true => 1%float
  | VBool false => 0%float
  | VNum n => n
  | VStr s => StringToNumber s
  | VArr _ | VObj _ => StringToNumber (ToString v)
  end.

(** Truthiness, as tested by [!x] and [if (x)]. *)
Definition ToBoolean (v : value) : bool :=
  match v with
  | VUndefined | VNull => false
  | VBool b => b
  | VNum n => negb (PrimFloat.is_zero n || PrimFloat.is_nan n)
  | VStr s => negb (String.eqb s "")
  | VArr _ | VObj _ => true
  end.

Definition dquote : string := String (ascii_of_nat 34) EmptyString.

Definition hexDigit (n : nat) : ascii :=
  ascii_of_nat (if bool_decide (n < 10)%nat then 48 + n else 87 + n)%nat.

Definition quoteChar (c : ascii) : string :=
  let n := nat_of_ascii c in
  if bool_decide (n = 34)%nat then "\" ++ dquote
  else if bool_decide (n = 92)%nat then "\\"
  else if bool_decide (n = 8)%nat then "\b"
  else if bool_decide (n = 12)%nat then "\f"
  else if bool_decide (n = 10)%nat then "\n"
  else if bool_decide (n = 13)%nat then "\r"
  else if bool_decide (n = 9)%nat then "\t"
  else if bool_decide (n < 32)%nat then
    "\u00" ++ String (hexDigit (n / 16)) (String (hexDigit (n mod 16)) "")
  else String c "".

Definition quoteJSONString (s : string) : string :=
  dquote ++ String.concat "" (List.map quoteChar (list_ascii_of_string s)) ++ dquote.

Definition numberJSON (n : float) : string :=
  if PrimFloat.is_nan n || PrimFloat.is_infinity n then "null"
  else NumberToString n.

(** [JSON.stringify(v)]; [None] is the [undefined] it returns for
    [undefined]. *)
Fixpoint JSON_stringify (v : value) : option string :=
  match v with
  | VUndefined => None
  | VNull => Some "null"
  | VBool true => Some "true"
  | VBool false => Some "false"
  | VNum n => Some (numberJSON n)
  | VStr s => Some (quoteJSONString s)
  | VArr xs =>
      Some ("[" ++ String.concat ","
              (List.map (fun x => default "null" (JSON_stringify x)) xs) ++ "]")
  | VObj props =>
      Some ("{" ++ String.concat ","
              (omap (fun kv => match JSON_stringify (snd kv) with
                               | Some s => Some (quoteJSONString (fst kv) ++ ":" ++ s)
                               | None => None
                               end) props) ++ "}")
  end.

(** [JSON.stringify(v)] as the value it leaves in a variable. *)
Definition stringified (v : value) : value :=
  match JSON_stringify v with
  | Some s => VStr s
  | None => VUndefined
  end.

End Conversions.

(** ** Tokens (src/types/types.ts) *)

Module TokenType.
Inductive t :=
| USE | QUERY | SELECT | EACH | WHERE | RETURN
| COUNT | SUM | DIVIDE | MULTIPLY | SUBTRACT | AVERAGE | MEDIAN | MIN | MAX
| PERCENT_OF | MOST_FREQUENT | LEAST_FREQUENT | UNIQUE
| STANDARD_DEVIATION | VARIANCE | RANGE
| CONTAINS | NOT_CONTAINS
| VARIABLE | ASTERISK | COMMA | DOT
| EQUALS | NOT_EQUALS | GREATER_THAN | LESS_THAN
| GREATER_THAN_EQUALS | LESS_THAN_EQUALS
| LEFT_BRACKET | RIGHT_BRACKET | LEFT_PAREN | RIGHT_PAREN
| AMPERSAND | PIPE | NOT
| IDENTIFIER | STRING | NUMBER | BOOLEAN | NULL
| COMMENT | EOF | UNKNOWN.

Definition code (x : t) : positive :=
  match x with
  | USE => 1 | QUERY => 2 | SELECT => 3 | EACH => 4 | WHERE => 5 | RETURN => 6
  | COUNT => 7 | SUM => 8 | DIVIDE => 9 | MULTIPLY => 10 | SUBTRACT => 11
  | AVERAGE => 12 | MEDIAN => 13 | MIN => 14 | MAX => 15
  | PERCENT_OF => 16 | MOST_FREQUENT => 17 | LEAST_FREQUENT => 18 | UNIQUE => 19
  | STANDARD_DEVIATION => 20 | VARIANCE => 21 | RANGE => 22
  | CONTAINS => 23 | NOT_CONTAINS => 24
  | VARIABLE => 25 | ASTERISK => 26 | COMMA => 27 | DOT => 28
  | EQUALS => 29 | NOT_EQUALS => 30 | GREATER_THAN => 31 | LESS_THAN => 32
  | GREATER_THAN_EQUALS => 33 | LESS_THAN_EQUALS => 34
  | LEFT_BRACKET => 35 | RIGHT_BRACKET => 36 | LEFT_PAREN => 37 | RIGHT_PAREN => 38
  | AMPERSAND => 39 | PIPE => 40 | NOT => 41
  | IDENTIFIER => 42 | STRING => 43 | NUMBER => 44 | BOOLEAN => 45 | NULL => 46
  | COMMENT => 47 | EOF => 48 | UNKNOWN => 49
  end%positive.

(** [a === b] on token types *)
Definition eqb (a b : t) : bool := Pos.eqb (code a) (code b).
End TokenType.

Record Token := {
  type : TokenType.t;
  value_ : string;
  line : Z;
  column : Z
}.

(** ** Tokenizer (src/tokenizer/tokenizer.ts) *)

Module Tokenizer.

Definition chr (n : nat) : ascii := ascii_of_nat n.
Definition newline : ascii := chr 10.

Definition between (lo hi c : ascii) : bool :=
  bool_decide (nat_of_ascii lo <= nat_of_ascii c <= nat_of_ascii hi)%nat.

Definition isDigit (c : ascii) : bool := between "0" "9" c.

Definition isAlpha (c : ascii) : bool :=
  between "a" "z" c || between "A" "Z" c || Ascii.eqb c "_".

Definition isAlphaNumeric (c : ascii) : bool := isAlpha c || isDigit c.

(** The cursor [(line, column)] of the tokenizer. *)
Definition pos := (Z * Z)%type.

(** The bookkeeping of [advance()] for the consumed character [c]. *)
Definition advancePos (c : ascii) (p : pos) : pos :=
  if Ascii.eqb c newline then (p.1 + 1, 1)%Z else (p.1, p.2 + 1)%Z.

Definition advanceAll (cs : list ascii) (p : pos) : pos :=
  fold_left (fun q c => advancePos c q) cs p.

(** The characters a [while (pred(peek())) advance()] loop consumes. *)
Fixpoint takeWhile (pred : ascii -> bool) (cs : list ascii) : list ascii :=
  match cs with
  | c :: cs' => if pred c then c :: takeWhile pred cs' else []
  | [] => []
  end.

(** [addToken(type, text)] when the lexeme read so far is [lexeme] and the
    cursor is [p]. *)
Definition addToken (ty : TokenType.t) (text : string) (lexeme : list ascii)
    (p : pos) : Token :=
  {| type := ty; value_ := text; line := p.1;
     column := (p.2 - Z.of_nat (length lexeme))%Z |}.

Definition text_of (lexeme : list ascii) : string := string_of_list_ascii lexeme.

(** The keyword table of [identifier()]. *)
Definition keyword (text : string) : TokenType.t :=
  if String.eqb text "USE" then TokenType.USE
  else if String.eqb text "QUERY" then TokenType.QUERY
  else if String.eqb text "SELECT" then TokenType.SELECT
  else if String.eqb text "EACH" then TokenType.EACH
  else if String.eqb text "WHERE" then TokenType.WHERE
  else if String.eqb text "RETURN" then TokenType.RETURN
  else if String.eqb text "COUNT" then TokenType.COUNT
  else if String.eqb text "SUM" then TokenType.SUM
  else if String.eqb text "DIVIDE" then TokenType.DIVIDE
  else if String.eqb text "MULTIPLY" then TokenType.MULTIPLY
  else if String.eqb text "SUBTRACT" then TokenType.SUBTRACT
  else if String.eqb text "AVERAGE" then TokenType.AVERAGE
  else if String.eqb text "MEDIAN" then TokenType.MEDIAN
  else if String.eqb text "MIN" then TokenType.MIN
  else if String.eqb text "MAX" then TokenType.MAX
  else if String.eqb text "PERCENT_OF" then TokenType.PERCENT_OF
  else if String.eqb text "MOST_FREQUENT" then TokenType.MOST_FREQUENT
  else if String.eqb text "LEAST_FREQUENT" then TokenType.LEAST_FREQUENT
  else if String.eqb text "UNIQUE" then TokenType.UNIQUE
  else if String.eqb text "STANDARD_DEVIATION" then TokenType.STANDARD_DEVIATION
  else if String.eqb text "VARIANCE" then TokenType.VARIANCE
  else if String.eqb text "RANGE" then TokenType.RANGE
  else if String.eqb text "CONTAINS" then TokenType.CONTAINS
  else if String.eqb text "NOT_CONTAINS" then TokenType.NOT_CONTAINS
  else if String.eqb text "true" then TokenType.BOOLEAN
  else if String.eqb text "false" then TokenType.BOOLEAN
  else if String.eqb text "null" then TokenType.NULL
  else TokenType.IDENTIFIER.

(** What one call of [scanToken()] does: the token it adds (if any), the
    number of characters it consumes after the first, and the cursor it
    leaves. *)
Definition scanned := (option Token * nat * pos)%type.

(** A lexeme made of [c] and the characters [more] that follow it, none of
    them a line break. *)
Definition lexemeToken (ty : TokenType.t) (c : ascii) (more : list ascii)
    (p : pos) : scanned :=
  let lexeme := c :: more in
  let p' := advanceAll lexeme p in
  (Some (addToken ty (text_of lexeme) lexeme p'), length more, p').

(** [match(expected)] after the first character: a two-character operator
    or the one-character one. *)
Definition oneOrTwo (c : ascii) (rest : list ascii) (p : pos)
    (two one : TokenType.t) : scanned :=
  match rest with
  | d :: _ =>
      if Ascii.eqb d "=" then lexemeToken two c [d] p else lexemeToken one c [] p
  | [] => lexemeToken one c [] p
  end.

(** [string(quote)] *)
Definition string_ (quote : ascii) (rest : list ascii) (p : pos) : scanned :=
  let body := takeWhile (fun d => negb (Ascii.eqb d quote)) rest in
  let p1 := advanceAll (quote :: body) p in
  if bool_decide (length body = length rest) then
    (* Unterminated string *)
    let lexeme := quote :: body in
    (Some (addToken TokenType.UNKNOWN (text_of lexeme) lexeme p1), length body, p1)
  else
    let p2 := advancePos quote p1 in
    let lexeme := quote :: body ++ [quote] in
    (Some (addToken TokenType.STRING (text_of body) lexeme p2), S (length body), p2).

(** [number()] *)
Definition number (c : ascii) (rest : list ascii) (p : pos) : scanned :=
  let whole := takeWhile isDigit rest in
  match drop (length whole) rest with
  | dot :: d :: after =>
      if Ascii.eqb dot "." && isDigit d then
        lexemeToken TokenType.NUMBER c
          (whole ++ dot :: takeWhile isDigit (d :: after)) p
      else lexemeToken TokenType.NUMBER c whole p
  | _ => lexemeToken TokenType.NUMBER c whole p
  end.

(** [identifier()] *)
Definition identifier (c : ascii) (rest : list ascii) (p : pos) : scanned :=
  let more := takeWhile isAlphaNumeric rest in
  lexemeToken (keyword (text_of (c :: more))) c more p.

(** [scanToken()] when the next character is [c] and [rest] follows. *)
Definition scanToken (c : ascii) (rest : list ascii) (p : pos) : scanned :=
  if Ascii.eqb c "(" then lexemeToken TokenType.LEFT_PAREN c [] p
  else if Ascii.eqb c ")" then lexemeToken TokenType.RIGHT_PAREN c [] p
  else if Ascii.eqb c "[" then lexemeToken TokenType.LEFT_BRACKET c [] p
  else if Ascii.eqb c "]" then lexemeToken TokenType.RIGHT_BRACKET c [] p
  else if Ascii.eqb c "," then lexemeToken TokenType.COMMA c [] p
  else if Ascii.eqb c "." then lexemeToken TokenType.DOT c [] p
  else if Ascii.eqb c "*" then lexemeToken TokenType.ASTERISK c [] p
  else if Ascii.eqb c "&" then lexemeToken TokenType.AMPERSAND c [] p
  else if Ascii.eqb c "|" then lexemeToken TokenType.PIPE c [] p
  else if Ascii.eqb c "=" then lexemeToken TokenType.EQUALS c [] p
  else if Ascii.eqb c "!" then
    oneOrTwo c rest p TokenType.NOT_EQUALS TokenType.NOT
  else if Ascii.eqb c ">" then
    oneOrTwo c rest p TokenType.GREATER_THAN_EQUALS TokenType.GREATER_THAN
  else if Ascii.eqb c "<" then
    oneOrTwo c rest p TokenType.LESS_THAN_EQUALS TokenType.LESS_THAN
  else if Ascii.eqb c " " || Ascii.eqb c (chr 13) || Ascii.eqb c (chr 9)
          || Ascii.eqb c newline then
    (None, 0, advancePos c p)
  else if Ascii.eqb c (chr 34) then string_ c rest p
  else if Ascii.eqb c "'" then string_ c rest p
  else if Ascii.eqb c "/" then
    match rest with
    | d :: after =>
        if Ascii.eqb d "/" then
          lexemeToken TokenType.COMMENT c
            (d :: takeWhile (fun x => negb (Ascii.eqb x newline)) after) p
        else lexemeToken TokenType.UNKNOWN c [] p
    | [] => lexemeToken TokenType.UNKNOWN c [] p
    end
  else if Ascii.eqb c "$" then
    lexemeToken TokenType.VARIABLE c (takeWhile isAlphaNumeric rest) p
  else if isDigit c then number c rest p
  else if isAlpha c then identifier c rest p
  else lexemeToken TokenType.UNKNOWN c [] p.

(** The loop of [tokenize()]: [skip] counts the characters of the current
    lexeme that [scanToken()] has already consumed. *)
Fixpoint scan (cs : list ascii) (skip : nat) (p : pos) : list Token :=
  match cs with
  | [] => [{| type := TokenType.EOF; value_ := ""; line := p.1; column := p.2 |}]
  | c :: rest =>
      match skip with
      | S k => scan rest k p
      | O =>
          let '(tok, more, p') := scanToken c rest p in
          match tok with
          | Some t => t :: scan rest more p'
          | None => scan rest more p'
          end
      end
  end.

Definition tokenize (source : string) : list Token :=
  scan (list_ascii_of_string source) 0 (1, 1)%Z.

End Tokenizer.

(** ** Abstract syntax (src/types/types.ts) *)

Module OperatorType.
Inductive t :=
| EQUALS | NOT_EQUALS | GREATER_THAN | LESS_THAN
| GREATER_THAN_EQUALS | LESS_THAN_EQUALS
| CONTAINS | NOT_CONTAINS
| AND | OR | NOT.
End OperatorType.

Inductive ConditionNode :=
| BinaryCondition (operator : OperatorType.t) (left right : ConditionNode)
| UnaryCondition (operator : OperatorType.t) (condition : ConditionNode)
| ComparisonCondition (field : string) (operator : OperatorType.t) (value : value).

(** [fields: string[] | "*"] *)
Inductive Fields :=
| AllFields
| FieldList (names : list string).

Record SelectOperationNode := {
  fields : Fields;
  conditions : option ConditionNode;
  each : option bool
}.

Inductive OperationNode :=
| SelectOperation (select : SelectOperationNode)
| CountOperation (selectOperation : SelectOperationNode)
| SumOperation
| DivideOperation (dividend divisor : string)
| MultiplyOperation (factor1 factor2 : string)
| SubtractOperation (minuend subtrahend : string)
| AverageOperation
| MedianOperation
| MinOperation
| MaxOperation
| PercentOfOperation (numerator denominator : SelectOperationNode)
| MostFrequentOperation
| LeastFrequentOperation
| UniqueOperation
| StandardDeviationOperation
| VarianceOperation
| RangeOperation
| VariableAssignment (name : string) (operation : OperationNode).

Record UsePathNode := {
  path : string;
  use_fields : option (list string)
}.

Record QueryBlockNode := {
  name : string;
  operations : list OperationNode
}.

Record ProgramNode := {
  usePaths : list UsePathNode;
  queryBlocks : list QueryBlockNode
}.

(** ** Parser (src/parser/parser.ts)

    The parser's cursor is the list of tokens from [tokens[current]] on; a
    token array ends with its [EOF] token, which [advance()] never passes. *)

Module Parser.
Import TokenType.

Definition parser (A : Type) := list Token -> result (A * list Token).

Definition eofToken : Token :=
  {| type := EOF; value_ := ""; line := 0; column := 0 |}.

Definition peek (ts : list Token) : Token := hd eofToken ts.

Definition isAtEnd (ts : list Token) : bool := eqb (type (peek ts)) EOF.

Definition check (ty : TokenType.t) (ts : list Token) : bool :=
  if isAtEnd ts then false else eqb (type (peek ts)) ty.

Definition advance (ts : list Token) : list Token :=
  if isAtEnd ts then ts else tl ts.

(** [match(type)]: the cursor after the token, when it matches. *)
Definition match_ (ty : TokenType.t) (ts : list Token) : option (list Token) :=
  if check ty ts then Some (advance ts) else None.

(** [throw new Error(`Line ${this.peek().line}: ${message}`)] *)
Definition syntaxError {A} (ts : list Token) (message : string) : result A :=
  Throw (Error ("Line " ++ pretty (line (peek ts)) ++ ": " ++ message)).

Definition consume (ty : TokenType.t) (message : string) : parser Token :=
  fun ts => if check ty ts then Ok (peek ts, advance ts) else syntaxError ts message.

Definition join (sep : string) (parts : list string) : string :=
  String.concat sep parts.

(** The [do ... while (this.match(COMMA))] loop of [parseFieldList]. *)
Fixpoint parseFieldList_loop (fuel : nat) : parser (list string) :=
  fun ts =>
    match fuel with
    | O => Throw OutOfFuel
    | S fuel' =>
        let* '(tok, ts1) := consume IDENTIFIER "Expected field name" ts in
        match match_ COMMA ts1 with
        | Some ts2 =>
            let* '(more, ts3) := parseFieldList_loop fuel' ts2 in
            Ok (value_ tok :: more, ts3)
        | None => Ok ([value_ tok], ts1)
        end
    end.

Definition parseFieldList (fuel : nat) : parser (list string) :=
  fun ts =>
    if check RIGHT_BRACKET ts then Ok ([], ts) else parseFieldList_loop fuel ts.

(** The [while (this.match(DOT))] loop of [parseUsePath]. *)
Fixpoint parseUsePath_loop (fuel : nat) (pathComponents : list string)
  : parser (list string * option (list string)) :=
  fun ts =>
    match fuel with
    | O => Throw OutOfFuel
    | S fuel' =>
        match match_ DOT ts with
        | Some ts1 =>
            if check LEFT_BRACKET ts1 then
              let* '(fs, ts2) := parseFieldList fuel' (advance ts1) in
              let* '(_, ts3) :=
                consume RIGHT_BRACKET "Expected closing ']' after fields" ts2 in
              Ok ((pathComponents, Some fs), ts3)
            else if check IDENTIFIER ts1 then
              parseUsePath_loop fuel' (pathComponents ++ [value_ (peek ts1)])
                (advance ts1)
            else syntaxError ts1 "Expected identifier or fields in USE path"
        | None => Ok ((pathComponents, None), ts)
        end
    end.

Definition parseUsePath (fuel : nat) : parser UsePathNode :=
  fun ts =>
    let* '(first, ts1) :=
      (if check IDENTIFIER ts
       then consume IDENTIFIER "Expected identifier in USE path" ts
       else syntaxError ts "Expected identifier in USE path") in
    let* '((pathComponents, fs), ts2) :=
      parseUsePath_loop fuel [value_ first] ts1 in
    Ok ({| path := join "." pathComponents; use_fields := fs |}, ts2).

Section WithHost.
Context `{JSHost}.

Definition parseValue : parser value :=
  fun ts =>
    let tok := peek ts in
    if check STRING ts then Ok (VStr (value_ tok), advance ts)
    else if check NUMBER ts then Ok (VNum (parseFloat (value_ tok)), advance ts)
    else if check BOOLEAN ts then
      Ok (VBool (String.eqb (value_ tok) "true"), advance ts)
    else if check NULL ts then Ok (VNull, advance ts)
    else if check VARIABLE ts then Ok (VStr (value_ tok), advance ts)
    else syntaxError ts "Expected value in condition".

Definition parseComparisonOperator : parser OperatorType.t :=
  fun ts =>
    if check EQUALS ts then Ok (OperatorType.EQUALS, advance ts)
    else if check NOT_EQUALS ts then Ok (OperatorType.NOT_EQUALS, advance ts)
    else if check GREATER_THAN ts then Ok (OperatorType.GREATER_THAN, advance ts)
    else if check LESS_THAN ts then Ok (OperatorType.LESS_THAN, advance ts)
    else if check GREATER_THAN_EQUALS ts then
      Ok (OperatorType.GREATER_THAN_EQUALS, advance ts)
    else if check LESS_THAN_EQUALS ts then
      Ok (OperatorType.LESS_THAN_EQUALS, advance ts)
    else if check CONTAINS ts then Ok (OperatorType.CONTAINS, advance ts)
    else if check NOT_CONTAINS ts then Ok (OperatorType.NOT_CONTAINS, advance ts)
    else syntaxError ts "Expected operator in condition".

Fixpoint parseCondition (fuel : nat) : parser ConditionNode :=
  fun ts =>
    match fuel with
    | O => Throw OutOfFuel
    | S fuel' => parseLogicalOr fuel' ts
    end
with parseLogicalOr (fuel : nat) : parser ConditionNode :=
  fun ts =>
    match fuel with
    | O => Throw OutOfFuel
    | S fuel' =>
        let* '(expr, ts1) := parseLogicalAnd fuel' ts in
        parseLogicalOr_loop fuel' expr ts1
    end
with parseLogicalOr_loop (fuel : nat) (expr : ConditionNode)
  : parser ConditionNode :=
  fun ts =>
    match fuel with
    | O => Throw OutOfFuel
    | S fuel' =>
        match match_ PIPE ts with
        | Some ts1 =>
            let* '(rhs, ts2) := parseLogicalAnd fuel' ts1 in
            parseLogicalOr_loop fuel'
              (BinaryCondition OperatorType.OR expr rhs) ts2
        | None => Ok (expr, ts)
        end
    end
with parseLogicalAnd (fuel : nat) : parser ConditionNode :=
  fun ts =>
    match fuel with
    | O => Throw OutOfFuel
    | S fuel' =>
        let* '(expr, ts1) := parseUnary fuel' ts in
        parseLogicalAnd_loop fuel' expr ts1
    end
with parseLogicalAnd_loop (fuel : nat) (expr : ConditionNode)
  : parser ConditionNode :=
  fun ts =>
    match fuel with
    | O => Throw OutOfFuel
    | S fuel' =>
        match match_ AMPERSAND ts with
        | Some ts1 =>
            let* '(rhs, ts2) := parseUnary fuel' ts1 in
            parseLogicalAnd_loop fuel'
              (BinaryCondition OperatorType.AND expr rhs) ts2
        | None => Ok (expr, ts)
        end
    end
with parseUnary (fuel : nat) : parser ConditionNode :=
  fun ts =>
    match fuel with
    | O => Throw OutOfFuel
    | S fuel' =>
        match match_ NOT ts with
        | Some ts1 =>
            let* '(condition, ts2) := parseUnary fuel' ts1 in
            Ok (UnaryCondition OperatorType.NOT condition, ts2)
        | None => parsePrimary fuel' ts
        end
    end
with parsePrimary (fuel : nat) : parser ConditionNode :=
  fun ts =>
    match fuel with
    | O => Throw OutOfFuel
    | S fuel' =>
        match match_ LEFT_PAREN ts with
        | Some ts1 =>
            let* '(expr, ts2) := parseCondition fuel' ts1 in
            let* '(_, ts3) :=
              consume RIGHT_PAREN "Expected ')' after expression" ts2 in
            Ok (expr, ts3)
        | None =>
            let* '(fieldTok, ts1) :=
              consume IDENTIFIER "Expected field name in condition" ts in
            let* '(operator, ts2) := parseComparisonOperator ts1 in
            let* '(v, ts3) := parseValue ts2 in
            Ok (ComparisonCondition (value_ fieldTok) operator v, ts3)
        end
    end.

(** The optional [WHERE ( condition )] clause that follows a SELECT. *)
Definition parseWhere (fuel : nat) : parser (option ConditionNode) :=
  fun ts =>
    match match_ WHERE ts with
    | Some ts1 =>
        let* '(_, ts2) := consume LEFT_PAREN "Expected '(' after WHERE" ts1 in
        let* '(c, ts3) := parseCondition fuel ts2 in
        let* '(_, ts4) :=
          consume RIGHT_PAREN "Expected ')' after WHERE conditions" ts3 in
        Ok (Some c, ts4)
    | None => Ok (None, ts)
    end.

Definition parseSelectOperation (fuel : nat) : parser SelectOperationNode :=
  fun ts =>
    let '(each_, ts0) :=
      match match_ EACH ts with
      | Some ts' => (true, ts')
      | None => (false, ts)
      end in
    let* '(fs, ts1) :=
      match match_ ASTERISK ts0 with
      | Some ts' => Ok (AllFields, ts')
      | None =>
          match match_ LEFT_BRACKET ts0 with
          | Some ts' =>
              let* '(l, ts'') := parseFieldList fuel ts' in
              let* '(_, ts''') :=
                consume RIGHT_BRACKET "Expected closing ']' after fields" ts'' in
              Ok (FieldList l, ts''')
          | None =>
              if check IDENTIFIER ts0
              then Ok (FieldList [value_ (peek ts0)], advance ts0)
              else Ok (AllFields, ts0)
          end
      end in
    let* '(c, ts2) := parseWhere fuel ts1 in
    Ok ({| fields := fs; conditions := c; each := Some each_ |}, ts2).

(** The branch [if (this.check(TokenType.SELECT))] shared by
    [parseCountOperation] and [parsePercentOfOperation]: the SELECT keyword
    is consumed and a [*] selection is built, with its WHERE clause only. *)
Definition parseStarSelect (fuel : nat) : parser SelectOperationNode :=
  fun ts =>
    let* '(c, ts1) := parseWhere fuel (advance ts) in
    Ok ({| fields := AllFields; conditions := c; each := None |}, ts1).

Definition parseCountOperation (fuel : nat) : parser OperationNode :=
  fun ts =>
    if check SELECT ts then
      let* '(s, ts1) := parseStarSelect fuel ts in Ok (CountOperation s, ts1)
    else
      let* '(s, ts1) := parseSelectOperation fuel ts in
      Ok (CountOperation s, ts1).

(** The look-ahead of [parsePercentOfOperation]: a COMMA directly followed
    by SELECT anywhere in the rest of the token array. *)
Fixpoint commaThenSelect (ts : list Token) : bool :=
  match ts with
  | t1 :: ts' =>
      (eqb (type t1) COMMA
       && match ts' with
          | t2 :: _ => eqb (type t2) SELECT
          | [] => false
          end)
      || commaThenSelect ts'
  | [] => false
  end.

Definition parsePercentOfOperand (fuel : nat) : parser SelectOperationNode :=
  fun ts =>
    if check SELECT ts then parseStarSelect fuel ts
    else parseSelectOperation fuel ts.

Definition parsePercentOfOperation (fuel : nat) : parser OperationNode :=
  fun ts =>
    let selectIsNext := commaThenSelect ts in
    let* '(numerator, ts1) := parsePercentOfOperand fuel ts in
    let ts2 :=
      if selectIsNext then default ts1 (match_ COMMA ts1) else ts1 in
    let* '(denominator, ts3) := parsePercentOfOperand fuel ts2 in
    Ok (PercentOfOperation numerator denominator, ts3).

Definition parseTwoVariables (first second : string)
  : parser (string * string) :=
  fun ts =>
    let* '(a, ts1) := consume VARIABLE first ts in
    let* '(b, ts2) := consume VARIABLE second ts1 in
    Ok ((value_ a, value_ b), ts2).

Definition parseDivideOperation : parser OperationNode :=
  fun ts =>
    let* '((a, b), ts1) :=
      parseTwoVariables "Expected variable as dividend"
        "Expected variable as divisor" ts in
    Ok (DivideOperation a b, ts1).

Definition parseMultiplyOperation : parser OperationNode :=
  fun ts =>
    let* '((a, b), ts1) :=
      parseTwoVariables "Expected variable as first factor"
        "Expected variable as second factor" ts in
    Ok (MultiplyOperation a b, ts1).

Definition parseSubtractOperation : parser OperationNode :=
  fun ts =>
    let* '((a, b), ts1) :=
      parseTwoVariables "Expected variable as minuend"
        "Expected variable as subtrahend" ts in
    Ok (SubtractOperation a b, ts1).

Definition parseVariableAssignment (fuel : nat) : parser OperationNode :=
  fun ts =>
    let* '(var, ts1) := consume VARIABLE "Expected variable name" ts in
    let ts2 := advance ts1 in
    let* '(operation, ts3) :=
      (if check SUM ts1 then Ok (SumOperation, ts2)
       else if check COUNT ts1 then parseCountOperation fuel ts2
       else if check MOST_FREQUENT ts1 then Ok (MostFrequentOperation, ts2)
       else if check LEAST_FREQUENT ts1 then Ok (LeastFrequentOperation, ts2)
       else if check AVERAGE ts1 then Ok (AverageOperation, ts2)
       else if check MEDIAN ts1 then Ok (MedianOperation, ts2)
       else if check MIN ts1 then Ok (MinOperation, ts2)
       else if check MAX ts1 then Ok (MaxOperation, ts2)
       else if check UNIQUE ts1 then Ok (UniqueOperation, ts2)
       else if check STANDARD_DEVIATION ts1 then
         Ok (StandardDeviationOperation, ts2)
       else if check VARIANCE ts1 then Ok (VarianceOperation, ts2)
       else if check RANGE ts1 then Ok (RangeOperation, ts2)
       else if check SELECT ts1 then
         let* '(s, ts') := parseSelectOperation fuel ts2 in
         Ok (SelectOperation s, ts')
       else syntaxError ts1 "Expected operation after variable assignment") in
    Ok (VariableAssignment (value_ var) operation, ts3).

(** One turn of the [while] loop of [parseQueryBlock]: the operation it
    pushes, if any. *)
Definition parseOperation (fuel : nat) : parser (option OperationNode) :=
  fun ts =>
    let some (p : result (OperationNode * list Token)) :=
      let* '(op, ts') := p in Ok (Some op, ts') in
    let ts1 := advance ts in
    if check VARIABLE ts then some (parseVariableAssignment fuel ts)
    else if check SELECT ts then
      let* '(s, ts') := parseSelectOperation fuel ts1 in
      Ok (Some (SelectOperation s), ts')
    else if check COUNT ts then some (parseCountOperation fuel ts1)
    else if check PERCENT_OF ts then some (parsePercentOfOperation fuel ts1)
    else if check SUM ts then Ok (Some SumOperation, ts1)
    else if check DIVIDE ts then some (parseDivideOperation ts1)
    else if check MULTIPLY ts then some (parseMultiplyOperation ts1)
    else if check SUBTRACT ts then some (parseSubtractOperation ts1)
    else if check AVERAGE ts then Ok (Some AverageOperation, ts1)
    else if check MEDIAN ts then Ok (Some MedianOperation, ts1)
    else if check MIN ts then Ok (Some MinOperation, ts1)
    else if check MAX ts then Ok (Some MaxOperation, ts1)
    else if check MOST_FREQUENT ts then Ok (Some MostFrequentOperation, ts1)
    else if check LEAST_FREQUENT ts then Ok (Some LeastFrequentOperation, ts1)
    else if check UNIQUE ts then Ok (Some UniqueOperation, ts1)
    else if check STANDARD_DEVIATION ts then
      Ok (Some StandardDeviationOperation, ts1)
    else if check VARIANCE ts then Ok (Some VarianceOperation, ts1)
    else if check RANGE ts then Ok (Some RangeOperation, ts1)
    else (* Skip unknown tokens *) Ok (None, ts1).

Fixpoint parseQueryBlock_loop (fuel : nat) (ops : list OperationNode)
  : parser (list OperationNode) :=
  fun ts =>
    match fuel with
    | O => Throw OutOfFuel
    | S fuel' =>
        if negb (check RETURN ts) && negb (check QUERY ts) && negb (isAtEnd ts)
        then
          let* '(op, ts1) := parseOperation fuel' ts in
          parseQueryBlock_loop fuel'
            (match op with Some o => ops ++ [o] | None => ops end) ts1
        else Ok (ops, ts)
    end.

Definition parseQueryBlock (fuel : nat) : parser QueryBlockNode :=
  fun ts =>
    let* '(nameTok, ts1) :=
      consume IDENTIFIER "Expected query name after QUERY" ts in
    let* '(ops, ts2) := parseQueryBlock_loop fuel [] ts1 in
    let* '(_, ts3) :=
      consume RETURN "Expected RETURN at end of query block" ts2 in
    Ok ({| name := value_ nameTok; operations := ops |}, ts3).

(** The [while (!this.isAtEnd())] loop of [parse()]. *)
Fixpoint parse_loop (fuel : nat) (program : ProgramNode) (ts : list Token)
  : result ProgramNode :=
  match fuel with
  | O => Throw OutOfFuel
  | S fuel' =>
      if isAtEnd ts then Ok program
      else if check COMMENT ts then parse_loop fuel' program (advance ts)
      else if check USE ts then
        let* '(u, ts1) := parseUsePath fuel' (advance ts) in
        parse_loop fuel'
          {| usePaths := usePaths program ++ [u];
             queryBlocks := queryBlocks program |} ts1
      else if check QUERY ts then
        let* '(q, ts1) := parseQueryBlock fuel' (advance ts) in
        parse_loop fuel'
          {| usePaths := usePaths program;
             queryBlocks := queryBlocks program ++ [q] |} ts1
      else (* Skip unknown tokens *) parse_loop fuel' program (advance ts)
  end.

(** Every loop turn and every nested condition consumes a token, so the
    recursion depth is bounded by a multiple of the number of tokens. *)
Definition fuelFor (tokens : list Token) : nat := 8 * length tokens + 8.

Definition parse (tokens : list Token) : result ProgramNode :=
  parse_loop (fuelFor tokens) {| usePaths := []; queryBlocks := [] |} tokens.

End WithHost.
End Parser.

(** ** Executor (src/executor/executor.ts) *)

Record ExecutionContext := {
  data : value;
  variables : gmap string value;
  currentContext : list value
}.

Definition setCurrentContext (rows : list value) (context : ExecutionContext)
  : ExecutionContext :=
  {| data := data context; variables := variables context; currentContext := rows |}.

Definition setVariable (name : string) (v : value) (context : ExecutionContext)
  : ExecutionContext :=
  {| data := data context; variables := <[name := v]> (variables context);
     currentContext := currentContext context |}.

Module Executor.
Section WithHost.
Context `{JSHost}.

(** *** Operators of the host language *)

Definition typeIsString (v : value) : bool :=
  match v with VStr _ => true | _ => false end.

Definition startsWith (prefix s : string) : bool := String.prefix prefix s.

(** [ToPrimitive]: arrays and records become their string form. *)
Definition ToPrimitive (v : value) : value :=
  match v with
  | VArr _ | VObj _ => VStr (ToString v)
  | _ => v
  end.

(** [a == b]; two records or arrays are two distinct references. *)
Definition looseEquals (a b : value) : bool :=
  let prim x y :=
    match x, y with
    | VNum m, VNum n => PrimFloat.eqb m n
    | VStr s, VStr t => String.eqb s t
    | VBool p, VBool q => Bool.eqb p q
    | (VNum _ | VBool _), _ | _, (VNum _ | VBool _) =>
        PrimFloat.eqb (ToNumber x) (ToNumber y)
    | _, _ => false
    end in
  match a, b with
  | (VUndefined | VNull), (VUndefined | VNull) => true
  | (VUndefined | VNull), _ | _, (VUndefined | VNull) => false
  | (VArr _ | VObj _), (VArr _ | VObj _) => false
  | _, _ => prim (ToPrimitive a) (ToPrimitive b)
  end.

(** [a < b] *)
Definition lessThan (a b : value) : bool :=
  match ToPrimitive a, ToPrimitive b with
  | VStr s, VStr t => String.ltb s t
  | x, y => PrimFloat.ltb (ToNumber x) (ToNumber y)
  end.

(** [a <= b] *)
Definition lessThanEquals (a b : value) : bool :=
  match ToPrimitive a, ToPrimitive b with
  | VStr s, VStr t => String.leb s t
  | x, y => PrimFloat.leb (ToNumber x) (ToNumber y)
  end.

(** [a / b], [a * b] and [a - b] on arbitrary values *)
Definition divide (a b : value) : float := (ToNumber a / ToNumber b)%float.
Definition multiply (a b : value) : float := (ToNumber a * ToNumber b)%float.
Definition subtract (a b : value) : float := (ToNumber a - ToNumber b)%float.

(** [v === 0] *)
Definition strictlyZero (v : value) : bool :=
  match v with
  | VNum n => PrimFloat.eqb n 0
  | _ => false
  end.

Definition isNegativeZero (x : float) : bool :=
  match PrimFloat.classify x with NZero => true | _ => false end.

Definition min2 (a b : float) : float :=
  if PrimFloat.is_nan a || PrimFloat.is_nan b then nan
  else if PrimFloat.ltb a b then a
  else if PrimFloat.ltb b a then b
  else if isNegativeZero a then a else b.

Definition max2 (a b : float) : float :=
  if PrimFloat.is_nan a || PrimFloat.is_nan b then nan
  else if PrimFloat.ltb b a then a
  else if PrimFloat.ltb a b then b
  else if isNegativeZero a then b else a.

(** [Math.min(...values)] and [Math.max(...values)] *)
Definition Math_min (values : list float) : float :=
  fold_left min2 values infinity.
Definition Math_max (values : list float) : float :=
  fold_left max2 values neg_infinity.

(** [values.sort((a, b) => a - b)] as a stable insertion sort: [x], which
    comes before the elements of [sorted] in the array, moves past those the
    comparator puts before it ([x - y > 0]). *)
Fixpoint insertSorted (x : float) (sorted : list float) : list float :=
  match sorted with
  | [] => [x]
  | y :: sorted' =>
      if PrimFloat.ltb 0 (x - y) then y :: insertSorted x sorted'
      else x :: sorted
  end.

Definition sortNumbers (values : list float) : list float :=
  fold_right insertSorted [] values.

(** [path.split(".")] *)
Fixpoint split_aux (sep : ascii) (cs acc : list ascii) : list string :=
  match cs with
  | [] => [string_of_list_ascii (rev acc)]
  | c :: cs' =>
      if Ascii.eqb c sep then
        string_of_list_ascii (rev acc) :: split_aux sep cs' []
      else split_aux sep cs' (c :: acc)
  end.

Definition split (sep : ascii) (s : string) : list string :=
  split_aux sep (list_ascii_of_string s) [].

(** *** Resolution of the USE paths *)

(** The loop [for (const part of pathParts)], with its [break]. *)
Fixpoint traverse (currentData : value) (pathParts : list string)
  : result value :=
  match pathParts with
  | [] => Ok currentData
  | part :: pathParts' =>
      let* next := getProp currentData part in
      if negb (ToBoolean next) then Ok currentData (* Path doesn't exist *)
      else traverse next pathParts'
  end.

(** The record holding the listed fields of [item] that are defined. *)
Fixpoint pickFields (item : value) (fs : list string)
    (picked : list (string * value)) : result value :=
  match fs with
  | [] => Ok (VObj picked)
  | f :: fs' =>
      let* v := getProp item f in
      if negb (isUndefined v) then pickFields item fs' (setProp f v picked)
      else pickFields item fs' picked
  end.

Definition resolveUsePath (root : value) (usePath : UsePathNode)
  : result (list value) :=
  let pathParts := split "." (path usePath) in
  let* currentData := traverse root pathParts in
  match currentData with
  | VArr items =>
      match use_fields usePath with
      | Some fs => mapM (fun item => pickFields item fs []) items
      | None => Ok items
      end
  | VObj _ =>
      match use_fields usePath with
      | Some fs => let* r := pickFields currentData fs [] in Ok [r]
      | None => Ok [currentData]
      end
  | _ => Ok []
  end.

Fixpoint resolveDataFromUsePaths_loop (root : value)
    (paths : list UsePathNode) (resolvedData : list value)
  : result (list value) :=
  match paths with
  | [] => Ok resolvedData
  | usePath :: paths' =>
      let* found := resolveUsePath root usePath in
      resolveDataFromUsePaths_loop root paths' (resolvedData ++ found)
  end.

Definition resolveDataFromUsePaths (program : ProgramNode) (root : value)
  : result (list value) :=
  match usePaths program with
  | [] => Ok []
  | paths => resolveDataFromUsePaths_loop root paths []
  end.

(** *** Variables and conditions *)

Definition getVariableValue (variableName : string)
    (context : ExecutionContext) : result value :=
  match variables context !! variableName with
  | None => Throw (Error ("Variable " ++ variableName ++ " not found"))
  | Some v => Ok v
  end.

Definition operatorText (op : OperatorType.t) : string :=
  match op with
  | OperatorType.EQUALS => "="
  | OperatorType.NOT_EQUALS => "!="
  | OperatorType.GREATER_THAN => ">"
  | OperatorType.LESS_THAN => "<"
  | OperatorType.GREATER_THAN_EQUALS => ">="
  | OperatorType.LESS_THAN_EQUALS => "<="
  | OperatorType.CONTAINS => "CONTAINS"
  | OperatorType.NOT_CONTAINS => "NOT_CONTAINS"
  | OperatorType.AND => "&"
  | OperatorType.OR => "|"
  | OperatorType.NOT => "!"
  end.

(** [actualValue.some((val) => String(val) === String(compareValue))] *)
Definition someSameText (actualValue compareValue : value) : bool :=
  match actualValue with
  | VArr vals =>
      existsb (fun val => String.eqb (ToString val) (ToString compareValue)) vals
  | _ => false
  end.

Definition evaluateComparison (field : string) (operator : OperatorType.t)
    (v item : value) (context : ExecutionContext) : result bool :=
  let* actualValue := getProp item field in
  let* compareValue :=
    (if typeIsString v && startsWith "$" (ToString v)
     then getVariableValue (ToString v) context
     else Ok v) in
  match operator with
  | OperatorType.EQUALS => Ok (looseEquals actualValue compareValue)
  | OperatorType.NOT_EQUALS => Ok (negb (looseEquals actualValue compareValue))
  | OperatorType.GREATER_THAN =>
      Ok (negb (isNull compareValue) && lessThan compareValue actualValue)
  | OperatorType.LESS_THAN =>
      Ok (negb (isNull compareValue) && lessThan actualValue compareValue)
  | OperatorType.GREATER_THAN_EQUALS =>
      Ok (negb (isNull compareValue) && lessThanEquals compareValue actualValue)
  | OperatorType.LESS_THAN_EQUALS =>
      Ok (negb (isNull compareValue) && lessThanEquals actualValue compareValue)
  | OperatorType.CONTAINS =>
      Ok (Array_isArray actualValue && someSameText actualValue compareValue)
  | OperatorType.NOT_CONTAINS =>
      Ok (negb (Array_isArray actualValue)
          || negb (someSameText actualValue compareValue))
  | _ =>
      Throw (Error ("Unknown comparison operator: " ++ operatorText operator))
  end.

(** [evaluateCondition]; an unknown condition type is excluded by the type
    [ConditionNode]. *)
Fixpoint evaluateCondition (condition : ConditionNode) (item : value)
    (context : ExecutionContext) : result bool :=
  match condition with
  | BinaryCondition operator l r =>
      match operator with
      | OperatorType.AND =>
          let* a := evaluateCondition l item context in
          if a then evaluateCondition r item context else Ok false
      | OperatorType.OR =>
          let* a := evaluateCondition l item context in
          if a then Ok true else evaluateCondition r item context
      | _ => Throw (Error ("Unknown binary operator: " ++ operatorText operator))
      end
  | UnaryCondition operator c =>
      match operator with
      | OperatorType.NOT =>
          let* a := evaluateCondition c item context in Ok (negb a)
      | _ => Throw (Error ("Unknown unary operator: " ++ operatorText operator))
      end
  | ComparisonCondition field operator v =>
      evaluateComparison field operator v item context
  end.

(** *** SELECT and COUNT *)

(** The conversion SELECT applies to a projected field value. *)
Definition ensurePrimitive (v : value) : value :=
  match v with
  | VNull | VStr _ | VNum _ | VBool _ => v
  | VArr _ | VObj _ => stringified v
  | VUndefined => VStr (ToString v)
  end.

Fixpoint project (item : value) (fs : list string)
    (projection : list (string * value)) : result value :=
  match fs with
  | [] => Ok (stringified (VObj projection))
  | f :: fs' =>
      let* v := getProp item f in
      project item fs' (setProp f (ensurePrimitive v) projection)
  end.

Definition executeSelect (operation : SelectOperationNode)
    (context : ExecutionContext)
  : result (list value * ExecutionContext) :=
  let result_ : list value := [] in
  (* Each select statement wipes the current context clean *)
  let context := setCurrentContext [] context in
  (* Apply WHERE filter if present *)
  let* result_ :=
    match conditions operation with
    | Some c => filterM (fun item => evaluateCondition c item context) result_
    | None => Ok result_
    end in
  (* Extract requested fields *)
  let* result_ :=
    match fields operation with
    | FieldList [field] =>
        mapM (fun item =>
                let* v := getProp item field in Ok (ensurePrimitive v)) result_
    | FieldList fs => mapM (fun item => project item fs []) result_
    | AllFields => Ok (List.map stringified result_)
    end in
  (* Update context with the selection result *)
  Ok (result_, setCurrentContext result_ context).

Definition executeCount (selectOperation : SelectOperationNode)
    (context : ExecutionContext) : result (value * ExecutionContext) :=
  (* Save original context *)
  let originalContext := currentContext context in
  (* Execute the SELECT operation inside the COUNT *)
  let* '(selectResult, _) :=
    executeSelect selectOperation (setCurrentContext originalContext context) in
  (* Restore original context *)
  Ok (VNum (Num_of_nat (length selectResult)),
      setCurrentContext originalContext context).

(** *** Aggregates *)

(** [isNaN(x) ? 0 : x] *)
Definition orZero (x : float) : float :=
  if PrimFloat.is_nan x then 0%float else x.

Definition multipleProperties (what : string) : exn :=
  Error ("Cannot " ++ what ++ " objects with multiple properties").

Definition executeSum (context : ExecutionContext) : result float :=
  let currentContext := currentContext context in
  match currentContext with
  | [] => Ok 0%float
  | firstItem :: _ =>
      if notRecord firstItem then
        Ok (fold_left (fun sum v => (sum + orZero (ToNumber v))%float)
              currentContext 0%float)
      else
        match Object_keys firstItem with
        | [key] =>
            let* vs := mapM (fun item => getProp item key) currentContext in
            Ok (fold_left (fun sum v => (sum + orZero (ToNumber v))%float)
                  vs 0%float)
        | _ => Throw (multipleProperties "sum")
        end
  end.

Definition executeAverage (context : ExecutionContext) : result float :=
  match currentContext context with
  | [] => Ok 0%float
  | _ =>
      let* sum := executeSum context in
      Ok (sum / Num_of_nat (length (currentContext context)))%float
  end.

(** The block "Extract numeric values" that MEDIAN, MIN, MAX and VARIANCE
    each contain, for a non-empty working set starting with [firstItem]. *)
Definition numericValues (what : string) (firstItem : value)
    (currentContext : list value) : result (list float) :=
  let notNaN x := negb (PrimFloat.is_nan x) in
  if notRecord firstItem then
    Ok (List.filter notNaN (List.map ToNumber currentContext))
  else
    match Object_keys firstItem with
    | [key] =>
        let* vs := mapM (fun item => getProp item key) currentContext in
        Ok (List.filter notNaN (List.map ToNumber vs))
    | _ => Throw (multipleProperties what)
    end.

Definition executeMedian (context : ExecutionContext) : result float :=
  match currentContext context with
  | [] => Ok 0%float
  | firstItem :: _ =>
      let* values :=
        numericValues "calculate median of" firstItem (currentContext context) in
      match values with
      | [] => Ok 0%float
      | _ =>
          let values := sortNumbers values in
          let mid := (length values / 2)%nat in
          if (length values mod 2 =? 0)%nat then
            Ok ((nth (mid - 1) values nan + nth mid values nan) / 2)%float
          else Ok (nth mid values nan)
      end
  end.

Definition executeMin (context : ExecutionContext) : result float :=
  match currentContext context with
  | [] => Ok 0%float
  | firstItem :: _ =>
      let* values :=
        numericValues "find minimum of" firstItem (currentContext context) in
      match values with
      | [] => Ok 0%float
      | _ => Ok (Math_min values)
      end
  end.

Definition executeMax (context : ExecutionContext) : result float :=
  match currentContext context with
  | [] => Ok 0%float
  | firstItem :: _ =>
      let* values :=
        numericValues "find maximum of" firstItem (currentContext context) in
      match values with
      | [] => Ok 0%float
      | _ => Ok (Math_max values)
      end
  end.

Definition executeVariance (context : ExecutionContext) : result float :=
  match currentContext context with
  | [] | [_] => Ok 0%float
  | firstItem :: _ =>
      let* values :=
        numericValues "calculate variance of" firstItem (currentContext context) in
      match values with
      | [] | [_] => Ok 0%float
      | _ =>
          let n := Num_of_nat (length values) in
          let mean := (fold_left PrimFloat.add values 0 / n)%float in
          Ok (fold_left (fun sum v => sum + Math_pow (v - mean) 2) values 0
              / (n - 1))%float
      end
  end.

Definition executeStandardDeviation (context : ExecutionContext)
  : result float :=
  let* variance := executeVariance context in
  Ok (PrimFloat.sqrt variance).

Definition executeRange (context : ExecutionContext) : result float :=
  let* min := executeMin context in
  let* max := executeMax context in
  Ok (max - min)%float.

(** *** PERCENT_OF *)

(** The body of the [try] block of [executePercentOf]; [select] is the
    [this.executeSelect] it calls. *)
Definition executePercentOf_try
    (select : SelectOperationNode -> ExecutionContext
              -> result (list value * ExecutionContext))
    (numerator denominator : SelectOperationNode)
    (context : ExecutionContext) : result (value * ExecutionContext) :=
  (* Save current context *)
  let originalContext := currentContext context in
  let contextCopy :=
    {| data := data context; variables := variables context;
       currentContext := originalContext |} in
  let* '(numeratorResult, _) := select numerator contextCopy in
  let* '(denominatorResult, _) := select denominator contextCopy in
  if (length denominatorResult =? 0)%nat then Ok (VNum 0, context)
  else
    let percentage :=
      (Num_of_nat (length numeratorResult)
       / Num_of_nat (length denominatorResult) * 100)%float in
    (* Restore original context *)
    Ok (VNum percentage, setCurrentContext originalContext context).

(** [executePercentOf] with its [try] and [catch], around the [select] it
    calls. *)
Definition executePercentOf_around
    (select : SelectOperationNode -> ExecutionContext
              -> result (list value * ExecutionContext))
    (numerator denominator : SelectOperationNode)
    (context : ExecutionContext) : result (value * ExecutionContext) :=
  try_catch (executePercentOf_try select numerator denominator context)
    (fun error => Ok (VNum 0, context)).

Definition executePercentOf (numerator denominator : SelectOperationNode)
    (context : ExecutionContext) : result (value * ExecutionContext) :=
  executePercentOf_around executeSelect numerator denominator context.

(** *** MOST_FREQUENT, LEAST_FREQUENT and UNIQUE *)

(** An entry [{ count, value }] of the map [frequencies]; the map keeps
    its keys in insertion order. *)
Definition frequencies := list (string * (nat * value)).

Fixpoint has (key : string) (m : frequencies) : bool :=
  match m with
  | [] => false
  | (k, _) :: m' => String.eqb k key || has key m'
  end.

(** [frequencies.get(key)!.count++] *)
Fixpoint increment (key : string) (m : frequencies) : frequencies :=
  match m with
  | [] => []
  | (k, (count, v)) :: m' =>
      if String.eqb k key then (k, (S count, v)) :: m'
      else (k, (count, v)) :: increment key m'
  end.

(** The value an aggregate reads off one element of the working set. *)
Definition soleValue (what : string) (item : value) : result value :=
  if notRecord item then Ok item
  else
    match Object_keys item with
    | [key] => getProp item key
    | _ => Throw (multipleProperties what)
    end.

Fixpoint countFrequencies (what : string) (items : list value)
    (m : frequencies) : result frequencies :=
  match items with
  | [] => Ok m
  | item :: items' =>
      let* v := soleValue what item in
      (* Skip null and undefined *)
      if isNull v || isUndefined v then countFrequencies what items' m
      else
        let key := ToString v in
        if has key m then countFrequencies what items' (increment key m)
        else countFrequencies what items' (m ++ [(key, (1%nat, v))])%list
  end.

(** The loop "Find most frequent": the running maximum and its value. *)
Fixpoint findMost (entries : frequencies) (maxCount : nat)
    (mostFrequent : value) : value :=
  match entries with
  | [] => mostFrequent
  | (_, (count, v)) :: entries' =>
      if (maxCount <? count)%nat then findMost entries' count v
      else findMost entries' maxCount mostFrequent
  end.

(** The loop "Find least frequent"; [None] is the initial [Infinity]. *)
Fixpoint findLeast (entries : frequencies) (minCount : option nat)
    (leastFrequent : value) : value :=
  match entries with
  | [] => leastFrequent
  | (_, (count, v)) :: entries' =>
      if match minCount with
         | None => true
         | Some m => (count <? m)%nat
         end
      then findLeast entries' (Some count) v
      else findLeast entries' minCount leastFrequent
  end.

Definition executeMostFrequent (context : ExecutionContext) : result value :=
  match currentContext context with
  | [] => Ok VNull
  | items =>
      let* m := countFrequencies "find most frequent value of" items [] in
      match m with
      | [] => Ok VNull
      | _ => Ok (findMost m 0 VNull)
      end
  end.

Definition executeLeastFrequent (context : ExecutionContext) : result value :=
  match currentContext context with
  | [] => Ok VNull
  | items =>
      let* m := countFrequencies "find least frequent value of" items [] in
      match m with
      | [] => Ok VNull
      | _ => Ok (findLeast m None VNull)
      end
  end.

(** SameValueZero, the equality of [Set]; two records or arrays are two
    distinct references. *)
Definition sameValueZero (a b : value) : bool :=
  match a, b with
  | VUndefined, VUndefined | VNull, VNull => true
  | VBool p, VBool q => Bool.eqb p q
  | VNum m, VNum n =>
      PrimFloat.eqb m n || (PrimFloat.is_nan m && PrimFloat.is_nan n)
  | VStr s, VStr t => String.eqb s t
  | _, _ => false
  end.

(** The value [Set.prototype.add] stores for [v]: [-0] is stored as [+0]. *)
Definition storedValue (v : value) : value :=
  match v with
  | VNum n => if isNegativeZero n then VNum 0 else v
  | _ => v
  end.

(** [Array.from(new Set(values))] *)
Definition uniqueValues (values : list value) : list value :=
  fold_left (fun seen v =>
               if existsb (sameValueZero v) seen then seen
               else (seen ++ [storedValue v])%list)
    values [].

Definition executeUnique (context : ExecutionContext) : result (list value) :=
  match currentContext context with
  | [] => Ok []
  | firstItem :: _ =>
      let* values :=
        (if notRecord firstItem then Ok (currentContext context)
         else
           match Object_keys firstItem with
           | [key] =>
               mapM (fun item => getProp item key) (currentContext context)
           | _ => Throw (multipleProperties "find unique values of")
           end) in
      Ok (uniqueValues
            (List.filter (fun v => negb (isNull v) && negb (isUndefined v))
               values))
  end.

(** *** Arithmetic on variables *)

Definition executeDivide (dividend divisor : string)
    (context : ExecutionContext) : result float :=
  let* dividend := getVariableValue dividend context in
  let* divisor := getVariableValue divisor context in
  if strictlyZero divisor then Ok 0%float (* Avoid division by zero *)
  else Ok (divide dividend divisor).

Definition executeMultiply (factor1 factor2 : string)
    (context : ExecutionContext) : result float :=
  let* factor1 := getVariableValue factor1 context in
  let* factor2 := getVariableValue factor2 context in
  Ok (multiply factor1 factor2).

Definition executeSubtract (minuend subtrahend : string)
    (context : ExecutionContext) : result float :=
  let* minuend := getVariableValue minuend context in
  let* subtrahend := getVariableValue subtrahend context in
  Ok (subtract minuend subtrahend).

(** *** Operations, query blocks and programs *)

(** The mutable state of an execution: the executor's own
    [this.variables] and the context of the running query block. *)
Definition state := (gmap string value * ExecutionContext)%type.

Definition number (r : result float) (st : state) : result (value * state) :=
  let* x := r in Ok (VNum x, st).

(** [executeOperation]; the [default] branch of its [switch] (an unknown
    operation type) is excluded by the type [OperationNode]. The case of
    [VariableAssignment] is [executeVariableAssignment]. *)
Fixpoint executeOperation (operation : OperationNode) (st : state)
  : result (value * state) :=
  let '(globals, context) := st in
  match operation with
  | SelectOperation s =>
      let* '(rows, context') := executeSelect s context in
      Ok (VArr rows, (globals, context'))
  | CountOperation s =>
      let* '(n, context') := executeCount s context in
      Ok (n, (globals, context'))
  | SumOperation => number (executeSum context) st
  | DivideOperation a b => number (executeDivide a b context) st
  | MultiplyOperation a b => number (executeMultiply a b context) st
  | SubtractOperation a b => number (executeSubtract a b context) st
  | AverageOperation => number (executeAverage context) st
  | MedianOperation => number (executeMedian context) st
  | MinOperation => number (executeMin context) st
  | MaxOperation => number (executeMax context) st
  | PercentOfOperation n d =>
      let* '(p, context') := executePercentOf n d context in
      Ok (p, (globals, context'))
  | MostFrequentOperation =>
      let* v := executeMostFrequent context in Ok (v, st)
  | LeastFrequentOperation =>
      let* v := executeLeastFrequent context in Ok (v, st)
  | UniqueOperation =>
      let* vs := executeUnique context in Ok (VArr vs, st)
  | StandardDeviationOperation => number (executeStandardDeviation context) st
  | VarianceOperation => number (executeVariance context) st
  | RangeOperation => number (executeRange context) st
  | VariableAssignment name operation' =>
      (* Store the result in both maps of variables *)
      let* '(v, (globals', context')) := executeOperation operation' st in
      Ok (v, (<[name := v]> globals', setVariable name v context'))
  end.

(** The loop of [executeQueryBlock]: [result] is the value of the last
    operation executed so far. *)
Fixpoint executeOperations (ops : list OperationNode) (result_ : value)
    (st : state) : result (value * state) :=
  match ops with
  | [] => Ok (result_, st)
  | operation :: ops' =>
      let* '(v, st') := executeOperation operation st in
      executeOperations ops' v st'
  end.

Definition executeQueryBlock (queryBlock : QueryBlockNode) (st : state)
  : result (value * state) :=
  executeOperations (operations queryBlock) VNull st.

Definition createContextForQuery (program : ProgramNode) (root : value)
    (globals : gmap string value) : result ExecutionContext :=
  let* rows := resolveDataFromUsePaths program root in
  Ok {| data := root; variables := globals; currentContext := rows |}.

(** The loop of [execute()] over the query blocks. *)
Fixpoint execute_loop (program : ProgramNode) (root : value)
    (blocks : list QueryBlockNode) (globals : gmap string value)
    (results : gmap string value) : result (gmap string value) :=
  match blocks with
  | [] => Ok results
  | queryBlock :: blocks' =>
      let* queryContext := createContextForQuery program root globals in
      let* '(v, (globals', _)) :=
        executeQueryBlock queryBlock (globals, queryContext) in
      execute_loop program root blocks' globals'
        (<[name queryBlock := v]> results)
  end.

Definition execute (program : ProgramNode) (root : value)
  : result (gmap string value) :=
  execute_loop program root (queryBlocks program) ∅ ∅.

End WithHost.
End Executor.

(** ** The public interface (src/ssoql.ts) *)

Module SSOQL.
Section WithHost.
Context `{JSHost}.

(** A compiled query is the closure over its syntax tree. *)
Record SSOQLQuery := { ast : ProgramNode }.

Definition parseQuery (queryText : string) : result ProgramNode :=
  Parser.parse (Tokenizer.tokenize queryText).

Definition createQuery (queryText : string) : result SSOQLQuery :=
  let* ast := parseQuery queryText in Ok {| ast := ast |}.

Definition expectedObjects (q : SSOQLQuery) : list string :=
  List.map path (usePaths (ast q)).

(** "Convert any non-primitive values to strings" *)
Definition sanitize (v : value) : value :=
  match v with
  | VNull | VStr _ | VNum _ | VBool _ => v
  | _ => stringified v
  end.

Definition execute (q : SSOQLQuery) (root : value)
  : result (gmap string value) :=
  let* results := Executor.execute (ast q) root in
  Ok (sanitize <$> results).

End WithHost.
End SSOQL.

(** ** A host for closed examples

    [exampleHost] agrees with ECMAScript on the inputs the examples of this
    file use: texts made of decimal digits (with a fraction for
    [parseFloat]), texts that are not numeric literals because of a letter,
    integer-valued numbers below 2^53, and squares. *)

Definition digitsToNumber (s : string) : float :=
  match list_ascii_of_string s with
  | [] => 0%float
  | cs =>
      match parse_digits 0 cs with
      | Some n => Num_of_nat n
      | None => nan
      end
  end.

Definition exampleParseFloat (s : string) : float :=
  let cs := list_ascii_of_string s in
  let whole := Tokenizer.takeWhile Tokenizer.isDigit cs in
  match drop (length whole) cs with
  | [] => digitsToNumber s
  | _ :: fraction =>
      match parse_digits 0 (whole ++ fraction) with
      | Some n => (Num_of_nat n / Num_of_nat (10 ^ length fraction))%float
      | None => nan
      end
  end.

Definition integerToString (x : float) : string :=
  if PrimFloat.is_nan x then "NaN"
  else
    match Prim2SF x with
    | S754_finite sign m e =>
        (if sign then "-" else "") ++ pretty (Z.shiftl (Z.pos m) e)
    | S754_zero _ => "0"
    | S754_infinity sign => if sign then "-Infinity" else "Infinity"
    | S754_nan => "NaN"
    end.

#[export] Instance exampleHost : JSHost := {|
  StringToNumber := digitsToNumber;
  NumberToString := integerToString;
  parseFloat := exampleParseFloat;
  Math_pow := fun x y => if PrimFloat.eqb y 2 then (x * x)%float else nan
|}.

(** * Specification vocabulary *)

Section Vocabulary.
Context `{JSHost}.
Import Executor.





End Vocabulary.

(** ** Data of the closed examples *)

Definition record1 (key : string) (n : float) : value := VObj [(key, VNum n)].


(** [USE products QUERY q SUM RETURN] over records with two fields. *)
Definition sumOverRecords : SSOQL.SSOQLQuery :=
  {| SSOQL.ast :=
       {| usePaths := [{| path := "products"; use_fields := None |}];
          queryBlocks := [{| name := "q"; operations := [SumOperation] |}] |} |}.

Definition catalogData : value :=
  VObj [("products",
         VArr [VObj [("id", VNum 1); ("price", VNum 10)];
               VObj [("id", VNum 2); ("price", VNum 20)]])].






Definition productsQuery : string := "USE products QUERY q SELECT * RETURN".

Definition productsData : value :=
  VObj [("products", VArr [record1 "id" 1; record1 "id" 2])].

Definition productsAst : SSOQL.SSOQLQuery :=
  {| SSOQL.ast :=
       {| usePaths := [{| path := "products"; use_fields := None |}];
          queryBlocks :=
            [{| name := "q";
                operations :=
                  [SelectOperation
                     {| fields := AllFields; conditions := None;
                        each := Some false |}] |}] |} |}.

(** Scenario D: [y.w1.plays] holds 2 records and [y.w2.plays] holds 3. *)
Definition axisQuery : string :=
  "USE y.[w1,w2].plays QUERY q COUNT SELECT * RETURN".

Definition axisData : value :=
  VObj [("y",
         VObj [("w1", VObj [("plays", VArr [record1 "id" 1; record1 "id" 2])]);
               ("w2", VObj [("plays", VArr [record1 "id" 3; record1 "id" 4;
                                            record1 "id" 5])])])].

Definition axisAst : SSOQL.SSOQLQuery :=
  {| SSOQL.ast :=
       {| usePaths := [{| path := "y"; use_fields := Some ["w1"; "w2"] |}];
          queryBlocks :=
            [{| name := "q";
                operations :=
                  [CountOperation
                     {| fields := AllFields; conditions := None;
                        each := None |}] |}] |} |}.

(** The result Scenario D expects: [{w1: 2, w2: 3}]. *)
Definition axisExpected : value := VObj [("w1", VNum 2); ("w2", VNum 3)].

(** ** Tokens by their type *)

Definition isToken (ty : TokenType.t) (t : Token) : Prop := type t = ty.

Definition isIdentifier (x : string) (t : Token) : Prop :=
  type t = TokenType.IDENTIFIER /\ value_ t = x.

(** The text [x1.x2. ... .xn] of the identifiers of a declaration. *)
Definition dottedText (xs : list string) : string := String.concat "." xs.

Definition bracketQuery : string := "USE y.[w1,w2].plays".

Definition bracketAst : SSOQL.SSOQLQuery :=
  {| SSOQL.ast :=
       {| usePaths := [{| path := "y"; use_fields := Some ["w1"; "w2"] |}];
          queryBlocks := [] |} |}.

(** ** The USE declarations of a token array *)

(** The identifiers of [. x2 . x3 ... . xn] at the head of [ts]: they end
    at the first dot that no identifier follows. *)
Fixpoint dottedIdentifiers (ts : list Token) : list string :=
  match ts with
  | dot :: t :: ts' =>
      if TokenType.eqb (type dot) TokenType.DOT
         && TokenType.eqb (type t) TokenType.IDENTIFIER
      then value_ t :: dottedIdentifiers ts'
      else []
  | _ => []
  end.

(** The path that the tokens [ts] behind a USE keyword declare: the text of
    the identifiers [x1 . x2 ... . xn], up to the bracketed list, if any. *)
Definition declaredPath (ts : list Token) : string :=
  match ts with
  | t :: ts' => dottedText (value_ t :: dottedIdentifiers ts')
  | [] => ""
  end.

(** The USE declarations of a token array, each as the tokens behind its USE
    keyword, in source order: the USE keywords outside query blocks, a query
    block being the tokens from a QUERY keyword to the next RETURN. *)
Fixpoint useDeclarations (inBlock : bool) (ts : list Token)
  : list (list Token) :=
  match ts with
  | [] => []
  | t :: ts' =>
      if TokenType.eqb (type t) TokenType.EOF then []
      else if inBlock then
        useDeclarations (negb (TokenType.eqb (type t) TokenType.RETURN)) ts'
      else if TokenType.eqb (type t) TokenType.USE then
        ts' :: useDeclarations false ts'
      else useDeclarations (TokenType.eqb (type t) TokenType.QUERY) ts'
  end.

(** The token types that do not end a query block. *)
Definition insideBlock (ty : TokenType.t) : bool :=
  match ty with
  | TokenType.EOF | TokenType.RETURN | TokenType.QUERY => false
  | _ => true
  end.

(** The token types that [parse()] skips between declarations and blocks. *)
Definition outsideBlock (ty : TokenType.t) : bool :=
  match ty with
  | TokenType.EOF | TokenType.USE | TokenType.QUERY => false
  | _ => true
  end.

(** A parsing function started at the cursor [ts] that returns has consumed
    tokens of the [allowed] types only. *)
Definition consumes {A} (allowed : TokenType.t -> bool) (ts : list Token)
    (r : result (A * list Token)) : Prop :=
  match r with
  | Ok (_, ts') =>
      exists pre,
        ts = (pre ++ ts')%list /\ Forall (fun t => allowed (type t) = true) pre
  | Throw _ => True
  end.

Definition declarationsQuery : string :=
  "USE a.b junk QUERY q USE x SUM RETURN USE y.[w1,w2].plays".

Definition declarationsAst : SSOQL.SSOQLQuery :=
  {| SSOQL.ast :=
       {| usePaths := [{| path := "a.b"; use_fields := None |};
                       {| path := "y"; use_fields := Some ["w1"; "w2"] |}];
          queryBlocks := [{| name := "q"; operations := [SumOperation] |}] |} |}.

(** ** Numeric and frequency vocabulary *)

Section AggregateVocabulary.
Context `{JSHost}.

(** An element is numeric when [Number()] maps it to a number, not to NaN. *)
Definition numeric (v : value) : bool := negb (PrimFloat.is_nan (ToNumber v)).

(** The element itself when numeric, the number 0 otherwise. *)
Definition zeroed (v : value) : value := if numeric v then v else VNum 0.

(** The projections [{key: v}] of the values [vs]. *)
Definition projections (key : string) (vs : list value) : list value :=
  List.map (fun v => VObj [(key, v)]) vs.

Definition workingSet (rows : list value) : ExecutionContext :=
  {| data := VNull; variables := ∅; currentContext := rows |}.

End AggregateVocabulary.

Section FrequencyVocabulary.
Context `{JSHost}.
Import Executor.

(** Two values have the same text when [String()] maps them to one string:
    the identity the frequency map of MOST_FREQUENT and LEAST_FREQUENT uses
    for its keys. *)
Definition sameText (a b : value) : bool := String.eqb (ToString a) (ToString b).

(** [a === b] on scalars. *)
Definition strictEquals (a b : value) : bool :=
  match a, b with
  | VUndefined, VUndefined | VNull, VNull => true
  | VBool p, VBool q => Bool.eqb p q
  | VNum m, VNum n => PrimFloat.eqb m n
  | VStr s, VStr t => String.eqb s t
  | _, _ => false
  end.

(** The number of elements of [vals] that are the same as [v]. *)
Definition occurrences (same : value -> value -> bool) (v : value)
    (vals : list value) : nat :=
  length (List.filter (fun u => same u v) vals).

(** [v] is the first-seen element of [vals] among those whose occurrence
    count is maximal. *)
Definition firstMostFrequent (same : value -> value -> bool) (vals : list value)
    (v : value) : Prop :=
  exists before after,
    vals = (before ++ v :: after)%list
    /\ (forall u, In u before ->
          (occurrences same u vals < occurrences same v vals)%nat)
    /\ (forall u, In u vals ->
          (occurrences same u vals <= occurrences same v vals)%nat).

(** [v] is the first-seen element of [vals] among those whose occurrence
    count is minimal. *)
Definition firstLeastFrequent (same : value -> value -> bool) (vals : list value)
    (v : value) : Prop :=
  exists before after,
    vals = (before ++ v :: after)%list
    /\ (forall u, In u before ->
          (occurrences same v vals < occurrences same u vals)%nat)
    /\ (forall u, In u vals ->
          (occurrences same v vals <= occurrences same u vals)%nat).

(** An element of the working set that is a scalar or a record (or array)
    with exactly one key. *)
Definition scalarOrSingle (item : value) : Prop :=
  notRecord item = true
  \/ (exists key v, item = VObj [(key, v)])
  \/ (exists v, item = VArr [v]).

(** The value such an element stands for. *)
Definition soleOf (item : value) : value :=
  match item with
  | VObj [(_, v)] => v
  | VArr [v] => v
  | _ => item
  end.

(** The values that are counted: neither null nor absent. *)
Definition counted (vals : list value) : list value :=
  List.filter (fun v => negb (isNull v || isUndefined v)) vals.

(** The frequency map after the values [vals] were counted into [m]. *)
Definition tally (vals : list value) (m : frequencies) : frequencies :=
  fold_left
    (fun m v =>
       if has (ToString v) m then increment (ToString v) m
       else (m ++ [(ToString v, (1%nat, v))])%list)
    vals m.

(** The first occurrence of every text of [vals], in order. *)
Definition firsts (vals : list value) : list value :=
  fold_left
    (fun acc v =>
       if existsb (fun u => sameText u v) acc then acc else (acc ++ [v])%list)
    vals [].

(** The entry of the frequency map for the value [v] once [vals] were
    counted. *)
Definition entryOf (vals : list value) (v : value) : string * (nat * value) :=
  (ToString v, (occurrences sameText v vals, v)).

Definition countOf (entry : string * (nat * value)) : nat := fst (snd entry).

End FrequencyVocabulary.

(** ** Fuel of the parser *)

(** A parser result that is not a fuel failure and leaves at most [n]
    tokens. *)
Definition sound {A} (n : nat) (r : result (A * list Token)) : Prop :=
  match r with
  | Ok (_, ts') => length ts' <= n
  | Throw e => e <> OutOfFuel
  end.

(** ** Lexemes of the tokenizer *)

(** The characters [scanToken()] ignores. *)
Definition isBlank (c : ascii) : bool :=
  Ascii.eqb c " " || Ascii.eqb c (Tokenizer.chr 13) || Ascii.eqb c (Tokenizer.chr 9)
  || Ascii.eqb c Tokenizer.newline.

(** The characters that open a string literal or a comment. *)
Definition opensText (c : ascii) : bool :=
  Ascii.eqb c (Tokenizer.chr 34) || Ascii.eqb c "'" || Ascii.eqb c "/".

(** The characters of the token values, in order. *)
Definition valuesText (tokens : list Token) : list ascii :=
  concat (List.map (fun t => list_ascii_of_string (value_ t)) tokens).

(** What one call of [scanToken()] on [c :: rest] at the cursor [p] does:
    it consumes [c] and the next [more] characters, leaves the cursor after
    them, and adds no token exactly when [c] is blank. *)
Definition scanned_as (c : ascii) (rest : list ascii) (p : Tokenizer.pos)
    (r : Tokenizer.scanned) : Prop :=
  let '(tok, more, p') := r in
  let lexeme := c :: take more rest in
  more <= length rest
  /\ p' = Tokenizer.advanceAll lexeme p
  /\ match tok with
     | Some t =>
         isBlank c = false
         /\ type t <> TokenType.EOF
         /\ (type t = TokenType.STRING ->
             opensText c = true
             /\ lexeme = c :: list_ascii_of_string (value_ t) ++ [c])
         /\ (type t <> TokenType.STRING ->
             value_ t = Tokenizer.text_of lexeme)
         /\ (opensText c = false -> Forall (fun x => isBlank x = false) lexeme)
         /\ line t = p'.1
         /\ column t = (p'.2 - Z.of_nat (length lexeme))%Z
     | None => isBlank c = true /\ more = 0
     end.

(** The number of line breaks of a text. *)
Definition lineBreaks (cs : list ascii) : nat :=
  length (List.filter (Ascii.eqb Tokenizer.newline) cs).

(** The token [t] stands at its place in [source]: its lexeme (its value,
    between quotes for a string literal) occurs there; the token carries the
    line on which the lexeme ends, and as column the column just behind the
    lexeme minus the length of the lexeme; when the lexeme holds no line
    break these are the line and column of its first character. *)
Definition located (source : list ascii) (t : Token) : Prop :=
  exists pre lexeme post,
    let behind := Tokenizer.advanceAll (pre ++ lexeme)%list (1, 1)%Z in
    source = (pre ++ lexeme ++ post)%list
    /\ (lexeme = list_ascii_of_string (value_ t)
        \/ exists q, type t = TokenType.STRING
                     /\ lexeme = q :: (list_ascii_of_string (value_ t) ++ [q])%list)
    /\ line t = behind.1
    /\ column t = (behind.2 - Z.of_nat (length lexeme))%Z
    /\ (Forall (fun c => c <> Tokenizer.newline) lexeme ->
        (line t, column t) = Tokenizer.advanceAll pre (1, 1)%Z).

(** ** Cursors of the parser *)

(** A token array that ends with an [EOF] token, as [tokenize()] builds
    it. *)
Definition terminated (ts : list Token) : Prop :=
  exists front eof, ts = (front ++ [eof])%list /\ type eof = TokenType.EOF.

(** The error [consume()] and the parsing functions throw at a token of
    [ts]. *)
Definition isSyntaxError (ts : list Token) (e : exn) : Prop :=
  exists t message,
    In t ts /\ e = Error ("Line " ++ pretty (line t) ++ ": " ++ message).

(** The outcome of a parsing function started at the cursor [ts]: it stops
    at a later cursor, or throws a syntax error at a token of [ts]. *)
Definition parses {A} (ts : list Token) (r : result (A * list Token)) : Prop :=
  match r with
  | Ok (_, ts') => suffix ts' ts /\ terminated ts'
  | Throw e => e = OutOfFuel \/ isSyntaxError ts e
  end.

(** A program with no USE path and no query block. *)
Definition emptyProgram : ProgramNode := {| usePaths := []; queryBlocks := [] |}.

(** ** Paths through the data *)

(** A name with no dot in it, as the identifiers of the tokenizer are. *)
Definition plainName (x : string) : bool :=
  forallb (fun c => negb (Ascii.eqb c ".")) (list_ascii_of_string x).

(** [Reaches root parts v]: following the keys [parts] from [root], every
    step finds a truthy value, and the last one is [v]. *)
Inductive Reaches : value -> list string -> value -> Prop :=
| Reaches_here v : Reaches v [] v
| Reaches_step v part next parts w :
    getProp v part = Ok next -> ToBoolean next = true ->
    Reaches next parts w ->
    Reaches v (part :: parts) w.

(** The rows a USE path without field list contributes when it ends at
    [v]. *)
Definition rowsOf (v : value) : list value :=
  match v with
  | VArr items => items
  | VObj _ => [v]
  | _ => []
  end.

(** A value on which a property can be read. *)
Definition readable (v : value) : bool := negb (isNull v) && negb (isUndefined v).

(** ** Shapes of the working set *)

(** A record (or array) that does not have exactly one key. *)
Definition severalKeys (item : value) : Prop :=
  notRecord item = false /\ length (Object_keys item) <> 1.

(** ** The errors of the operations *)





(** No identifier of a USE path of [program], in its dotted path or in its
    field list, names a member of a built-in prototype. *)
Definition ownNames (program : ProgramNode) : bool :=
  forallb (fun usePath =>
             forallb (fun x => negb (inherited x))
               (Executor.split "." (path usePath)
                ++ default [] (use_fields usePath))%list)
    (usePaths program).

(** The operations that neither select nor assign. *)
Definition readsOnly (operation : OperationNode) : bool :=
  match operation with
  | SelectOperation _ | VariableAssignment _ _ => false
  | _ => true
  end.

(** [String()] and [Number()] can convert every value of the state: the
    rows of the working set and what they hold, at any depth, and the values
    of the variables. *)
Definition convertibleState (st : Executor.state) : Prop :=
  Forall (fun row => convertibleData row = true) (currentContext (snd st))
  /\ map_Forall (fun _ v => convertibleData v = true) (variables (snd st)).

(** The state once [name] holds [v] in both maps of variables. *)
Definition assigned (name : string) (v : value) (st : Executor.state)
  : Executor.state :=
  (<[name := v]> (fst st), setVariable name v (snd st)).

(** ** The grammar of conditions *)

(** The comparison operator a token stands for. *)
Definition operatorOf (ty : TokenType.t) : option OperatorType.t :=
  match ty with
  | TokenType.EQUALS => Some OperatorType.EQUALS
  | TokenType.NOT_EQUALS => Some OperatorType.NOT_EQUALS
  | TokenType.GREATER_THAN => Some OperatorType.GREATER_THAN
  | TokenType.LESS_THAN => Some OperatorType.LESS_THAN
  | TokenType.GREATER_THAN_EQUALS => Some OperatorType.GREATER_THAN_EQUALS
  | TokenType.LESS_THAN_EQUALS => Some OperatorType.LESS_THAN_EQUALS
  | TokenType.CONTAINS => Some OperatorType.CONTAINS
  | TokenType.NOT_CONTAINS => Some OperatorType.NOT_CONTAINS
  | _ => None
  end.

Section ConditionGrammar.
Context `{JSHost}.

(** The value a literal token (or a variable) stands for in a comparison. *)
Definition literalOf (t : Token) : option value :=
  match type t with
  | TokenType.STRING => Some (VStr (value_ t))
  | TokenType.NUMBER => Some (VNum (parseFloat (value_ t)))
  | TokenType.BOOLEAN => Some (VBool (String.eqb (value_ t) "true"))
  | TokenType.NULL => Some VNull
  | TokenType.VARIABLE => Some (VStr (value_ t))
  | _ => None
  end.

(** The levels of the grammar, from the tightest binding to the loosest. *)
Inductive level := Primary | Unary | Conjunction | Disjunction.

(** [Condition l c ts]: the tokens [ts] are a condition of level [l] that
    reads as the tree [c]:
    - primary: [field operator value], or [( disjunction )];
    - unary: a primary, or [! unary];
    - conjunction: [unary & unary & ...], grouped from the left;
    - disjunction: [conjunction | conjunction | ...], grouped from the
      left. *)
Inductive Condition : level -> ConditionNode -> list Token -> Prop :=
| Condition_comparison field operator v tf to tv :
    isIdentifier field tf -> operatorOf (type to) = Some operator ->
    literalOf tv = Some v ->
    Condition Primary (ComparisonCondition field operator v) [tf; to; tv]
| Condition_group c lp ts rp :
    isToken TokenType.LEFT_PAREN lp -> Condition Disjunction c ts ->
    isToken TokenType.RIGHT_PAREN rp ->
    Condition Primary c (lp :: ts ++ [rp])
| Condition_primary c ts :
    Condition Primary c ts -> Condition Unary c ts
| Condition_not c bang ts :
    isToken TokenType.NOT bang -> Condition Unary c ts ->
    Condition Unary (UnaryCondition OperatorType.NOT c) (bang :: ts)
| Condition_unary c ts :
    Condition Unary c ts -> Condition Conjunction c ts
| Condition_and l r ts1 amp ts2 :
    Condition Conjunction l ts1 -> isToken TokenType.AMPERSAND amp ->
    Condition Unary r ts2 ->
    Condition Conjunction (BinaryCondition OperatorType.AND l r)
      (ts1 ++ amp :: ts2)
| Condition_conjunction c ts :
    Condition Conjunction c ts -> Condition Disjunction c ts
| Condition_or l r ts1 pipe ts2 :
    Condition Disjunction l ts1 -> isToken TokenType.PIPE pipe ->
    Condition Conjunction r ts2 ->
    Condition Disjunction (BinaryCondition OperatorType.OR l r)
      (ts1 ++ pipe :: ts2).

End ConditionGrammar.

(** [run] gives [r] for every amount of fuel from some amount on. *)
Definition eventually {A} (run : nat -> result A) (r : result A) : Prop :=
  exists n, forall fuel, n <= fuel -> run fuel = r.

Section ConditionParsers.
Context `{JSHost}.
Import Parser.

(** What a condition of each level makes the parser do when [rest]
    follows. *)
Definition parsedAt (l : level) (c : ConditionNode) (ts : list Token) : Prop :=
  match l with
  | Primary =>
      forall rest,
        eventually (fun fuel => parsePrimary fuel (ts ++ rest)%list) (Ok (c, rest))
  | Unary =>
      forall rest,
        eventually (fun fuel => parseUnary fuel (ts ++ rest)%list) (Ok (c, rest))
  | Conjunction =>
      forall rest r,
        eventually (fun fuel => parseLogicalAnd_loop fuel c rest) r ->
        eventually (fun fuel => parseLogicalAnd fuel (ts ++ rest)%list) r
  | Disjunction =>
      forall rest r,
        check TokenType.AMPERSAND rest = false ->
        eventually (fun fuel => parseLogicalOr_loop fuel c rest) r ->
        eventually (fun fuel => parseLogicalOr fuel (ts ++ rest)%list) r
  end.

End ConditionParsers.

(** The tokens of [a = 1 | b = 2 & !c = 3)]. *)
Definition conditionTokens : list Token :=
  Eval vm_compute in Tokenizer.tokenize "a = 1 | b = 2 & !c = 3)".

(** ** The grammar of the operations without operands of their own *)

(** The aggregate a keyword stands for. *)
Definition aggregateOf (ty : TokenType.t) : option OperationNode :=
  match ty with
  | TokenType.SUM => Some SumOperation
  | TokenType.AVERAGE => Some AverageOperation
  | TokenType.MEDIAN => Some MedianOperation
  | TokenType.MIN => Some MinOperation
  | TokenType.MAX => Some MaxOperation
  | TokenType.MOST_FREQUENT => Some MostFrequentOperation
  | TokenType.LEAST_FREQUENT => Some LeastFrequentOperation
  | TokenType.UNIQUE => Some UniqueOperation
  | TokenType.STANDARD_DEVIATION => Some StandardDeviationOperation
  | TokenType.VARIANCE => Some VarianceOperation
  | TokenType.RANGE => Some RangeOperation
  | _ => None
  end.

Definition isVariable (x : string) (t : Token) : Prop :=
  type t = TokenType.VARIABLE /\ value_ t = x.

(** An aggregate keyword, the assignment of an aggregate to a variable, or
    the arithmetic on two variables, with its tokens. *)
Inductive SimpleOperation : OperationNode -> list Token -> Prop :=
| Simple_aggregate operation t :
    aggregateOf (type t) = Some operation ->
    SimpleOperation operation [t]
| Simple_assignment x operation tx t :
    isVariable x tx -> aggregateOf (type t) = Some operation ->
    SimpleOperation (VariableAssignment x operation) [tx; t]
| Simple_divide a b t ta tb :
    isToken TokenType.DIVIDE t -> isVariable a ta -> isVariable b tb ->
    SimpleOperation (DivideOperation a b) [t; ta; tb]
| Simple_multiply a b t ta tb :
    isToken TokenType.MULTIPLY t -> isVariable a ta -> isVariable b tb ->
    SimpleOperation (MultiplyOperation a b) [t; ta; tb]
| Simple_subtract a b t ta tb :
    isToken TokenType.SUBTRACT t -> isVariable a ta -> isVariable b tb ->
    SimpleOperation (SubtractOperation a b) [t; ta; tb].

(** * Properties *)

Section Properties.
Context `{JSHost}.
Import Executor.

(** ** SELECT starts from an empty row list *)

Lemma executeSelect_rows (s : SelectOperationNode) (context : ExecutionContext) :
  executeSelect s context
  = Ok ([], setCurrentContext [] (setCurrentContext [] context)).
Proof.
  unfold executeSelect.
  destruct (conditions s); simpl;
    destruct (fields s) as [|[|f [|g fs]]]; reflexivity.
Qed.

Lemma setCurrentContext_same (context : ExecutionContext) :
  setCurrentContext (currentContext context) context = context.
Proof. now destruct context. Qed.

Lemma executeCount_zero (s : SelectOperationNode) (context : ExecutionContext) :
  executeCount s context = Ok (VNum 0, context).
Proof.
  unfold executeCount. rewrite executeSelect_rows. simpl.
  now rewrite setCurrentContext_same.
Qed.

(** C6. Over an empty working set SUM, COUNT, AVERAGE, MEDIAN, MIN, MAX,
    VARIANCE and RANGE return 0, UNIQUE returns the empty list, and
    MOST_FREQUENT and LEAST_FREQUENT return null; none of them raises, and
    the state is left as it was. *)
Theorem C6_empty_working_set (root : value) (globals vars : gmap string value)
    (s : SelectOperationNode) :
  let context := {| data := root; variables := vars; currentContext := [] |} in
  let st := (globals, context) in
  executeOperation SumOperation st = Ok (VNum 0, st)
  /\ executeOperation (CountOperation s) st = Ok (VNum 0, st)
  /\ executeOperation AverageOperation st = Ok (VNum 0, st)
  /\ executeOperation MedianOperation st = Ok (VNum 0, st)
  /\ executeOperation MinOperation st = Ok (VNum 0, st)
  /\ executeOperation MaxOperation st = Ok (VNum 0, st)
  /\ executeOperation VarianceOperation st = Ok (VNum 0, st)
  /\ executeOperation RangeOperation st = Ok (VNum 0, st)
  /\ executeOperation UniqueOperation st = Ok (VArr [], st)
  /\ executeOperation MostFrequentOperation st = Ok (VNull, st)
  /\ executeOperation LeastFrequentOperation st = Ok (VNull, st).
Proof.
  intros context st. unfold st.
  repeat split; try reflexivity.
  simpl. now rewrite executeCount_zero.
Qed.

(** C8. COUNT returns the length of the list its inner SELECT produces when
    run on a copy of the current working set, and leaves the caller's
    working set (and the rest of the state) exactly as it was. *)
Theorem C8_count_preserves_working_set (s : SelectOperationNode)
    (globals : gmap string value) (context : ExecutionContext) :
  exists rows context' st',
    executeSelect s (setCurrentContext (currentContext context) context)
    = Ok (rows, context')
    /\ executeOperation (CountOperation s) (globals, context)
       = Ok (VNum (Num_of_nat (length rows)), st')
    /\ currentContext (snd st') = currentContext context
    /\ st' = (globals, context).
Proof.
  exists [], (setCurrentContext [] (setCurrentContext []
                (setCurrentContext (currentContext context) context))),
    (globals, context).
  repeat split.
  - apply executeSelect_rows.
  - simpl. now rewrite executeCount_zero.
Qed.

(** C9. When both variables of a DIVIDE are assigned and the divisor's value
    is the number 0 (of either sign), DIVIDE returns 0 and does not raise. *)
Theorem C9_divide_by_zero (dividend divisor : string) (x : value) (y : float)
    (globals : gmap string value) (context : ExecutionContext) :
  variables context !! dividend = Some x ->
  variables context !! divisor = Some (VNum y) ->
  PrimFloat.eqb y 0 = true ->
  executeOperation (DivideOperation dividend divisor) (globals, context)
  = Ok (VNum 0, (globals, context)).
Proof.
  intros Hx Hy Hzero. simpl.
  unfold executeDivide, getVariableValue. rewrite Hx, Hy. simpl.
  now rewrite Hzero.
Qed.

End Properties.

Lemma C9_divide_by_zero_witness :
  let context :=
    {| data := VNull;
       variables := <["$n" := VNum 0]> (<["$t" := VNum 7]> ∅);
       currentContext := [] |} in
  Executor.executeOperation (DivideOperation "$t" "$n") (∅, context)
  = Ok (VNum 0, (∅, context)).
Proof.
  intros context.
  apply (C9_divide_by_zero "$t" "$n" (VNum 7) 0%float ∅ context); reflexivity.
Defined.

Section ErrorPropagation.
Context `{JSHost}.
Import Executor.

(** ** Errors abort the execution *)

(** The [catch] of PERCENT_OF is never entered with the SELECT of this
    version, which starts from an empty row list and evaluates no
    condition. *)
Lemma executePercentOf_try_ok (n d : SelectOperationNode)
    (context : ExecutionContext) :
  executePercentOf_try executeSelect n d context = Ok (VNum 0, context).
Proof.
  unfold executePercentOf_try. now rewrite !executeSelect_rows.
Qed.










End ErrorPropagation.



Section Results.
Context `{JSHost}.
Import Executor.

(** ** The values of the result map *)













End Results.

Section QueryResults.
Context `{JSHost}.
Import Executor.

(** ** The result of one query block *)

Lemma execute_loop_other (program : ProgramNode) (root : value)
    (blocks : list QueryBlockNode) (globals results final : gmap string value)
    (k : string) :
  execute_loop program root blocks globals results = Ok final ->
  Forall (fun queryBlock => name queryBlock <> k) blocks ->
  final !! k = results !! k.
Proof.
  intros Hloop Hnames. revert globals results Hloop.
  induction Hnames as [|queryBlock blocks Hname Hnames IH];
    intros globals results; simpl.
  - now intros [= <-].
  - destruct (createContextForQuery program root globals) as [context|]; simpl;
      [|discriminate].
    destruct (executeQueryBlock queryBlock (globals, context))
      as [[v [globals' context']]|]; simpl; [|discriminate].
    intros Hrest. rewrite (IH _ _ Hrest). now apply lookup_insert_ne.
Qed.

Lemma execute_loop_block (program : ProgramNode) (root : value)
    (before after : list QueryBlockNode) (queryBlock : QueryBlockNode)
    (globals results final : gmap string value) :
  execute_loop program root (before ++ queryBlock :: after) globals results
  = Ok final ->
  Forall (fun later => name later <> name queryBlock) after ->
  exists globals1 context v st',
    createContextForQuery program root globals1 = Ok context
    /\ executeQueryBlock queryBlock (globals1, context) = Ok (v, st')
    /\ final !! name queryBlock = Some v.
Proof.
  intros Hloop Hafter. revert globals results Hloop.
  induction before as [|earlier before IH]; intros globals results; simpl;
    (destruct (createContextForQuery program root globals) as [context|] eqn:Hcontext;
     simpl; [|discriminate]).
  - destruct (executeQueryBlock queryBlock (globals, context))
      as [[v [globals' context']]|] eqn:Hblock; simpl; [|discriminate].
    intros Hrest. exists globals, context, v, (globals', context').
    repeat split; try assumption.
    rewrite (execute_loop_other _ _ _ _ _ _ _ Hrest Hafter).
    apply lookup_insert_eq.
  - destruct (executeQueryBlock earlier (globals, context))
      as [[v [globals' context']]|]; simpl; [|discriminate].
    apply IH.
Qed.

(** C1 (the code at the failing input). For USE [y.[w1,w2].plays], where
    [w1] holds 2 records and [w2] holds 3, the query [COUNT SELECT * RETURN]
    is compiled with the path [y] and the field list [w1, w2], and its result
    is the number 0: no map keyed by [w1] and [w2] is built. *)
Theorem C1_axis_query_counts_zero :
  SSOQL.createQuery axisQuery = Ok axisAst
  /\ SSOQL.execute axisAst axisData = Ok {[ "q" := VNum 0 ]}
  /\ SSOQL.execute axisAst axisData <> Ok {[ "q" := axisExpected ]}.
Proof.
  split; [vm_compute; reflexivity|].
  assert (Hrun : SSOQL.execute axisAst axisData = Ok {[ "q" := VNum 0 ]})
    by (vm_compute; reflexivity).
  split; [exact Hrun|].
  rewrite Hrun. intros Hsame.
  assert (Hq : ({[ "q" := VNum 0 ]} : gmap string value) !! "q"
               = ({[ "q" := axisExpected ]} : gmap string value) !! "q")
    by congruence.
  rewrite !lookup_singleton_eq in Hq. discriminate.
Qed.

(** C3 (amended). Whenever [execute()] succeeds, a query block whose only
    operation is SELECT * (whose name is not [__proto__], and is reused by
    no later block) is reported as one string: the JSON text of the list of
    rows its SELECT produced in the context built for the block. *)
Theorem C3_select_all_is_serialized (program : ProgramNode) (root : value)
    (before after : list QueryBlockNode) (queryBlock : QueryBlockNode)
    (select : SelectOperationNode) (results : gmap string value) :
  queryBlocks program = (before ++ queryBlock :: after)%list ->
  operations queryBlock = [SelectOperation select] ->
  fields select = AllFields ->
  name queryBlock <> "__proto__" ->
  Forall (fun later => name later <> name queryBlock) after ->
  SSOQL.execute {| SSOQL.ast := program |} root = Ok results ->
  exists globals context rows context' text,
    createContextForQuery program root globals = Ok context
    /\ executeSelect select context = Ok (rows, context')
    /\ JSON_stringify (VArr rows) = Some text
    /\ results !! name queryBlock = Some (VStr text).
Proof.
  intros Hblocks Hops _ _ Hafter. unfold SSOQL.execute, Executor.execute. simpl.
  rewrite Hblocks.
  destruct (execute_loop _ _ _ _ _) as [raw|] eqn:Hloop; simpl; [|discriminate].
  intros [= <-].
  destruct (execute_loop_block _ _ _ _ _ _ _ _ Hloop Hafter)
    as (globals & context & v & st' & Hcontext & Hrun & Hlookup).
  unfold executeQueryBlock in Hrun. rewrite Hops in Hrun. simpl in Hrun.
  destruct (executeSelect select context) as [[rows context']|] eqn:Hselect;
    simpl in Hrun; [|discriminate].
  injection Hrun as <- _.
  exists globals, context, rows, context'. eexists.
  split; [exact Hcontext|]. split; [exact Hselect|]. split; [reflexivity|].
  rewrite lookup_fmap, Hlookup. reflexivity.
Qed.

End QueryResults.

Lemma C3_select_all_is_serialized_witness :
  exists globals context rows context' text,
    Executor.createContextForQuery (SSOQL.ast productsAst) productsData globals
    = Ok context
    /\ Executor.executeSelect
         {| fields := AllFields; conditions := None; each := Some false |} context
       = Ok (rows, context')
    /\ JSON_stringify (VArr rows) = Some text
    /\ ({[ "q" := VStr "[]" ]} : gmap string value) !! "q" = Some (VStr text).
Proof.
  apply (C3_select_all_is_serialized (SSOQL.ast productsAst) productsData [] []
           {| name := "q";
              operations :=
                [SelectOperation
                   {| fields := AllFields; conditions := None;
                      each := Some false |}] |}).
  - reflexivity.
  - reflexivity.
  - reflexivity.
  - discriminate.
  - constructor.
  - vm_compute. reflexivity.
Defined.

(** C3 (counterexample). With [products] bound to an array of two records,
    the query [SELECT * RETURN] is reported as the string [[]], not as the
    two records of the array. *)
Lemma C3_select_all_counterexample :
  SSOQL.createQuery productsQuery = Ok productsAst
  /\ SSOQL.execute productsAst productsData = Ok {[ "q" := VStr "[]" ]}
  /\ SSOQL.execute productsAst productsData
     <> Ok {[ "q" := VArr [record1 "id" 1; record1 "id" 2] ]}.
Proof.
  split; [vm_compute; reflexivity|].
  assert (Hrun : SSOQL.execute productsAst productsData = Ok {[ "q" := VStr "[]" ]})
    by (vm_compute; reflexivity).
  split; [exact Hrun|].
  rewrite Hrun. intros Hsame.
  assert (Hq : ({[ "q" := VStr "[]" ]} : gmap string value) !! "q"
               = ({[ "q" := VArr [record1 "id" 1; record1 "id" 2] ]}
                  : gmap string value) !! "q")
    by congruence.
  rewrite !lookup_singleton_eq in Hq. discriminate.
Qed.



Section TokenizerLoop.
Import Tokenizer.
Local Open Scope list_scope.

(** ** The loop of the tokenizer *)

Lemma takeWhile_length (pred : ascii -> bool) (cs : list ascii) :
  length (takeWhile pred cs) <= length cs.
Proof.
  induction cs as [|c cs IH]; simpl; [lia|]. destruct (pred c); simpl; lia.
Qed.

Lemma lexemeToken_more (ty : TokenType.t) (c : ascii) (more : list ascii)
    (p : pos) :
  (lexemeToken ty c more p).1.2 = length more.
Proof. reflexivity. Qed.

Lemma oneOrTwo_more (c : ascii) (rest : list ascii) (p : pos)
    (two one : TokenType.t) :
  (oneOrTwo c rest p two one).1.2 <= length rest.
Proof.
  unfold oneOrTwo. destruct rest as [|d rest]; simpl; [lia|].
  destruct (Ascii.eqb d "="); simpl; lia.
Qed.

Lemma string_more (quote : ascii) (rest : list ascii) (p : pos) :
  (string_ quote rest p).1.2 <= length rest.
Proof.
  unfold string_.
  pose proof (takeWhile_length (fun d => negb (Ascii.eqb d quote)) rest) as Hbody.
  case_bool_decide; simpl; lia.
Qed.

Lemma number_more (c : ascii) (rest : list ascii) (p : pos) :
  (number c rest p).1.2 <= length rest.
Proof.
  unfold number. pose proof (takeWhile_length isDigit rest) as Hwhole.
  destruct (drop (length (takeWhile isDigit rest)) rest) as [|dot [|d after]]
    eqn:Hdrop; simpl; try lia.
  destruct (Ascii.eqb dot "." && isDigit d); simpl; [|lia].
  pose proof (takeWhile_length isDigit after) as Hfraction.
  apply (f_equal length) in Hdrop. rewrite length_drop in Hdrop. simpl in Hdrop.
  rewrite length_app. simpl. destruct (isDigit d); simpl; lia.
Qed.

(** [scanToken()] consumes characters of the source only. *)
Lemma scanToken_more (c : ascii) (rest : list ascii) (p : pos) :
  (scanToken c rest p).1.2 <= length rest.
Proof.
  unfold scanToken, identifier.
  repeat (match goal with
          | |- context [if ?b then _ else _] => destruct b
          end;
          try (rewrite lexemeToken_more; simpl; first [lia|apply takeWhile_length]);
          try apply oneOrTwo_more; try apply string_more; try apply number_more;
          try (simpl; lia)).
  destruct rest as [|d after]; [simpl; lia|].
  destruct (Ascii.eqb d "/"); simpl; [|lia].
  pose proof (takeWhile_length (fun x => negb (Ascii.eqb x newline)) after). lia.
Qed.

Lemma scan_skip (cs : list ascii) (skip : nat) (p : pos) :
  skip <= length cs -> scan cs skip p = scan (drop skip cs) 0 p.
Proof.
  revert skip. induction cs as [|c cs IH]; intros [|skip] Hskip;
    simpl in *; try reflexivity; try lia.
  apply IH. lia.
Qed.

(** The loop of [tokenize()]: one call of [scanToken()] at the cursor, and
    the loop again where that call stopped. *)
Theorem scan_loop (c : ascii) (rest : list ascii) (p : pos) :
  scan (c :: rest) 0 p
  = match scanToken c rest p with
    | (Some t, more, p') => t :: scan (drop more rest) 0 p'
    | (None, more, p') => scan (drop more rest) 0 p'
    end.
Proof.
  pose proof (scanToken_more c rest p) as Hmore. simpl.
  destruct (scanToken c rest p) as [[[t|] more] p']; simpl in Hmore;
    now rewrite scan_skip.
Qed.

(** A token array ends with its [EOF] token. *)
Lemma scan_ends_with_EOF (cs : list ascii) (skip : nat) (p : pos) :
  exists front eof,
    scan cs skip p = front ++ [eof] /\ type eof = TokenType.EOF.
Proof.
  revert skip p. induction cs as [|c cs IH]; intros skip p; simpl.
  - now exists [], {| type := TokenType.EOF; value_ := ""; line := p.1;
                      column := p.2 |}.
  - destruct skip as [|skip]; [|apply IH].
    destruct (scanToken c cs p) as [[[t|] more] p'].
    + destruct (IH more p') as (front & eof & -> & Heof).
      now exists (t :: front), eof.
    + apply IH.
Qed.

Lemma tokenize_ends_with_EOF (source : string) :
  exists front eof,
    tokenize source = front ++ [eof] /\ type eof = TokenType.EOF.
Proof. apply scan_ends_with_EOF. Qed.

End TokenizerLoop.

Section ParserFuel.
Context `{JSHost}.
Import Parser.
Local Open Scope list_scope.

(** ** The parser never runs out of fuel *)

Lemma sound_le {A} (n n' : nat) (r : result (A * list Token)) :
  sound n r -> n <= n' -> sound n' r.
Proof. destruct r as [[x ts]|e]; simpl; [lia|auto]. Qed.

Lemma sound_bind {A B} (n n' : nat) (m : result (A * list Token))
    (k : A * list Token -> result (B * list Token)) :
  sound n m ->
  (forall x ts, length ts <= n -> sound n' (k (x, ts))) ->
  sound n' (bind m k).
Proof. destruct m as [[x ts]|e]; simpl; auto. Qed.

Lemma sound_throw {A} (n : nat) (ts : list Token) (message : string) :
  sound (A := A) n (syntaxError ts message).
Proof. simpl. discriminate. Qed.

Lemma isAtEnd_false (ts : list Token) :
  isAtEnd ts = false -> S (length (advance ts)) = length ts.
Proof.
  unfold advance. intros Hend. rewrite Hend.
  destruct ts; [discriminate Hend|reflexivity].
Qed.

Lemma check_true (ty : TokenType.t) (ts : list Token) :
  check ty ts = true -> S (length (advance ts)) = length ts.
Proof.
  unfold check. destruct (isAtEnd ts) eqn:Hend; [discriminate|].
  intros _. now apply isAtEnd_false.
Qed.

Lemma advance_le (ts : list Token) : length (advance ts) <= length ts.
Proof. unfold advance. destruct (isAtEnd ts), ts; simpl; lia. Qed.

Lemma match_some (ty : TokenType.t) (ts ts' : list Token) :
  match_ ty ts = Some ts' -> S (length ts') = length ts.
Proof.
  unfold match_. destruct (check ty ts) eqn:Hcheck; [|discriminate].
  intros [= <-]. now apply (check_true ty).
Qed.

Lemma consume_sound (ty : TokenType.t) (message : string) (ts : list Token) :
  sound (length ts - 1) (consume ty message ts).
Proof.
  unfold consume. destruct (check ty ts) eqn:Hcheck; [|apply sound_throw].
  simpl. apply check_true in Hcheck. lia.
Qed.

Lemma parseFieldList_loop_sound (fuel : nat) (ts : list Token) :
  length ts < fuel -> sound (length ts - 1) (parseFieldList_loop fuel ts).
Proof.
  revert ts. induction fuel as [|fuel IH]; intros ts Hfuel; [lia|]. simpl.
  apply (sound_bind (length ts - 1)); [apply consume_sound|].
  intros tok ts1 Hts1.
  destruct (match_ TokenType.COMMA ts1) as [ts2|] eqn:Hcomma; [|simpl; lia].
  apply match_some in Hcomma.
  apply (sound_bind (length ts2 - 1)); [apply IH; lia|].
  intros more ts3 Hts3. simpl. lia.
Qed.

Lemma parseFieldList_sound (fuel : nat) (ts : list Token) :
  length ts < fuel -> sound (length ts) (parseFieldList fuel ts).
Proof.
  intros Hfuel. unfold parseFieldList.
  destruct (check TokenType.RIGHT_BRACKET ts); [simpl; lia|].
  eapply sound_le; [now apply parseFieldList_loop_sound|lia].
Qed.

Lemma parseUsePath_loop_sound (fuel : nat) (xs : list string) (ts : list Token) :
  length ts < fuel -> sound (length ts) (parseUsePath_loop fuel xs ts).
Proof.
  revert xs ts. induction fuel as [|fuel IH]; intros xs ts Hfuel; [lia|]. simpl.
  destruct (match_ TokenType.DOT ts) as [ts1|] eqn:Hdot; [|simpl; lia].
  apply match_some in Hdot. pose proof (advance_le ts1) as Hadvance.
  destruct (check TokenType.LEFT_BRACKET ts1).
  - apply (sound_bind (length (advance ts1)));
      [apply parseFieldList_sound; lia|].
    intros fs ts2 Hts2.
    apply (sound_bind (length ts2 - 1)); [apply consume_sound|].
    intros rb ts3 Hts3. simpl. lia.
  - destruct (check TokenType.IDENTIFIER ts1); [|apply sound_throw].
    eapply sound_le; [apply IH; lia|lia].
Qed.

Lemma parseUsePath_sound (fuel : nat) (ts : list Token) :
  length ts < fuel -> sound (length ts) (parseUsePath fuel ts).
Proof.
  intros Hfuel. unfold parseUsePath.
  apply (sound_bind (length ts - 1)).
  { destruct (check TokenType.IDENTIFIER ts);
      [apply consume_sound|apply sound_throw]. }
  intros first ts1 Hts1.
  apply (sound_bind (length ts1)); [apply parseUsePath_loop_sound; lia|].
  intros [xs fs] ts2 Hts2. simpl. lia.
Qed.

Lemma parseValue_sound (ts : list Token) : sound (length ts) (parseValue ts).
Proof.
  unfold parseValue. pose proof (advance_le ts).
  repeat (match goal with
          | |- sound _ (if ?c then _ else _) => destruct c
          end; try (simpl; lia)).
  apply sound_throw.
Qed.

Lemma parseComparisonOperator_sound (ts : list Token) :
  sound (length ts) (parseComparisonOperator ts).
Proof.
  unfold parseComparisonOperator. pose proof (advance_le ts).
  repeat (match goal with
          | |- sound _ (if ?c then _ else _) => destruct c
          end; try (simpl; lia)).
  apply sound_throw.
Qed.

Lemma parseCondition_sound (fuel : nat) :
  forall ts,
    (6 * length ts + 5 <= fuel -> sound (length ts) (parseCondition fuel ts))
    /\ (6 * length ts + 4 <= fuel -> sound (length ts) (parseLogicalOr fuel ts))
    /\ (forall expr, 6 * length ts + 3 <= fuel ->
                     sound (length ts) (parseLogicalOr_loop fuel expr ts))
    /\ (6 * length ts + 3 <= fuel -> sound (length ts) (parseLogicalAnd fuel ts))
    /\ (forall expr, 6 * length ts + 2 <= fuel ->
                     sound (length ts) (parseLogicalAnd_loop fuel expr ts))
    /\ (6 * length ts + 2 <= fuel -> sound (length ts) (parseUnary fuel ts))
    /\ (6 * length ts + 1 <= fuel -> sound (length ts) (parsePrimary fuel ts)).
Proof.
  induction fuel as [|fuel IH]; intros ts; [repeat split; intros; lia|].
  repeat split.
  - intros Hfuel. simpl. apply (IH ts). lia.
  - intros Hfuel. simpl.
    apply (sound_bind (length ts)); [apply (IH ts); lia|].
    intros expr ts1 Hts1. eapply sound_le; [apply (IH ts1); lia|lia].
  - intros expr Hfuel. simpl.
    destruct (match_ TokenType.PIPE ts) as [ts1|] eqn:Hpipe; [|simpl; lia].
    apply match_some in Hpipe.
    apply (sound_bind (length ts1)); [apply (IH ts1); lia|].
    intros rhs ts2 Hts2. eapply sound_le; [apply (IH ts2); lia|lia].
  - intros Hfuel. simpl.
    apply (sound_bind (length ts)); [apply (IH ts); lia|].
    intros expr ts1 Hts1. eapply sound_le; [apply (IH ts1); lia|lia].
  - intros expr Hfuel. simpl.
    destruct (match_ TokenType.AMPERSAND ts) as [ts1|] eqn:Hamp; [|simpl; lia].
    apply match_some in Hamp.
    apply (sound_bind (length ts1)); [apply (IH ts1); lia|].
    intros rhs ts2 Hts2. eapply sound_le; [apply (IH ts2); lia|lia].
  - intros Hfuel. simpl.
    destruct (match_ TokenType.NOT ts) as [ts1|] eqn:Hnot.
    + apply match_some in Hnot.
      apply (sound_bind (length ts1)); [apply (IH ts1); lia|].
      intros condition ts2 Hts2. simpl. lia.
    + apply (IH ts). lia.
  - intros Hfuel. simpl.
    destruct (match_ TokenType.LEFT_PAREN ts) as [ts1|] eqn:Hparen.
    + apply match_some in Hparen.
      apply (sound_bind (length ts1)); [apply (IH ts1); lia|].
      intros expr ts2 Hts2.
      apply (sound_bind (length ts2 - 1)); [apply consume_sound|].
      intros rp ts3 Hts3. simpl. lia.
    + apply (sound_bind (length ts - 1)); [apply consume_sound|].
      intros fieldTok ts1 Hts1.
      apply (sound_bind (length ts1)); [apply parseComparisonOperator_sound|].
      intros operator ts2 Hts2.
      apply (sound_bind (length ts2)); [apply parseValue_sound|].
      intros v ts3 Hts3. simpl. lia.
Qed.

Lemma parseWhere_sound (fuel : nat) (ts : list Token) :
  6 * length ts + 5 <= fuel -> sound (length ts) (parseWhere fuel ts).
Proof.
  intros Hfuel. unfold parseWhere.
  destruct (match_ TokenType.WHERE ts) as [ts1|] eqn:Hwhere; [|simpl; lia].
  apply match_some in Hwhere.
  apply (sound_bind (length ts1 - 1)); [apply consume_sound|].
  intros lp ts2 Hts2.
  apply (sound_bind (length ts2)); [apply (parseCondition_sound fuel ts2); lia|].
  intros c ts3 Hts3.
  apply (sound_bind (length ts3 - 1)); [apply consume_sound|].
  intros rp ts4 Hts4. simpl. lia.
Qed.

Lemma parseSelectOperation_sound (fuel : nat) (ts : list Token) :
  6 * length ts + 5 <= fuel -> sound (length ts) (parseSelectOperation fuel ts).
Proof.
  intros Hfuel. unfold parseSelectOperation.
  destruct (match_ TokenType.EACH ts) as [ts0|] eqn:Heach.
  - apply match_some in Heach.
    apply (sound_bind (length ts0)).
    + destruct (match_ TokenType.ASTERISK ts0) as [ts1|] eqn:Hstar.
      { apply match_some in Hstar. simpl. lia. }
      destruct (match_ TokenType.LEFT_BRACKET ts0) as [ts1|] eqn:Hbracket.
      { apply match_some in Hbracket.
        apply (sound_bind (length ts1)); [apply parseFieldList_sound; lia|].
        intros l ts2 Hts2.
        apply (sound_bind (length ts2 - 1)); [apply consume_sound|].
        intros rb ts3 Hts3. simpl. lia. }
      pose proof (advance_le ts0).
      destruct (check TokenType.IDENTIFIER ts0); simpl; lia.
    + intros fs ts1 Hts1.
      apply (sound_bind (length ts1)); [apply parseWhere_sound; lia|].
      intros c ts2 Hts2. simpl. lia.
  - apply (sound_bind (length ts)).
    + destruct (match_ TokenType.ASTERISK ts) as [ts1|] eqn:Hstar.
      { apply match_some in Hstar. simpl. lia. }
      destruct (match_ TokenType.LEFT_BRACKET ts) as [ts1|] eqn:Hbracket.
      { apply match_some in Hbracket.
        apply (sound_bind (length ts1)); [apply parseFieldList_sound; lia|].
        intros l ts2 Hts2.
        apply (sound_bind (length ts2 - 1)); [apply consume_sound|].
        intros rb ts3 Hts3. simpl. lia. }
      pose proof (advance_le ts).
      destruct (check TokenType.IDENTIFIER ts); simpl; lia.
    + intros fs ts1 Hts1.
      apply (sound_bind (length ts1)); [apply parseWhere_sound; lia|].
      intros c ts2 Hts2. simpl. lia.
Qed.

Lemma parseStarSelect_sound (fuel : nat) (ts : list Token) :
  6 * length ts + 5 <= fuel -> sound (length ts) (parseStarSelect fuel ts).
Proof.
  intros Hfuel. unfold parseStarSelect. pose proof (advance_le ts).
  apply (sound_bind (length (advance ts))); [apply parseWhere_sound; lia|].
  intros c ts1 Hts1. simpl. lia.
Qed.

Lemma parsePercentOfOperand_sound (fuel : nat) (ts : list Token) :
  6 * length ts + 5 <= fuel -> sound (length ts) (parsePercentOfOperand fuel ts).
Proof.
  intros Hfuel. unfold parsePercentOfOperand.
  destruct (check TokenType.SELECT ts);
    [now apply parseStarSelect_sound|now apply parseSelectOperation_sound].
Qed.

Lemma parseCountOperation_sound (fuel : nat) (ts : list Token) :
  6 * length ts + 5 <= fuel -> sound (length ts) (parseCountOperation fuel ts).
Proof.
  intros Hfuel. unfold parseCountOperation.
  destruct (check TokenType.SELECT ts).
  - apply (sound_bind (length ts)); [now apply parseStarSelect_sound|].
    intros s ts1 Hts1. simpl. lia.
  - apply (sound_bind (length ts)); [now apply parseSelectOperation_sound|].
    intros s ts1 Hts1. simpl. lia.
Qed.

Lemma parsePercentOfOperation_sound (fuel : nat) (ts : list Token) :
  6 * length ts + 5 <= fuel -> sound (length ts) (parsePercentOfOperation fuel ts).
Proof.
  intros Hfuel. unfold parsePercentOfOperation.
  apply (sound_bind (length ts)); [now apply parsePercentOfOperand_sound|].
  intros numerator ts1 Hts1.
  set (ts2 := if commaThenSelect ts
              then default ts1 (match_ TokenType.COMMA ts1) else ts1).
  assert (Hts2 : length ts2 <= length ts1).
  { unfold ts2. destruct (commaThenSelect ts); [|lia].
    destruct (match_ TokenType.COMMA ts1) as [ts'|] eqn:Hcomma; simpl; [|lia].
    apply match_some in Hcomma. lia. }
  apply (sound_bind (length ts2)); [apply parsePercentOfOperand_sound; lia|].
  intros denominator ts3 Hts3. simpl. lia.
Qed.

Lemma parseTwoVariables_sound (first second : string) (ts : list Token) :
  sound (length ts) (parseTwoVariables first second ts).
Proof.
  unfold parseTwoVariables.
  apply (sound_bind (length ts - 1)); [apply consume_sound|].
  intros a ts1 Hts1.
  apply (sound_bind (length ts1 - 1)); [apply consume_sound|].
  intros b ts2 Hts2. simpl. lia.
Qed.

Lemma parseArithmetic_sound (ts : list Token) :
  sound (length ts) (parseDivideOperation ts)
  /\ sound (length ts) (parseMultiplyOperation ts)
  /\ sound (length ts) (parseSubtractOperation ts).
Proof.
  unfold parseDivideOperation, parseMultiplyOperation, parseSubtractOperation.
  repeat split;
    (apply (sound_bind (length ts)); [apply parseTwoVariables_sound|];
     intros [a b] ts1 Hts1; simpl; lia).
Qed.

Lemma parseVariableAssignment_sound (fuel : nat) (ts : list Token) :
  6 * length ts + 5 <= fuel ->
  sound (length ts - 1) (parseVariableAssignment fuel ts).
Proof.
  intros Hfuel. unfold parseVariableAssignment.
  apply (sound_bind (length ts - 1)); [apply consume_sound|].
  intros var ts1 Hts1. pose proof (advance_le ts1) as Hadvance.
  apply (sound_bind (length ts1)).
  - repeat (match goal with
            | |- sound _ (if ?c then _ else _) => destruct c
            end; try (simpl; lia)).
    + eapply sound_le; [apply parseCountOperation_sound; lia|lia].
    + apply (sound_bind (length (advance ts1)));
        [apply parseSelectOperation_sound; lia|].
      intros s ts' Hts'. simpl. lia.
    + apply sound_throw.
  - intros operation ts3 Hts3. simpl. lia.
Qed.

(** One turn of the loop of a query block consumes a token. *)
Lemma parseOperation_sound (fuel : nat) (ts : list Token) :
  6 * length ts + 5 <= fuel -> isAtEnd ts = false ->
  sound (length ts - 1) (parseOperation fuel ts).
Proof.
  intros Hfuel Hend. unfold parseOperation.
  apply isAtEnd_false in Hend.
  destruct (parseArithmetic_sound (advance ts)) as (Hdivide & Hmultiply & Hsubtract).
  repeat (match goal with
          | |- sound _ (if ?c then _ else _) => destruct c
          end; try (simpl; lia)).
  - apply (sound_bind (length ts - 1));
      [now apply parseVariableAssignment_sound|].
    intros op ts' Hts'. simpl. lia.
  - apply (sound_bind (length (advance ts)));
      [apply parseSelectOperation_sound; lia|].
    intros s ts' Hts'. simpl. lia.
  - apply (sound_bind (length (advance ts)));
      [apply parseCountOperation_sound; lia|].
    intros op ts' Hts'. simpl. lia.
  - apply (sound_bind (length (advance ts)));
      [apply parsePercentOfOperation_sound; lia|].
    intros op ts' Hts'. simpl. lia.
  - apply (sound_bind (length (advance ts))); [assumption|].
    intros op ts' Hts'. simpl. lia.
  - apply (sound_bind (length (advance ts))); [assumption|].
    intros op ts' Hts'. simpl. lia.
  - apply (sound_bind (length (advance ts))); [assumption|].
    intros op ts' Hts'. simpl. lia.
Qed.

Lemma parseQueryBlock_loop_sound (fuel : nat) (ops : list OperationNode)
    (ts : list Token) :
  6 * length ts + 6 <= fuel -> sound (length ts) (parseQueryBlock_loop fuel ops ts).
Proof.
  revert ops ts. induction fuel as [|fuel IH]; intros ops ts Hfuel; [lia|]. simpl.
  destruct (isAtEnd ts) eqn:Hend.
  { rewrite andb_false_r. simpl. lia. }
  destruct (negb (check TokenType.RETURN ts) && negb (check TokenType.QUERY ts));
    simpl; [|lia].
  apply (sound_bind (length ts - 1)); [apply parseOperation_sound; [lia|assumption]|].
  intros op ts1 Hts1. apply isAtEnd_false in Hend.
  eapply sound_le; [apply IH; lia|lia].
Qed.

Lemma parseQueryBlock_sound (fuel : nat) (ts : list Token) :
  6 * length ts + 6 <= fuel -> sound (length ts) (parseQueryBlock fuel ts).
Proof.
  intros Hfuel. unfold parseQueryBlock.
  apply (sound_bind (length ts - 1)); [apply consume_sound|].
  intros nameTok ts1 Hts1.
  apply (sound_bind (length ts1)); [apply parseQueryBlock_loop_sound; lia|].
  intros ops ts2 Hts2.
  apply (sound_bind (length ts2 - 1)); [apply consume_sound|].
  intros ret ts3 Hts3. simpl. lia.
Qed.

Lemma parse_loop_fuel (fuel : nat) (program : ProgramNode) (ts : list Token) :
  6 * length ts + 7 <= fuel -> parse_loop fuel program ts <> Throw OutOfFuel.
Proof.
  revert program ts. induction fuel as [|fuel IH]; intros program ts Hfuel; [lia|].
  simpl. destruct (isAtEnd ts) eqn:Hend; [discriminate|].
  apply isAtEnd_false in Hend.
  destruct (check TokenType.COMMENT ts); [apply IH; lia|].
  destruct (check TokenType.USE ts).
  { pose proof (parseUsePath_sound fuel (advance ts)) as Hsound.
    destruct (parseUsePath fuel (advance ts)) as [[u ts1]|e]; simpl in *.
    - apply IH. assert (length ts1 <= length (advance ts)) by (apply Hsound; lia).
      lia.
    - intros [= ->]. apply Hsound; [lia|reflexivity]. }
  destruct (check TokenType.QUERY ts); [|apply IH; lia].
  pose proof (parseQueryBlock_sound fuel (advance ts)) as Hsound.
  destruct (parseQueryBlock fuel (advance ts)) as [[q ts1]|e]; simpl in *.
  - apply IH. assert (length ts1 <= length (advance ts)) by (apply Hsound; lia).
    lia.
  - intros [= ->]. apply Hsound; [lia|reflexivity].
Qed.

(** The fuel of [parse] is enough for every token array: a failure of
    [parse] is an error the parser throws. *)
Theorem parse_fuel_suffices (tokens : list Token) :
  parse tokens <> Throw OutOfFuel.
Proof. unfold parse. apply parse_loop_fuel. unfold fuelFor. lia. Qed.

Corollary createQuery_fuel_suffices (queryText : string) :
  SSOQL.createQuery queryText <> Throw OutOfFuel.
Proof.
  unfold SSOQL.createQuery, SSOQL.parseQuery.
  pose proof (parse_fuel_suffices (Tokenizer.tokenize queryText)) as Hparse.
  destruct (parse (Tokenizer.tokenize queryText)); simpl; congruence.
Qed.

End ParserFuel.

Section UsePaths.
Context `{JSHost}.
Import Parser.
Local Open Scope list_scope.

(** ** The token under the cursor *)

Lemma TokenType_eqb_eq (a b : TokenType.t) : TokenType.eqb a b = true -> a = b.
Proof.
  intros Heq. apply Pos.eqb_eq in Heq.
  destruct a; destruct b; first [reflexivity | discriminate Heq].
Qed.

Lemma TokenType_eqb_neq (a b : TokenType.t) : a <> b -> TokenType.eqb a b = false.
Proof.
  intros Hneq. destruct (TokenType.eqb a b) eqn:Heq; [|reflexivity].
  now apply TokenType_eqb_eq in Heq.
Qed.

Lemma isAtEnd_head (t : Token) (ts : list Token) :
  type t <> TokenType.EOF -> isAtEnd (t :: ts) = false.
Proof. intros Ht. unfold isAtEnd. simpl. now apply TokenType_eqb_neq. Qed.

Lemma check_head (ty : TokenType.t) (t : Token) (ts : list Token) :
  type t <> TokenType.EOF -> check ty (t :: ts) = TokenType.eqb (type t) ty.
Proof. intros Ht. unfold check. now rewrite isAtEnd_head. Qed.

Lemma advance_head (t : Token) (ts : list Token) :
  type t <> TokenType.EOF -> advance (t :: ts) = ts.
Proof. intros Ht. unfold advance. now rewrite isAtEnd_head. Qed.

(** Rewriting with the type of the token under the cursor. *)
Ltac cursor Htype :=
  rewrite ?check_head, ?advance_head, ?isAtEnd_head by (rewrite Htype; discriminate);
  rewrite ?Htype; simpl.

End UsePaths.

Section Declarations.
Context `{JSHost}.
Import Parser.
Local Open Scope list_scope.

(** ** The paths of the USE declarations *)

Lemma check_true_inv (ty : TokenType.t) (ts : list Token) :
  check ty ts = true ->
  exists t ts', ts = t :: ts' /\ type t = ty /\ type t <> TokenType.EOF
                /\ advance ts = ts'.
Proof.
  unfold check, advance. destruct (isAtEnd ts) eqn:Hend; [discriminate|].
  intros Hty. apply TokenType_eqb_eq in Hty.
  destruct ts as [|t ts']; [discriminate Hend|].
  exists t, ts'. repeat split; try assumption.
  intros Heof. unfold isAtEnd in Hend. simpl in Hend.
  rewrite Heof in Hend. discriminate Hend.
Qed.

Lemma consumes_ok {A} (allowed : TokenType.t -> bool) (ts : list Token) (x : A) :
  consumes allowed ts (Ok (x, ts)).
Proof. now exists []. Qed.

Lemma consumes_token {A} (allowed : TokenType.t -> bool) (t : Token)
    (ts : list Token) (r : result (A * list Token)) :
  allowed (type t) = true -> consumes allowed ts r -> consumes allowed (t :: ts) r.
Proof.
  intros Ht. destruct r as [[x ts']|e]; simpl; [|auto].
  intros (pre & -> & Hpre). exists (t :: pre). split; [reflexivity|].
  now constructor.
Qed.

Lemma consumes_bind {A B} (allowed : TokenType.t -> bool) (ts : list Token)
    (m : result (A * list Token)) (k : A * list Token -> result (B * list Token)) :
  consumes allowed ts m ->
  (forall x ts1, consumes allowed ts1 (k (x, ts1))) ->
  consumes allowed ts (bind m k).
Proof.
  destruct m as [[x ts1]|e]; simpl; [|auto].
  intros (pre & -> & Hpre) Hk. specialize (Hk x ts1).
  destruct (k (x, ts1)) as [[y ts2]|e]; simpl in *; [|auto].
  destruct Hk as (pre' & -> & Hpre'). exists (pre ++ pre').
  split; [now rewrite app_assoc|]. now apply Forall_app.
Qed.

(** The cursor moves past a token of the type [ty] that was checked. *)
Lemma consumes_advance {A} (allowed : TokenType.t -> bool) (ty : TokenType.t)
    (ts : list Token) (r : result (A * list Token)) :
  check ty ts = true -> allowed ty = true ->
  consumes allowed (advance ts) r -> consumes allowed ts r.
Proof.
  intros Hcheck Hty. apply check_true_inv in Hcheck as (t & ts' & -> & <- & _ & ->).
  now apply consumes_token.
Qed.

Lemma consumes_match {A} (allowed : TokenType.t -> bool) (ty : TokenType.t)
    (ts ts1 : list Token) (r : result (A * list Token)) :
  match_ ty ts = Some ts1 -> allowed ty = true ->
  consumes allowed ts1 r -> consumes allowed ts r.
Proof.
  unfold match_. destruct (check ty ts) eqn:Hcheck; [|discriminate].
  intros [= <-] Hty Hr. eapply consumes_advance; eassumption.
Qed.

Lemma consumes_consume (allowed : TokenType.t -> bool) (ty : TokenType.t)
    (message : string) (ts : list Token) :
  allowed ty = true -> consumes allowed ts (consume ty message ts).
Proof.
  intros Hty. unfold consume. destruct (check ty ts) eqn:Hcheck; [|exact I].
  eapply consumes_advance; [eassumption|assumption|]. apply consumes_ok.
Qed.

Lemma parseFieldList_loop_consumes (allowed : TokenType.t -> bool)
    (fuel : nat) (ts : list Token) :
  allowed TokenType.IDENTIFIER = true -> allowed TokenType.COMMA = true ->
  consumes allowed ts (parseFieldList_loop fuel ts).
Proof.
  intros Hid Hcomma. revert ts.
  induction fuel as [|fuel IH]; intros ts; [exact I|]. simpl.
  apply consumes_bind; [now apply consumes_consume|].
  intros tok ts1.
  destruct (match_ TokenType.COMMA ts1) as [ts2|] eqn:Hmatch;
    [|apply consumes_ok].
  apply (consumes_match _ _ _ _ _ Hmatch Hcomma).
  apply consumes_bind; [apply IH|]. intros more ts3. apply consumes_ok.
Qed.

Lemma parseFieldList_consumes (allowed : TokenType.t -> bool)
    (fuel : nat) (ts : list Token) :
  allowed TokenType.IDENTIFIER = true -> allowed TokenType.COMMA = true ->
  consumes allowed ts (parseFieldList fuel ts).
Proof.
  intros Hid Hcomma. unfold parseFieldList.
  destruct (check TokenType.RIGHT_BRACKET ts);
    [apply consumes_ok|now apply parseFieldList_loop_consumes].
Qed.

Lemma dottedIdentifiers_end (ts : list Token) :
  check TokenType.DOT ts = false -> dottedIdentifiers ts = [].
Proof.
  destruct ts as [|dot [|t ts']]; try reflexivity. simpl.
  unfold check, isAtEnd. simpl.
  destruct (TokenType.eqb (type dot) TokenType.EOF) eqn:Heof.
  - apply TokenType_eqb_eq in Heof. now rewrite Heof.
  - now intros ->.
Qed.

(** The loop of [parseUsePath]: the identifiers it appends are those of the
    dotted path under the cursor, and it consumes the tokens of the
    declaration only. *)
Lemma parseUsePath_loop_declared (fuel : nat) :
  forall pathComponents ts,
    match parseUsePath_loop fuel pathComponents ts with
    | Ok ((pathComponents', _), ts') =>
        pathComponents' = pathComponents ++ dottedIdentifiers ts
        /\ exists pre,
             ts = pre ++ ts'
             /\ Forall (fun t => outsideBlock (type t) = true) pre
    | Throw _ => True
    end.
Proof.
  induction fuel as [|fuel IH]; intros pathComponents ts; [exact I|]. simpl.
  destruct (match_ TokenType.DOT ts) as [ts1|] eqn:Hdot.
  - unfold match_ in Hdot.
    destruct (check TokenType.DOT ts) eqn:Hcheck; [|discriminate].
    injection Hdot as <-.
    apply check_true_inv in Hcheck as (dot & ts1 & -> & Hdot & _ & ->).
    destruct (check TokenType.LEFT_BRACKET ts1) eqn:Hbracket.
    + apply check_true_inv in Hbracket as (lb & ts2 & -> & Hlb & _ & ->).
      pose proof (parseFieldList_consumes outsideBlock fuel ts2 eq_refl eq_refl)
        as Hfields.
      destruct (parseFieldList fuel ts2) as [[fs ts3]|]; simpl; [|exact I].
      destruct Hfields as (pre & -> & Hpre).
      pose proof (consumes_consume outsideBlock TokenType.RIGHT_BRACKET
                    "Expected closing ']' after fields" ts3 eq_refl) as Hclose.
      destruct (consume _ _ ts3) as [[rb ts4]|]; simpl; [|exact I].
      destruct Hclose as (pre' & -> & Hpre'). split.
      * simpl. rewrite Hdot, Hlb. simpl. now rewrite app_nil_r.
      * exists (dot :: lb :: pre ++ pre'). split.
        -- simpl. now rewrite <- app_assoc.
        -- constructor; [now rewrite Hdot|]. constructor; [now rewrite Hlb|].
           now apply Forall_app.
    + destruct (check TokenType.IDENTIFIER ts1) eqn:Hid; [|exact I].
      apply check_true_inv in Hid as (t & ts2 & -> & Ht & _ & ->).
      specialize (IH (pathComponents ++ [value_ (peek (t :: ts2))]) ts2).
      destruct (parseUsePath_loop fuel _ ts2) as [[[xs fs] ts3]|]; [|exact I].
      destruct IH as (-> & pre & -> & Hpre). split.
      * simpl. rewrite Hdot, Ht. simpl. now rewrite <- app_assoc.
      * exists (dot :: t :: pre). split; [reflexivity|].
        constructor; [now rewrite Hdot|]. constructor; [now rewrite Ht|].
        assumption.
  - split.
    + unfold match_ in Hdot.
      destruct (check TokenType.DOT ts) eqn:Hcheck; [discriminate|].
      now rewrite dottedIdentifiers_end, app_nil_r.
    + now exists [].
Qed.

Lemma parseUsePath_declared (fuel : nat) (ts ts' : list Token) (u : UsePathNode) :
  parseUsePath fuel ts = Ok (u, ts') ->
  path u = declaredPath ts
  /\ exists pre,
       ts = pre ++ ts' /\ Forall (fun t => outsideBlock (type t) = true) pre.
Proof.
  unfold parseUsePath.
  destruct (check TokenType.IDENTIFIER ts) eqn:Hid; [|discriminate].
  unfold consume. rewrite Hid. simpl.
  apply check_true_inv in Hid as (t & ts1 & -> & Ht & _ & ->).
  pose proof (parseUsePath_loop_declared fuel [value_ (peek (t :: ts1))] ts1)
    as Hloop.
  destruct (parseUsePath_loop fuel _ ts1) as [[[xs fs] ts2]|]; simpl;
    [|discriminate].
  destruct Hloop as (-> & pre & -> & Hpre).
  intros [= <- <-]. split; [reflexivity|].
  exists (t :: pre). split; [reflexivity|].
  constructor; [now rewrite Ht|assumption].
Qed.

(** *** Query blocks *)

Lemma parseValue_consumes (ts : list Token) :
  consumes insideBlock ts (parseValue ts).
Proof.
  unfold parseValue.
  repeat match goal with
         | |- consumes _ _ (if ?c then _ else _) =>
             let Hc := fresh "Hc" in destruct c eqn:Hc
         end;
    try exact I; (eapply consumes_advance; [eassumption|reflexivity|]);
    apply consumes_ok.
Qed.

Lemma parseComparisonOperator_consumes (ts : list Token) :
  consumes insideBlock ts (parseComparisonOperator ts).
Proof.
  unfold parseComparisonOperator.
  repeat match goal with
         | |- consumes _ _ (if ?c then _ else _) =>
             let Hc := fresh "Hc" in destruct c eqn:Hc
         end;
    try exact I; (eapply consumes_advance; [eassumption|reflexivity|]);
    apply consumes_ok.
Qed.

Lemma parseCondition_consumes (fuel : nat) :
  forall ts,
    consumes insideBlock ts (parseCondition fuel ts)
    /\ consumes insideBlock ts (parseLogicalOr fuel ts)
    /\ (forall expr, consumes insideBlock ts (parseLogicalOr_loop fuel expr ts))
    /\ consumes insideBlock ts (parseLogicalAnd fuel ts)
    /\ (forall expr, consumes insideBlock ts (parseLogicalAnd_loop fuel expr ts))
    /\ consumes insideBlock ts (parseUnary fuel ts)
    /\ consumes insideBlock ts (parsePrimary fuel ts).
Proof.
  induction fuel as [|fuel IH]; intros ts; [repeat split; intros; exact I|].
  repeat split.
  - simpl. apply IH.
  - simpl. apply consumes_bind; [apply IH|]. intros expr ts1. apply IH.
  - intros expr. simpl.
    destruct (match_ TokenType.PIPE ts) as [ts1|] eqn:Hmatch;
      [|apply consumes_ok].
    apply (consumes_match _ _ _ _ _ Hmatch eq_refl).
    apply consumes_bind; [apply IH|]. intros rhs ts2. apply IH.
  - simpl. apply consumes_bind; [apply IH|]. intros expr ts1. apply IH.
  - intros expr. simpl.
    destruct (match_ TokenType.AMPERSAND ts) as [ts1|] eqn:Hmatch;
      [|apply consumes_ok].
    apply (consumes_match _ _ _ _ _ Hmatch eq_refl).
    apply consumes_bind; [apply IH|]. intros rhs ts2. apply IH.
  - simpl.
    destruct (match_ TokenType.NOT ts) as [ts1|] eqn:Hmatch; [|apply IH].
    apply (consumes_match _ _ _ _ _ Hmatch eq_refl).
    apply consumes_bind; [apply IH|]. intros condition ts2. apply consumes_ok.
  - simpl.
    destruct (match_ TokenType.LEFT_PAREN ts) as [ts1|] eqn:Hmatch.
    + apply (consumes_match _ _ _ _ _ Hmatch eq_refl).
      apply consumes_bind; [apply IH|]. intros expr ts2.
      apply consumes_bind; [now apply consumes_consume|].
      intros rp ts3. apply consumes_ok.
    + apply consumes_bind; [now apply consumes_consume|].
      intros fieldTok ts1.
      apply consumes_bind; [apply parseComparisonOperator_consumes|].
      intros operator ts2.
      apply consumes_bind; [apply parseValue_consumes|].
      intros v ts3. apply consumes_ok.
Qed.

Lemma parseWhere_consumes (fuel : nat) (ts : list Token) :
  consumes insideBlock ts (parseWhere fuel ts).
Proof.
  unfold parseWhere.
  destruct (match_ TokenType.WHERE ts) as [ts1|] eqn:Hmatch;
    [|apply consumes_ok].
  apply (consumes_match _ _ _ _ _ Hmatch eq_refl).
  apply consumes_bind; [now apply consumes_consume|]. intros lp ts2.
  apply consumes_bind; [apply parseCondition_consumes|]. intros c ts3.
  apply consumes_bind; [now apply consumes_consume|]. intros rp ts4.
  apply consumes_ok.
Qed.

Lemma parseSelectOperation_consumes (fuel : nat) (ts : list Token) :
  consumes insideBlock ts (parseSelectOperation fuel ts).
Proof.
  unfold parseSelectOperation.
  assert (Hrest : forall each_ ts0,
            consumes insideBlock ts0
              (let* '(fs, ts1) :=
                 match match_ TokenType.ASTERISK ts0 with
                 | Some ts' => Ok (AllFields, ts')
                 | None =>
                     match match_ TokenType.LEFT_BRACKET ts0 with
                     | Some ts' =>
                         let* '(l, ts'') := parseFieldList fuel ts' in
                         let* '(_, ts''') :=
                           consume TokenType.RIGHT_BRACKET
                             "Expected closing ']' after fields" ts'' in
                         Ok (FieldList l, ts''')
                     | None =>
                         if check TokenType.IDENTIFIER ts0
                         then Ok (FieldList [value_ (peek ts0)], advance ts0)
                         else Ok (AllFields, ts0)
                     end
                 end in
               let* '(c, ts2) := parseWhere fuel ts1 in
               Ok ({| fields := fs; conditions := c; each := Some each_ |}, ts2))).
  { intros each_ ts0. apply consumes_bind.
    - destruct (match_ TokenType.ASTERISK ts0) as [ts1|] eqn:Hstar.
      { apply (consumes_match _ _ _ _ _ Hstar eq_refl). apply consumes_ok. }
      destruct (match_ TokenType.LEFT_BRACKET ts0) as [ts1|] eqn:Hbracket.
      { apply (consumes_match _ _ _ _ _ Hbracket eq_refl).
        apply consumes_bind; [now apply parseFieldList_consumes|].
        intros l ts2.
        apply consumes_bind; [now apply consumes_consume|].
        intros rb ts3. apply consumes_ok. }
      destruct (check TokenType.IDENTIFIER ts0) eqn:Hid; [|apply consumes_ok].
      apply (consumes_advance _ _ _ _ Hid eq_refl). apply consumes_ok.
    - intros fs ts1.
      apply consumes_bind; [apply parseWhere_consumes|].
      intros c ts2. apply consumes_ok. }
  destruct (match_ TokenType.EACH ts) as [ts0|] eqn:Heach.
  - apply (consumes_match _ _ _ _ _ Heach eq_refl). apply Hrest.
  - apply Hrest.
Qed.

Lemma parseStarSelect_consumes (fuel : nat) (ts : list Token) :
  check TokenType.SELECT ts = true ->
  consumes insideBlock ts (parseStarSelect fuel ts).
Proof.
  intros Hselect. unfold parseStarSelect.
  apply (consumes_advance _ _ _ _ Hselect eq_refl).
  apply consumes_bind; [apply parseWhere_consumes|].
  intros c ts1. apply consumes_ok.
Qed.

Lemma parsePercentOfOperand_consumes (fuel : nat) (ts : list Token) :
  consumes insideBlock ts (parsePercentOfOperand fuel ts).
Proof.
  unfold parsePercentOfOperand.
  destruct (check TokenType.SELECT ts) eqn:Hselect;
    [now apply parseStarSelect_consumes|apply parseSelectOperation_consumes].
Qed.

Lemma parseCountOperation_consumes (fuel : nat) (ts : list Token) :
  consumes insideBlock ts (parseCountOperation fuel ts).
Proof.
  unfold parseCountOperation.
  destruct (check TokenType.SELECT ts) eqn:Hselect.
  - apply consumes_bind; [now apply parseStarSelect_consumes|].
    intros s ts1. apply consumes_ok.
  - apply consumes_bind; [apply parseSelectOperation_consumes|].
    intros s ts1. apply consumes_ok.
Qed.

Lemma parsePercentOfOperation_consumes (fuel : nat) (ts : list Token) :
  consumes insideBlock ts (parsePercentOfOperation fuel ts).
Proof.
  unfold parsePercentOfOperation.
  apply consumes_bind; [apply parsePercentOfOperand_consumes|].
  intros numerator ts1. cbv zeta.
  assert (Hcomma : forall B (r : result (B * list Token)),
            consumes insideBlock
              (if commaThenSelect ts
               then default ts1 (match_ TokenType.COMMA ts1) else ts1) r ->
            consumes insideBlock ts1 r).
  { intros B r. destruct (commaThenSelect ts); [|auto].
    destruct (match_ TokenType.COMMA ts1) as [ts2|] eqn:Hmatch; [|auto].
    simpl. intros Hr. eapply consumes_match; [eassumption|reflexivity|exact Hr]. }
  apply Hcomma.
  apply consumes_bind; [apply parsePercentOfOperand_consumes|].
  intros denominator ts3. apply consumes_ok.
Qed.

Lemma parseTwoVariables_consumes (first second : string) (ts : list Token) :
  consumes insideBlock ts (parseTwoVariables first second ts).
Proof.
  unfold parseTwoVariables.
  apply consumes_bind; [now apply consumes_consume|]. intros a ts1.
  apply consumes_bind; [now apply consumes_consume|]. intros b ts2.
  apply consumes_ok.
Qed.

Lemma parseArithmetic_consumes (ts : list Token) :
  consumes insideBlock ts (parseDivideOperation ts)
  /\ consumes insideBlock ts (parseMultiplyOperation ts)
  /\ consumes insideBlock ts (parseSubtractOperation ts).
Proof.
  unfold parseDivideOperation, parseMultiplyOperation, parseSubtractOperation.
  repeat split;
    (apply consumes_bind; [apply parseTwoVariables_consumes|];
     intros [a b] ts1; apply consumes_ok).
Qed.

Lemma parseVariableAssignment_consumes (fuel : nat) (ts : list Token) :
  consumes insideBlock ts (parseVariableAssignment fuel ts).
Proof.
  unfold parseVariableAssignment.
  apply consumes_bind; [now apply consumes_consume|]. intros var ts1. cbv zeta.
  apply consumes_bind; [|intros operation ts3; apply consumes_ok].
  repeat match goal with
         | |- consumes _ _ (if ?c then _ else _) =>
             let Hc := fresh "Hc" in destruct c eqn:Hc
         end;
    try exact I;
    (eapply consumes_advance; [eassumption|reflexivity|]);
    try apply consumes_ok.
  - apply parseCountOperation_consumes.
  - apply consumes_bind; [apply parseSelectOperation_consumes|].
    intros s ts'. apply consumes_ok.
Qed.

(** One turn of the loop of [parseQueryBlock], entered at a token that is
    neither RETURN nor QUERY nor the end. *)
Lemma parseOperation_consumes (fuel : nat) (t : Token) (ts : list Token) :
  insideBlock (type t) = true ->
  consumes insideBlock (t :: ts) (parseOperation fuel (t :: ts)).
Proof.
  intros Ht.
  assert (Hadvance : advance (t :: ts) = ts).
  { unfold advance, isAtEnd. simpl.
    destruct (TokenType.eqb (type t) TokenType.EOF) eqn:Heof; [|reflexivity].
    apply TokenType_eqb_eq in Heof. now rewrite Heof in Ht. }
  assert (Hnext : forall A (r : result (A * list Token)),
            consumes insideBlock ts r -> consumes insideBlock (t :: ts) r).
  { intros A r. now apply consumes_token. }
  unfold parseOperation. cbv zeta. rewrite Hadvance.
  destruct (parseArithmetic_consumes ts) as (Hdivide & Hmultiply & Hsubtract).
  repeat match goal with
         | |- consumes _ _ (if ?c then _ else _) => destruct c
         end;
    try (apply Hnext; apply consumes_ok).
  - apply consumes_bind; [apply parseVariableAssignment_consumes|].
    intros op ts'. apply consumes_ok.
  - apply Hnext. apply consumes_bind; [apply parseSelectOperation_consumes|].
    intros s ts'. apply consumes_ok.
  - apply Hnext. apply consumes_bind; [apply parseCountOperation_consumes|].
    intros op ts'. apply consumes_ok.
  - apply Hnext. apply consumes_bind; [apply parsePercentOfOperation_consumes|].
    intros op ts'. apply consumes_ok.
  - apply Hnext. apply consumes_bind; [exact Hdivide|].
    intros op ts'. apply consumes_ok.
  - apply Hnext. apply consumes_bind; [exact Hmultiply|].
    intros op ts'. apply consumes_ok.
  - apply Hnext. apply consumes_bind; [exact Hsubtract|].
    intros op ts'. apply consumes_ok.
Qed.

Lemma parseQueryBlock_loop_consumes (fuel : nat) :
  forall ops ts, consumes insideBlock ts (parseQueryBlock_loop fuel ops ts).
Proof.
  induction fuel as [|fuel IH]; intros ops ts; [exact I|]. simpl.
  destruct (negb (check TokenType.RETURN ts) && negb (check TokenType.QUERY ts)
            && negb (isAtEnd ts)) eqn:Hguard; [|apply consumes_ok].
  apply andb_true_iff in Hguard as [Hguard Hend].
  apply andb_true_iff in Hguard as [Hreturn Hquery].
  apply negb_true_iff in Hreturn, Hquery, Hend.
  destruct ts as [|t ts]; [discriminate Hend|].
  assert (Ht : insideBlock (type t) = true).
  { unfold check in Hreturn, Hquery. rewrite Hend in Hreturn, Hquery.
    unfold isAtEnd in Hend. simpl in *.
    destruct (type t); try reflexivity; discriminate. }
  apply consumes_bind; [now apply parseOperation_consumes|].
  intros op ts1. apply IH.
Qed.

(** A query block that parses is its name, tokens that are neither RETURN
    nor QUERY, and the RETURN that closes it. *)
Lemma parseQueryBlock_extent (fuel : nat) (ts ts' : list Token)
    (q : QueryBlockNode) :
  parseQueryBlock fuel ts = Ok (q, ts') ->
  exists pre ret,
    ts = pre ++ ret :: ts'
    /\ Forall (fun t => insideBlock (type t) = true) pre
    /\ type ret = TokenType.RETURN /\ type ret <> TokenType.EOF.
Proof.
  unfold parseQueryBlock, consume.
  destruct (check TokenType.IDENTIFIER ts) eqn:Hname; [|discriminate]. simpl.
  apply check_true_inv in Hname as (nameTok & ts1 & -> & Hname & _ & ->).
  pose proof (parseQueryBlock_loop_consumes fuel [] ts1) as Hloop.
  destruct (parseQueryBlock_loop fuel [] ts1) as [[ops ts2]|]; simpl;
    [|discriminate].
  destruct Hloop as (pre & -> & Hpre).
  destruct (check TokenType.RETURN ts2) eqn:Hreturn; [|discriminate]. simpl.
  apply check_true_inv in Hreturn as (ret & ts3 & -> & Hret & Hnot & ->).
  intros [= _ <-]. exists (nameTok :: pre), ret.
  repeat split; try assumption.
  constructor; [now rewrite Hname|assumption].
Qed.

(** *** The loop of [parse()] *)

Lemma useDeclarations_outside (pre ts : list Token) :
  Forall (fun t => outsideBlock (type t) = true) pre ->
  useDeclarations false (pre ++ ts) = useDeclarations false ts.
Proof.
  induction 1 as [|t pre Ht _ IH]; [reflexivity|]. simpl.
  destruct (type t); try discriminate Ht; exact IH.
Qed.

Lemma useDeclarations_inside (pre : list Token) (ret : Token) (ts : list Token) :
  Forall (fun t => insideBlock (type t) = true) pre ->
  type ret = TokenType.RETURN ->
  useDeclarations true (pre ++ ret :: ts) = useDeclarations false ts.
Proof.
  intros Hpre Hret. induction Hpre as [|t pre Ht _ IH]; simpl.
  - now rewrite Hret.
  - destruct (type t); try discriminate Ht; exact IH.
Qed.

Lemma parse_loop_declared (fuel : nat) :
  forall program ts ast,
    parse_loop fuel program ts = Ok ast ->
    List.map path (usePaths ast)
    = List.map path (usePaths program)
      ++ List.map declaredPath (useDeclarations false ts).
Proof.
  induction fuel as [|fuel IH]; intros program ts ast; [discriminate|]. simpl.
  destruct (isAtEnd ts) eqn:Hend.
  { intros [= <-]. unfold isAtEnd in Hend.
    destruct ts as [|t ts]; simpl in *; [now rewrite app_nil_r|].
    now rewrite Hend, app_nil_r. }
  destruct ts as [|t ts]; [discriminate Hend|].
  assert (Hadvance : advance (t :: ts) = ts)
    by (unfold advance; now rewrite Hend).
  unfold check. rewrite Hend, Hadvance. unfold isAtEnd in Hend. simpl in *.
  rewrite Hend.
  destruct (TokenType.eqb (type t) TokenType.COMMENT) eqn:Hcomment.
  { apply TokenType_eqb_eq in Hcomment. rewrite Hcomment. simpl. apply IH. }
  destruct (TokenType.eqb (type t) TokenType.USE) eqn:Huse.
  { destruct (parseUsePath fuel ts) as [[u ts1]|] eqn:Hpath; simpl;
      [|discriminate].
    apply parseUsePath_declared in Hpath as (Hu & pre & -> & Hpre).
    intros Hrest. apply IH in Hrest. rewrite Hrest. simpl.
    rewrite List.map_app, <- app_assoc. simpl.
    now rewrite Hu, useDeclarations_outside. }
  destruct (TokenType.eqb (type t) TokenType.QUERY) eqn:Hquery.
  { destruct (parseQueryBlock fuel ts) as [[q ts1]|] eqn:Hblock; simpl;
      [|discriminate].
    apply parseQueryBlock_extent in Hblock as (pre & ret & -> & Hpre & Hret & _).
    intros Hrest. apply IH in Hrest. rewrite Hrest. simpl.
    now rewrite useDeclarations_inside. }
  apply IH.
Qed.

(** C4 (amended). For every query string that parses, [expectedObjects()]
    returns one string per USE declaration (a USE keyword outside the query
    blocks), in source order: the identifiers of the declaration joined by
    dots, up to its bracketed list; the bracketed alternatives, and what is
    written behind them, are not rendered. *)
Theorem C4_expected_paths_stop_at_brackets (queryText : string)
    (q : SSOQL.SSOQLQuery) :
  SSOQL.createQuery queryText = Ok q ->
  SSOQL.expectedObjects q
  = List.map declaredPath (useDeclarations false (Tokenizer.tokenize queryText)).
Proof.
  unfold SSOQL.createQuery, SSOQL.parseQuery, parse.
  destruct (parse_loop _ _ _) as [ast|] eqn:Hparse; simpl; [|discriminate].
  intros [= <-]. unfold SSOQL.expectedObjects. simpl.
  now rewrite (parse_loop_declared _ _ _ _ Hparse).
Qed.

End Declarations.

Lemma C4_expected_paths_stop_at_brackets_witness :
  SSOQL.expectedObjects declarationsAst = ["a.b"; "y"].
Proof.
  change (SSOQL.expectedObjects declarationsAst
          = List.map declaredPath
              (useDeclarations false (Tokenizer.tokenize declarationsQuery))).
  apply (C4_expected_paths_stop_at_brackets declarationsQuery declarationsAst).
  vm_compute. reflexivity.
Defined.

(** C4 (counterexample). For the query [USE y.[w1,w2].plays] the expected
    paths are the single string [y]: the bracketed alternatives are not
    rendered, and neither is the segment written after them. *)
Lemma C4_expected_paths_counterexample :
  SSOQL.createQuery bracketQuery = Ok bracketAst
  /\ SSOQL.expectedObjects bracketAst = ["y"]
  /\ SSOQL.expectedObjects bracketAst <> ["y.[w1,w2].plays"].
Proof.
  split; [vm_compute; reflexivity|]. split; [reflexivity|]. discriminate.
Qed.


Section NumericAggregates.
Context `{JSHost}.
Import Executor.
Local Open Scope list_scope.

(** ** Non-numeric elements in the numeric aggregates *)

Lemma zeroed_notRecord (v : value) : notRecord v = true -> notRecord (zeroed v) = true.
Proof. unfold zeroed. now destruct (numeric v). Qed.

Lemma orZero_zeroed (v : value) :
  orZero (ToNumber (zeroed v)) = orZero (ToNumber v).
Proof.
  unfold zeroed, numeric, orZero.
  destruct (PrimFloat.is_nan (ToNumber v)) eqn:Hnan; simpl;
    [reflexivity|now rewrite Hnan].
Qed.

Lemma sum_zeroed (ws : list value) (start : float) :
  fold_left (fun sum v => (sum + orZero (ToNumber v))%float) (List.map zeroed ws) start
  = fold_left (fun sum v => (sum + orZero (ToNumber v))%float) ws start.
Proof.
  revert start. induction ws as [|v ws IH]; intros start; simpl; [reflexivity|].
  now rewrite orZero_zeroed, IH.
Qed.

Lemma executeSum_scalars (ws : list value) :
  Forall (fun v => notRecord v = true) ws ->
  executeSum (workingSet ws)
  = Ok (fold_left (fun sum v => (sum + orZero (ToNumber v))%float) ws 0%float).
Proof.
  unfold executeSum. destruct 1 as [|v ws Hv _]; simpl; [reflexivity|].
  now rewrite Hv.
Qed.

Lemma kept_numbers (ws : list value) :
  List.filter (fun x => negb (PrimFloat.is_nan x))
    (List.map ToNumber (List.filter numeric ws))
  = List.filter (fun x => negb (PrimFloat.is_nan x)) (List.map ToNumber ws).
Proof.
  induction ws as [|v ws IH]; simpl; [reflexivity|].
  unfold numeric at 1. destruct (negb (PrimFloat.is_nan (ToNumber v))) eqn:Hv; simpl;
    rewrite ?Hv, IH; reflexivity.
Qed.

Lemma numericValues_scalars (what : string) (v : value) (ws : list value) :
  notRecord v = true ->
  numericValues what v ws
  = Ok (List.filter (fun x => negb (PrimFloat.is_nan x)) (List.map ToNumber ws)).
Proof. intros Hv. unfold numericValues. now rewrite Hv. Qed.

Lemma Forall_filter_numeric (ws : list value) :
  Forall (fun v => notRecord v = true) ws ->
  Forall (fun v => notRecord v = true) (List.filter numeric ws).
Proof.
  induction 1 as [|v ws Hv _ IH]; simpl; [constructor|].
  destruct (numeric v); [now constructor|assumption].
Qed.

Lemma filter_numeric_nil (ws : list value) :
  List.filter numeric ws = [] ->
  List.filter (fun x => negb (PrimFloat.is_nan x)) (List.map ToNumber ws) = [].
Proof. intros Hnone. now rewrite <- kept_numbers, Hnone. Qed.

(** The numbers MEDIAN, MIN, MAX and VARIANCE work on are those of the
    numeric elements. *)
Lemma numericValues_kept (what : string) (ws : list value) :
  Forall (fun v => notRecord v = true) ws ->
  match ws, List.filter numeric ws with
  | [], _ => True
  | v :: _, [] => numericValues what v ws = Ok []
  | v :: _, k :: kept =>
      numericValues what v ws = numericValues what k (k :: kept)
  end.
Proof.
  intros Hws. pose proof (Forall_filter_numeric _ Hws) as Hkept.
  destruct Hws as [|v ws Hv Hws]; [exact I|].
  rewrite (numericValues_scalars what v) by assumption.
  destruct (List.filter numeric (v :: ws)) as [|k kept] eqn:Hfilter.
  - now rewrite (filter_numeric_nil _ Hfilter).
  - inversion Hkept as [|? ? Hk _]; subst.
    rewrite (numericValues_scalars what k) by assumption.
    now rewrite <- Hfilter, kept_numbers.
Qed.

Lemma executeMedian_kept (ws : list value) :
  Forall (fun v => notRecord v = true) ws ->
  executeMedian (workingSet ws) = executeMedian (workingSet (List.filter numeric ws)).
Proof.
  intros Hws. pose proof (numericValues_kept "calculate median of" ws Hws) as Hvalues.
  unfold executeMedian. simpl currentContext.
  destruct ws as [|v ws]; [reflexivity|].
  destruct (List.filter numeric (v :: ws)) as [|k kept];
    rewrite Hvalues; reflexivity.
Qed.

Lemma executeMin_kept (ws : list value) :
  Forall (fun v => notRecord v = true) ws ->
  executeMin (workingSet ws) = executeMin (workingSet (List.filter numeric ws)).
Proof.
  intros Hws. pose proof (numericValues_kept "find minimum of" ws Hws) as Hvalues.
  unfold executeMin. simpl currentContext.
  destruct ws as [|v ws]; [reflexivity|].
  destruct (List.filter numeric (v :: ws)) as [|k kept];
    rewrite Hvalues; reflexivity.
Qed.

Lemma executeMax_kept (ws : list value) :
  Forall (fun v => notRecord v = true) ws ->
  executeMax (workingSet ws) = executeMax (workingSet (List.filter numeric ws)).
Proof.
  intros Hws. pose proof (numericValues_kept "find maximum of" ws Hws) as Hvalues.
  unfold executeMax. simpl currentContext.
  destruct ws as [|v ws]; [reflexivity|].
  destruct (List.filter numeric (v :: ws)) as [|k kept];
    rewrite Hvalues; reflexivity.
Qed.

Lemma executeVariance_kept (ws : list value) :
  Forall (fun v => notRecord v = true) ws ->
  executeVariance (workingSet ws)
  = executeVariance (workingSet (List.filter numeric ws)).
Proof.
  intros Hws. pose proof (numericValues_kept "calculate variance of" ws Hws) as Hvalues.
  pose proof (Forall_filter_numeric _ Hws) as Hkept.
  unfold executeVariance. simpl currentContext.
  destruct ws as [|v [|w ws]].
  - reflexivity.
  - simpl. now destruct (numeric v).
  - destruct (List.filter numeric (v :: w :: ws)) as [|k [|k' kept]] eqn:Hfilter;
      rewrite Hvalues; try reflexivity.
    inversion Hkept as [|? ? Hk _]; subst.
    rewrite (numericValues_scalars _ k) by assumption. simpl.
    now destruct (negb (PrimFloat.is_nan (ToNumber k))).
Qed.

Lemma getProp_projections (key : string) (vs : list value) :
  mapM (fun item => getProp item key) (projections key vs) = Ok vs.
Proof.
  induction vs as [|v vs IH]; simpl; [reflexivity|].
  rewrite String.eqb_refl. simpl. fold (projections key vs). now rewrite IH.
Qed.

Lemma numericValues_projections (what : string) (key : string) (v : value)
    (vs : list value) :
  notRecord v = true ->
  numericValues what (VObj [(key, v)]) (VObj [(key, v)] :: projections key vs)
  = numericValues what v (v :: vs).
Proof.
  intros Hv. unfold numericValues at 1. cbn [notRecord typeof_object isNull negb orb].
  cbn [Object_keys List.map fst].
  change (VObj [(key, v)] :: projections key vs) with (projections key (v :: vs)).
  rewrite getProp_projections. simpl.
  now rewrite (numericValues_scalars what v).
Qed.

Lemma min2_not_nan (a b : float) :
  PrimFloat.is_nan a = false -> PrimFloat.is_nan b = false ->
  PrimFloat.is_nan (min2 a b) = false.
Proof.
  intros Ha Hb. unfold min2. rewrite Ha, Hb. simpl.
  destruct (a <? b)%float; [assumption|].
  destruct (b <? a)%float; [assumption|].
  now destruct (isNegativeZero a).
Qed.

Lemma max2_not_nan (a b : float) :
  PrimFloat.is_nan a = false -> PrimFloat.is_nan b = false ->
  PrimFloat.is_nan (max2 a b) = false.
Proof.
  intros Ha Hb. unfold max2. rewrite Ha, Hb. simpl.
  destruct (b <? a)%float; [assumption|].
  destruct (a <? b)%float; [assumption|].
  now destruct (isNegativeZero a).
Qed.

Lemma fold_not_nan (f : float -> float -> float) (values : list float) (start : float) :
  (forall a b, PrimFloat.is_nan a = false -> PrimFloat.is_nan b = false ->
               PrimFloat.is_nan (f a b) = false) ->
  Forall (fun x => PrimFloat.is_nan x = false) values ->
  PrimFloat.is_nan start = false ->
  PrimFloat.is_nan (fold_left f values start) = false.
Proof.
  intros Hf Hvalues. revert start.
  induction Hvalues as [|x values Hx _ IH]; intros start Hstart; simpl; auto.
Qed.

Lemma filter_not_nan (xs : list float) :
  Forall (fun x => PrimFloat.is_nan x = false)
    (List.filter (fun x => negb (PrimFloat.is_nan x)) xs).
Proof.
  induction xs as [|x xs IH]; simpl; [constructor|].
  destruct (PrimFloat.is_nan x) eqn:Hx; simpl; [assumption|now constructor].
Qed.

Lemma numericValues_not_nan (what : string) (v : value) (ws : list value)
    (values : list float) :
  numericValues what v ws = Ok values ->
  Forall (fun x => PrimFloat.is_nan x = false) values.
Proof.
  unfold numericValues. destruct (notRecord v).
  - intros [= <-]. apply filter_not_nan.
  - destruct (Object_keys v) as [|key [|]]; try discriminate.
    destruct (mapM _ ws); simpl; [|discriminate].
    intros [= <-]. apply filter_not_nan.
Qed.

Lemma executeMin_not_nan (context : ExecutionContext) (x : float) :
  executeMin context = Ok x -> PrimFloat.is_nan x = false.
Proof.
  unfold executeMin. destruct (currentContext context) as [|v ws];
    [now intros [= <-]|].
  destruct (numericValues _ v (v :: ws)) as [values|] eqn:Hvalues; simpl;
    [|discriminate].
  apply numericValues_not_nan in Hvalues.
  destruct values; intros [= <-]; [reflexivity|].
  apply fold_not_nan; auto using min2_not_nan.
Qed.

Lemma executeMax_not_nan (context : ExecutionContext) (x : float) :
  executeMax context = Ok x -> PrimFloat.is_nan x = false.
Proof.
  unfold executeMax. destruct (currentContext context) as [|v ws];
    [now intros [= <-]|].
  destruct (numericValues _ v (v :: ws)) as [values|] eqn:Hvalues; simpl;
    [|discriminate].
  apply numericValues_not_nan in Hvalues.
  destruct values; intros [= <-]; [reflexivity|].
  apply fold_not_nan; auto using max2_not_nan.
Qed.

(** The aggregates over a working set of scalars, whatever the rest of the
    context. *)
Lemma non_numeric_elements_rows (ws : list value) (key : string) :
  Forall (fun v => notRecord v = true) ws ->
  (executeSum (workingSet ws) = executeSum (workingSet (List.map zeroed ws))
   /\ executeAverage (workingSet ws)
      = executeAverage (workingSet (List.map zeroed ws)))
  /\ (executeMedian (workingSet ws)
      = executeMedian (workingSet (List.filter numeric ws))
      /\ executeMin (workingSet ws) = executeMin (workingSet (List.filter numeric ws))
      /\ executeMax (workingSet ws) = executeMax (workingSet (List.filter numeric ws))
      /\ executeVariance (workingSet ws)
         = executeVariance (workingSet (List.filter numeric ws))
      /\ executeRange (workingSet ws)
         = executeRange (workingSet (List.filter numeric ws)))
  /\ (executeSum (workingSet (projections key ws)) = executeSum (workingSet ws)
      /\ executeAverage (workingSet (projections key ws))
         = executeAverage (workingSet ws)
      /\ executeMedian (workingSet (projections key ws))
         = executeMedian (workingSet ws)
      /\ executeMin (workingSet (projections key ws)) = executeMin (workingSet ws)
      /\ executeMax (workingSet (projections key ws)) = executeMax (workingSet ws)
      /\ executeVariance (workingSet (projections key ws))
         = executeVariance (workingSet ws)
      /\ executeRange (workingSet (projections key ws))
         = executeRange (workingSet ws))
  /\ (forall x, executeMin (workingSet ws) = Ok x -> PrimFloat.is_nan x = false)
  /\ (forall x, executeMax (workingSet ws) = Ok x -> PrimFloat.is_nan x = false).
Proof.
  intros Hws.
  assert (Hzeroed : Forall (fun v => notRecord v = true) (List.map zeroed ws)).
  { apply Forall_map. eapply Forall_impl; [exact Hws|]. apply zeroed_notRecord. }
  assert (Hsum : executeSum (workingSet ws)
                 = executeSum (workingSet (List.map zeroed ws))).
  { rewrite !executeSum_scalars by assumption. now rewrite sum_zeroed. }
  split; [split; [exact Hsum|]|].
  { unfold executeAverage. rewrite <- Hsum. simpl currentContext.
    rewrite length_map. now destruct ws. }
  split.
  { repeat split; auto using executeMedian_kept, executeMin_kept, executeMax_kept,
      executeVariance_kept.
    unfold executeRange. now rewrite executeMin_kept, executeMax_kept. }
  split; [|split; intros x; [apply executeMin_not_nan|apply executeMax_not_nan]].
  destruct Hws as [|v ws Hv Hws]; [repeat split|].
  change (projections key (v :: ws)) with (VObj [(key, v)] :: projections key ws).
  assert (Hsum' : executeSum (workingSet (VObj [(key, v)] :: projections key ws))
                  = executeSum (workingSet (v :: ws))).
  { unfold executeSum at 1. cbn [currentContext workingSet].
    cbn [notRecord typeof_object isNull negb orb Object_keys List.map fst].
    change (VObj [(key, v)] :: projections key ws) with (projections key (v :: ws)).
    rewrite getProp_projections. simpl bind.
    now rewrite (executeSum_scalars (v :: ws)) by now constructor. }
  assert (Hmin : executeMin (workingSet (VObj [(key, v)] :: projections key ws))
                 = executeMin (workingSet (v :: ws))).
  { unfold executeMin. cbn [currentContext workingSet].
    now rewrite (numericValues_projections _ key v ws Hv). }
  assert (Hmax : executeMax (workingSet (VObj [(key, v)] :: projections key ws))
                 = executeMax (workingSet (v :: ws))).
  { unfold executeMax. cbn [currentContext workingSet].
    now rewrite (numericValues_projections _ key v ws Hv). }
  repeat split; try assumption.
  - unfold executeAverage. rewrite Hsum'. cbn [currentContext workingSet].
    unfold projections. simpl length. now rewrite length_map.
  - unfold executeMedian. cbn [currentContext workingSet].
    now rewrite (numericValues_projections _ key v ws Hv).
  - unfold executeVariance. cbn [currentContext workingSet].
    destruct ws as [|w ws]; [reflexivity|].
    change (VObj [(key, v)] :: projections key (w :: ws))
      with (VObj [(key, v)] :: VObj [(key, w)] :: projections key ws).
    cbv iota.
    change (VObj [(key, v)] :: VObj [(key, w)] :: projections key ws)
      with (VObj [(key, v)] :: projections key (w :: ws)).
    now rewrite (numericValues_projections _ key v (w :: ws) Hv).
  - unfold executeRange. now rewrite Hmin, Hmax.
Qed.

(** The aggregates read nothing of the context but its working set. *)
Lemma aggregates_read_rows (c1 c2 : ExecutionContext) :
  currentContext c1 = currentContext c2 ->
  executeSum c1 = executeSum c2
  /\ executeAverage c1 = executeAverage c2
  /\ executeMedian c1 = executeMedian c2
  /\ executeMin c1 = executeMin c2
  /\ executeMax c1 = executeMax c2
  /\ executeVariance c1 = executeVariance c2
  /\ executeRange c1 = executeRange c2.
Proof.
  intros Hrows.
  unfold executeRange, executeAverage, executeSum, executeMedian, executeMin,
    executeMax, executeVariance.
  rewrite Hrows. repeat split; reflexivity.
Qed.

(** C5 (amended). Over a working set of scalars, SUM and AVERAGE count every
    non-numeric element as 0, and MEDIAN, MIN, MAX, VARIANCE and RANGE leave
    the non-numeric elements out: they compute over the numeric elements
    only. Single-key projections on one key are treated as their values.
    MIN and MAX never yield NaN. *)
Theorem C5_non_numeric_elements (context : ExecutionContext) (key : string) :
  let ws := currentContext context in
  let over rows := setCurrentContext rows context in
  Forall (fun v => notRecord v = true) ws ->
  (executeSum context = executeSum (over (List.map zeroed ws))
   /\ executeAverage context = executeAverage (over (List.map zeroed ws)))
  /\ (executeMedian context = executeMedian (over (List.filter numeric ws))
      /\ executeMin context = executeMin (over (List.filter numeric ws))
      /\ executeMax context = executeMax (over (List.filter numeric ws))
      /\ executeVariance context = executeVariance (over (List.filter numeric ws))
      /\ executeRange context = executeRange (over (List.filter numeric ws)))
  /\ (executeSum (over (projections key ws)) = executeSum context
      /\ executeAverage (over (projections key ws)) = executeAverage context
      /\ executeMedian (over (projections key ws)) = executeMedian context
      /\ executeMin (over (projections key ws)) = executeMin context
      /\ executeMax (over (projections key ws)) = executeMax context
      /\ executeVariance (over (projections key ws)) = executeVariance context
      /\ executeRange (over (projections key ws)) = executeRange context)
  /\ (forall x, executeMin context = Ok x -> PrimFloat.is_nan x = false)
  /\ (forall x, executeMax context = Ok x -> PrimFloat.is_nan x = false).
Proof.
  intros ws over Hws.
  destruct (non_numeric_elements_rows ws key Hws)
    as ((Hsum & Haverage) & (Hmedian & Hmin & Hmax & Hvariance & Hrange)
        & (Psum & Paverage & Pmedian & Pmin & Pmax & Pvariance & Prange) & _).
  destruct (aggregates_read_rows context (workingSet ws) eq_refl)
    as (Csum & Caverage & Cmedian & Cmin & Cmax & Cvariance & Crange).
  destruct (aggregates_read_rows (over (List.map zeroed ws))
              (workingSet (List.map zeroed ws)) eq_refl)
    as (Zsum & Zaverage & _).
  destruct (aggregates_read_rows (over (List.filter numeric ws))
              (workingSet (List.filter numeric ws)) eq_refl)
    as (_ & _ & Kmedian & Kmin & Kmax & Kvariance & Krange).
  destruct (aggregates_read_rows (over (projections key ws))
              (workingSet (projections key ws)) eq_refl)
    as (Jsum & Javerage & Jmedian & Jmin & Jmax & Jvariance & Jrange).
  repeat split;
    try (intros x; first [apply executeMin_not_nan | apply executeMax_not_nan]);
    congruence.
Qed.

End NumericAggregates.

Lemma C5_non_numeric_elements_witness :
  Executor.executeMin (workingSet [VStr "x"; VNum 5])
  = Executor.executeMin (workingSet (List.filter numeric [VStr "x"; VNum 5])).
Proof.
  destruct (C5_non_numeric_elements (workingSet [VStr "x"; VNum 5]) "p")
    as (_ & (_ & Hmin & _) & _).
  - repeat constructor.
  - exact Hmin.
Defined.

(** C5 (counterexample). MIN over the working set ["x", 5] is 5, not 0: the
    non-numeric element is left out, not counted as 0. And a NaN result is
    possible: SUM over [Infinity, -Infinity] is NaN. *)
Lemma C5_min_counterexample :
  Executor.executeMin (workingSet [VStr "x"; VNum 5]) = Ok 5%float
  /\ Executor.executeMin (workingSet [VStr "x"; VNum 5]) <> Ok 0%float
  /\ exists x,
       Executor.executeSum (workingSet [VNum infinity; VNum neg_infinity]) = Ok x
       /\ PrimFloat.is_nan x = true.
Proof.
  split; [reflexivity|]. split.
  - intros Hzero.
    assert (Hfive : Executor.executeMin (workingSet [VStr "x"; VNum 5]) = Ok 5%float)
      by reflexivity.
    rewrite Hfive in Hzero.
    apply (f_equal (fun r => match r with
                             | Ok x => PrimFloat.is_zero x
                             | Throw _ => false
                             end)) in Hzero.
    vm_compute in Hzero. discriminate.
  - eexists. split; reflexivity.
Qed.


Section Frequencies.
Context `{JSHost}.
Import Executor.
Local Open Scope list_scope.

(** ** MOST_FREQUENT and LEAST_FREQUENT *)

Lemma sameText_refl (a : value) : sameText a a = true.
Proof. apply String.eqb_refl. Qed.

Lemma sameText_sym (a b : value) : sameText a b = sameText b a.
Proof. apply String.eqb_sym. Qed.

Lemma sameText_trans (a b c : value) :
  sameText a b = true -> sameText b c = true -> sameText a c = true.
Proof.
  unfold sameText. rewrite !String.eqb_eq. congruence.
Qed.

Lemma sameText_occurrences (a b : value) (vals : list value) :
  sameText a b = true ->
  occurrences sameText a vals = occurrences sameText b vals.
Proof.
  intros Hab. unfold occurrences. f_equal. apply List.filter_ext. intros u.
  unfold sameText in *. apply String.eqb_eq in Hab. now rewrite Hab.
Qed.

Lemma occurrences_snoc (v x : value) (vals : list value) :
  occurrences sameText v (vals ++ [x])
  = (occurrences sameText v vals + if sameText x v then 1 else 0)%nat.
Proof.
  unfold occurrences. rewrite List.filter_app, length_app. simpl.
  now destruct (sameText x v).
Qed.

Lemma firsts_snoc (vals : list value) (x : value) :
  firsts (vals ++ [x])
  = if existsb (fun u => sameText u x) (firsts vals) then firsts vals
    else firsts vals ++ [x].
Proof. unfold firsts. now rewrite fold_left_app. Qed.

(** Every value has a representative of its text among the first
    occurrences, and conversely. *)
Lemma existsb_firsts (x : value) (vals : list value) :
  existsb (fun u => sameText u x) (firsts vals)
  = existsb (fun u => sameText u x) vals.
Proof.
  induction vals as [|y vals IH] using rev_ind; [reflexivity|].
  rewrite firsts_snoc, existsb_app. simpl. rewrite orb_false_r.
  destruct (existsb (fun u => sameText u y) (firsts vals)) eqn:Hy.
  - rewrite IH. destruct (sameText y x) eqn:Hyx; [|now rewrite orb_false_r].
    rewrite orb_true_r. rewrite <- IH.
    apply existsb_exists in Hy as (u & Hu & Huy).
    apply existsb_exists. exists u. eauto using sameText_trans.
  - rewrite existsb_app. simpl. now rewrite orb_false_r, IH.
Qed.

Lemma firsts_In (v : value) (vals : list value) :
  In v (firsts vals) -> In v vals.
Proof.
  induction vals as [|y vals IH] using rev_ind; [intros []|].
  rewrite firsts_snoc, in_app_iff.
  destruct (existsb _ (firsts vals)); [now left; apply IH|].
  rewrite in_app_iff. intros [Hv|Hv]; [left; now apply IH|now right].
Qed.

Lemma firsts_NoDup (vals : list value) :
  List.NoDup (List.map ToString (firsts vals)).
Proof.
  induction vals as [|y vals IH] using rev_ind; [constructor|].
  rewrite firsts_snoc.
  destruct (existsb _ (firsts vals)) eqn:Hy; [assumption|].
  rewrite List.map_app. simpl. apply List.NoDup_app.
  - assumption.
  - repeat constructor. intros [].
  - intros k Hk [<-|[]].
    apply in_map_iff in Hk as (u & Hu & Hin).
    assert (Hnone : existsb (fun u => sameText u y) (firsts vals) = true).
    { apply existsb_exists. exists u. split; [assumption|].
      unfold sameText. now rewrite Hu, String.eqb_refl. }
    congruence.
Qed.

Lemma has_entries (key : string) (count : value -> nat) (fs : list value) :
  has key (List.map (fun v => (ToString v, (count v, v))) fs)
  = existsb (fun u => String.eqb (ToString u) key) fs.
Proof. induction fs as [|u fs IH]; simpl; [reflexivity|]. now rewrite IH. Qed.

Lemma increment_entries (key : string) (count : value -> nat) (fs : list value) :
  List.NoDup (List.map ToString fs) ->
  increment key (List.map (fun v => (ToString v, (count v, v))) fs)
  = List.map (fun v => (ToString v,
                        ((count v + if String.eqb (ToString v) key then 1 else 0)%nat,
                         v))) fs.
Proof.
  induction fs as [|u fs IH]; simpl; [reflexivity|].
  intros Hnodup. apply List.NoDup_cons_iff in Hnodup as [Hu Hnodup].
  destruct (String.eqb (ToString u) key) eqn:Hkey.
  - rewrite Nat.add_1_r. f_equal. apply List.map_ext_in. intros w Hw.
    destruct (String.eqb (ToString w) key) eqn:Hwkey;
      [|now rewrite Nat.add_0_r].
    apply String.eqb_eq in Hkey, Hwkey. exfalso. apply Hu.
    rewrite Hkey, <- Hwkey. now apply in_map.
  - rewrite Nat.add_0_r, IH by assumption. reflexivity.
Qed.

(** One more value counted: the map is again the list of first occurrences
    with their counts. *)
Lemma table_snoc (done : list value) (x : value) :
  (if has (ToString x) (List.map (entryOf done) (firsts done))
   then increment (ToString x) (List.map (entryOf done) (firsts done))
   else List.map (entryOf done) (firsts done) ++ [(ToString x, (1%nat, x))])
  = List.map (entryOf (done ++ [x])) (firsts (done ++ [x])).
Proof.
  unfold entryOf at 1 2 3. rewrite has_entries, firsts_snoc.
  change (fun u => String.eqb (ToString u) (ToString x))
    with (fun u => sameText u x).
  destruct (existsb (fun u => sameText u x) (firsts done)) eqn:Hseen.
  - rewrite increment_entries by apply firsts_NoDup.
    apply List.map_ext. intros v. unfold entryOf. rewrite occurrences_snoc.
    now rewrite (sameText_sym x v).
  - rewrite List.map_app. simpl. f_equal.
    + apply List.map_ext_in. intros v Hv. unfold entryOf.
      rewrite occurrences_snoc.
      assert (Hvx : sameText v x = false).
      { destruct (sameText v x) eqn:Hvx; [|reflexivity].
        assert (existsb (fun u => sameText u x) (firsts done) = true)
          by (apply existsb_exists; eauto).
        congruence. }
      now rewrite sameText_sym, Hvx, Nat.add_0_r.
    + unfold entryOf. rewrite occurrences_snoc, sameText_refl.
      rewrite existsb_firsts in Hseen.
      assert (Hzero : occurrences sameText x done = 0%nat).
      { unfold occurrences. induction done as [|w done IH]; [reflexivity|].
        simpl in *. apply orb_false_iff in Hseen as [Hw Hrest].
        rewrite Hw. now apply IH. }
      now rewrite Hzero.
Qed.

Lemma tally_cons (x : value) (vals : list value) (m : frequencies) :
  tally (x :: vals) m
  = tally vals (if has (ToString x) m then increment (ToString x) m
                else m ++ [(ToString x, (1%nat, x))]).
Proof. reflexivity. Qed.

Lemma tally_table (vals done : list value) :
  tally vals (List.map (entryOf done) (firsts done))
  = List.map (entryOf (done ++ vals)) (firsts (done ++ vals)).
Proof.
  revert done. induction vals as [|x vals IH]; intros done.
  - now rewrite app_nil_r.
  - rewrite tally_cons, table_snoc, IH. now rewrite <- app_assoc.
Qed.

(** *** From the working set to the counted values *)

Lemma soleValue_soleOf (what : string) (item : value) :
  scalarOrSingle item -> soleValue what item = Ok (soleOf item).
Proof.
  unfold soleValue.
  intros [Hscalar|[(key & v & ->)|(v & ->)]].
  - rewrite Hscalar. destruct item as [| | | | |[|v []]|[|[k v] []]];
      simpl in *; try reflexivity; try discriminate.
  - simpl. now rewrite String.eqb_refl.
  - reflexivity.
Qed.

Lemma countFrequencies_tally (what : string) (ws : list value) (m : frequencies) :
  Forall scalarOrSingle ws ->
  countFrequencies what ws m = Ok (tally (counted (List.map soleOf ws)) m).
Proof.
  intros Hws. revert m.
  induction Hws as [|item ws Hitem _ IH]; intros m; [reflexivity|].
  cbn [countFrequencies]. rewrite (soleValue_soleOf _ _ Hitem). cbn [bind].
  change (counted (List.map soleOf (item :: ws)))
    with (if negb (isNull (soleOf item) || isUndefined (soleOf item))
          then soleOf item :: counted (List.map soleOf ws)
          else counted (List.map soleOf ws)).
  destruct (isNull (soleOf item) || isUndefined (soleOf item)); cbn [negb];
    [apply IH|].
  rewrite tally_cons.
  destruct (has (ToString (soleOf item)) m); apply IH.
Qed.

(** *** The scans of the frequency map *)

Lemma findMost_none (entries : frequencies) (maxCount : nat) (best : value) :
  Forall (fun entry => (countOf entry <= maxCount)%nat) entries ->
  findMost entries maxCount best = best.
Proof.
  induction 1 as [|[k [count v]] entries Hcount _ IH]; simpl; [reflexivity|].
  unfold countOf in Hcount. simpl in Hcount.
  destruct (Nat.ltb_spec maxCount count); [lia|assumption].
Qed.

Lemma findMost_split (entries : frequencies) (maxCount : nat) (best : value) :
  Exists (fun entry => (maxCount < countOf entry)%nat) entries ->
  exists before k count v after,
    entries = before ++ (k, (count, v)) :: after
    /\ findMost entries maxCount best = v
    /\ (maxCount < count)%nat
    /\ Forall (fun entry => (countOf entry < count)%nat) before
    /\ Forall (fun entry => (countOf entry <= count)%nat) after.
Proof.
  revert maxCount best.
  induction entries as [|[k [count v]] entries IH]; intros maxCount best Hsome.
  - inversion Hsome.
  - simpl. destruct (Nat.ltb_spec maxCount count) as [Hlt|Hge].
    + destruct (List.Exists_dec (fun entry => (count < countOf entry)%nat) entries
                  (fun entry => lt_dec _ _)) as [Hlater|Hnone].
      * destruct (IH count v Hlater)
          as (before & k' & count' & v' & after & -> & Hfind & Hlt' & Hbefore & Hafter).
        exists ((k, (count, v)) :: before), k', count', v', after.
        repeat split; try assumption; [lia|].
        constructor; [unfold countOf; simpl; lia|assumption].
      * exists [], k, count, v, entries.
        assert (Hall : Forall (fun entry => (countOf entry <= count)%nat) entries).
        { apply List.Forall_forall. intros entry Hin.
          destruct (le_lt_dec (countOf entry) count) as [|Hmore]; [assumption|].
          exfalso. apply Hnone. apply List.Exists_exists. eauto. }
        repeat split; try assumption; [|constructor].
        now apply findMost_none.
    + apply Exists_cons in Hsome as [Hhere|Hlater];
        [unfold countOf in Hhere; simpl in Hhere; lia|].
      destruct (IH maxCount best Hlater)
        as (before & k' & count' & v' & after & -> & Hfind & Hlt' & Hbefore & Hafter).
      exists ((k, (count, v)) :: before), k', count', v', after.
      repeat split; try assumption.
      constructor; [unfold countOf; simpl; lia|assumption].
Qed.

Lemma findLeast_none (entries : frequencies) (minCount : nat) (best : value) :
  Forall (fun entry => (minCount <= countOf entry)%nat) entries ->
  findLeast entries (Some minCount) best = best.
Proof.
  induction 1 as [|[k [count v]] entries Hcount _ IH]; simpl; [reflexivity|].
  unfold countOf in Hcount. simpl in Hcount.
  destruct (Nat.ltb_spec count minCount); [lia|assumption].
Qed.

Lemma findLeast_some (entries : frequencies) (minCount : nat) (best : value) :
  Exists (fun entry => (countOf entry < minCount)%nat) entries ->
  exists before k count v after,
    entries = before ++ (k, (count, v)) :: after
    /\ findLeast entries (Some minCount) best = v
    /\ (count < minCount)%nat
    /\ Forall (fun entry => (count < countOf entry)%nat) before
    /\ Forall (fun entry => (count <= countOf entry)%nat) after.
Proof.
  revert minCount best.
  induction entries as [|[k [count v]] entries IH]; intros minCount best Hsome.
  - inversion Hsome.
  - simpl. destruct (Nat.ltb_spec count minCount) as [Hlt|Hge].
    + destruct (List.Exists_dec (fun entry => (countOf entry < count)%nat) entries
                  (fun entry => lt_dec _ _)) as [Hlater|Hnone].
      * destruct (IH count v Hlater)
          as (before & k' & count' & v' & after & -> & Hfind & Hlt' & Hbefore & Hafter).
        exists ((k, (count, v)) :: before), k', count', v', after.
        repeat split; try assumption; [lia|].
        constructor; [unfold countOf; simpl; lia|assumption].
      * exists [], k, count, v, entries.
        assert (Hall : Forall (fun entry => (count <= countOf entry)%nat) entries).
        { apply List.Forall_forall. intros entry Hin.
          destruct (le_lt_dec count (countOf entry)) as [|Hless]; [assumption|].
          exfalso. apply Hnone. apply List.Exists_exists. eauto. }
        repeat split; try assumption; [|constructor].
        now apply findLeast_none.
    + apply Exists_cons in Hsome as [Hhere|Hlater];
        [unfold countOf in Hhere; simpl in Hhere; lia|].
      destruct (IH minCount best Hlater)
        as (before & k' & count' & v' & after & -> & Hfind & Hlt' & Hbefore & Hafter).
      exists ((k, (count, v)) :: before), k', count', v', after.
      repeat split; try assumption.
      constructor; [unfold countOf; simpl; lia|assumption].
Qed.

Lemma findLeast_split (entries : frequencies) (best : value) :
  entries <> [] ->
  exists before k count v after,
    entries = before ++ (k, (count, v)) :: after
    /\ findLeast entries None best = v
    /\ Forall (fun entry => (count < countOf entry)%nat) before
    /\ Forall (fun entry => (count <= countOf entry)%nat) after.
Proof.
  destruct entries as [|[k [count v]] entries]; [congruence|]. intros _. simpl.
  destruct (List.Exists_dec (fun entry => (countOf entry < count)%nat) entries
                  (fun entry => lt_dec _ _)) as [Hlater|Hnone].
  - destruct (findLeast_some entries count v Hlater)
      as (before & k' & count' & v' & after & -> & Hfind & Hlt' & Hbefore & Hafter).
    exists ((k, (count, v)) :: before), k', count', v', after.
    repeat split; try assumption.
    constructor; [unfold countOf; simpl; lia|assumption].
  - exists [], k, count, v, entries.
    assert (Hall : Forall (fun entry => (count <= countOf entry)%nat) entries).
    { apply List.Forall_forall. intros entry Hin.
      destruct (le_lt_dec count (countOf entry)) as [|Hless]; [assumption|].
      exfalso. apply Hnone. apply List.Exists_exists. eauto. }
    repeat split; try assumption; [|constructor].
    now apply findLeast_none.
Qed.

(** *** First occurrences and positions *)

Lemma representative (vals : list value) (u : value) :
  In u vals -> exists r, In r (firsts vals) /\ sameText r u = true.
Proof.
  intros Hin.
  assert (Hseen : existsb (fun w => sameText w u) (firsts vals) = true).
  { rewrite existsb_firsts. apply existsb_exists. exists u.
    split; [assumption|apply sameText_refl]. }
  apply existsb_exists in Hseen as (r & Hr & Hru). eauto.
Qed.

Lemma firsts_split (vals : list value) :
  forall fs1 v fs2,
    firsts vals = fs1 ++ v :: fs2 ->
    exists before after,
      vals = before ++ v :: after
      /\ forall u, In u before -> exists r, In r fs1 /\ sameText r u = true.
Proof.
  induction vals as [|y vals IH] using rev_ind; intros fs1 v fs2.
  - intros Hnil. now destruct fs1.
  - rewrite firsts_snoc.
    destruct (existsb (fun u => sameText u y) (firsts vals)) eqn:Hy.
    + intros Hsplit. destruct (IH _ _ _ Hsplit) as (before & after & -> & Hbefore).
      exists before, (after ++ [y]). split; [|assumption].
      now rewrite <- app_assoc.
    + destruct fs2 as [|z fs2 _] using rev_ind.
      * intros Hsplit. apply app_inj_tail in Hsplit as [<- <-].
        exists vals, []. split; [reflexivity|]. apply representative.
      * rewrite app_comm_cons, app_assoc. intros Hsplit.
        apply app_inj_tail in Hsplit as [Hsplit <-].
        destruct (IH _ _ _ Hsplit) as (before & after & -> & Hbefore).
        exists before, (after ++ [y]). split; [|assumption].
        now rewrite <- app_assoc.
Qed.

Lemma table_split (vals : list value) (before : frequencies) (k : string)
    (count : nat) (v : value) (after : frequencies) :
  List.map (entryOf vals) (firsts vals) = before ++ (k, (count, v)) :: after ->
  exists fs1 fs2,
    firsts vals = fs1 ++ v :: fs2
    /\ before = List.map (entryOf vals) fs1
    /\ after = List.map (entryOf vals) fs2
    /\ count = occurrences sameText v vals.
Proof.
  intros Hsplit. apply List.map_eq_app in Hsplit as (fs1 & rest & Hfirsts & Hfs1 & Hrest).
  apply List.map_eq_cons in Hrest as (v' & fs2 & -> & Hentry & Hfs2).
  injection Hentry as _ Hcount Hv. subst v'.
  exists fs1, fs2. now repeat split.
Qed.

(** The positions of a most (or least) frequent value, from the split of
    the frequency map that the scan finds. *)
Lemma split_positions (vals : list value) (fs1 fs2 : list value) (v : value)
    (R Rle : nat -> nat -> Prop) :
  (forall a b, R a b -> Rle a b) -> (forall a, Rle a a) ->
  firsts vals = fs1 ++ v :: fs2 ->
  Forall (fun entry => R (countOf entry) (occurrences sameText v vals))
    (List.map (entryOf vals) fs1) ->
  Forall (fun entry => Rle (countOf entry) (occurrences sameText v vals))
    (List.map (entryOf vals) fs2) ->
  exists before after,
    vals = before ++ v :: after
    /\ (forall u, In u before ->
          R (occurrences sameText u vals) (occurrences sameText v vals))
    /\ (forall u, In u vals ->
          Rle (occurrences sameText u vals) (occurrences sameText v vals)).
Proof.
  intros Hweak Hrefl Hfirsts Hfs1 Hfs2.
  rewrite Forall_map in Hfs1, Hfs2. rewrite List.Forall_forall in Hfs1, Hfs2.
  destruct (firsts_split _ _ _ _ Hfirsts) as (before & after & Hvals & Hbefore).
  exists before, after. split; [assumption|]. split.
  - intros u Hu. destruct (Hbefore u Hu) as (r & Hr & Hru).
    rewrite <- (sameText_occurrences r u) by assumption. now apply (Hfs1 r).
  - intros u Hu. destruct (representative vals u Hu) as (r & Hr & Hru).
    rewrite <- (sameText_occurrences r u) by assumption.
    rewrite Hfirsts in Hr. apply in_app_iff in Hr as [Hr|[<-|Hr]].
    + apply Hweak. now apply (Hfs1 r).
    + apply Hrefl.
    + now apply (Hfs2 r).
Qed.

Lemma firsts_nonempty (vals : list value) : vals <> [] -> firsts vals <> [].
Proof.
  destruct vals as [|v vals]; [congruence|]. intros _ Hnone.
  destruct (representative (v :: vals) v (or_introl eq_refl)) as (r & Hr & _).
  now rewrite Hnone in Hr.
Qed.

Lemma table_counts_positive (vals : list value) :
  Forall (fun entry => (0 < countOf entry)%nat)
    (List.map (entryOf vals) (firsts vals)).
Proof.
  rewrite Forall_map. apply List.Forall_forall. intros v Hv.
  apply firsts_In in Hv. unfold countOf, entryOf, occurrences. simpl.
  induction vals as [|w vals IH]; [destruct Hv|]. simpl.
  destruct Hv as [->|Hv].
  - rewrite sameText_refl. simpl. lia.
  - destruct (sameText w v); simpl; [lia|now apply IH].
Qed.

(** C7 (amended). For a working set of scalars and single-key records
    whose values [String()] can convert, MOST_FREQUENT and LEAST_FREQUENT do
    not raise; the values that are null or absent are not counted; when no
    value is counted the result is null; otherwise MOST_FREQUENT is the
    first-seen value among those whose count is maximal and LEAST_FREQUENT
    the first-seen among those whose count is minimal, where the occurrences
    of a value are the counted values with the same text [String(value)]. *)
Theorem C7_first_seen_by_text (context : ExecutionContext) :
  let ws := currentContext context in
  let vals := counted (List.map soleOf ws) in
  Forall scalarOrSingle ws ->
  Forall (fun item => convertible (soleOf item) = true) ws ->
  exists most least,
    executeMostFrequent context = Ok most
    /\ executeLeastFrequent context = Ok least
    /\ (vals = [] -> most = VNull /\ least = VNull)
    /\ (vals <> [] ->
        firstMostFrequent sameText vals most
        /\ firstLeastFrequent sameText vals least).
Proof.
  intros ws vals Hws _.
  unfold executeMostFrequent, executeLeastFrequent.
  fold ws. clearbody ws. clear context.
  assert (Htable : forall what,
             countFrequencies what ws []
             = Ok (List.map (entryOf vals) (firsts vals))).
  { intros what. rewrite (countFrequencies_tally what ws [] Hws).
    now rewrite (tally_table _ []). }
  destruct ws as [|item ws].
  { exists VNull, VNull. split; [reflexivity|]. split; [reflexivity|].
    split; [intros _; split; reflexivity|].
    intros Hne. exfalso. now apply Hne. }
  rewrite !Htable. simpl bind.
  destruct vals as [|v0 vals'] eqn:Hvals.
  { exists VNull, VNull. split; [reflexivity|]. split; [reflexivity|].
    split; [intros _; split; reflexivity|].
    intros Hne. exfalso. now apply Hne. }
  rewrite <- Hvals.
  assert (Hnonempty : vals <> []) by (rewrite Hvals; discriminate).
  pose proof (firsts_nonempty vals Hnonempty) as Hfirsts.
  pose proof (table_counts_positive vals) as Hpositive.
  destruct (List.map (entryOf vals) (firsts vals)) as [|entry entries] eqn:Hentries.
  { apply List.map_eq_nil in Hentries. contradiction. }
  rewrite <- Hentries in *. clear Hvals.
  destruct (findMost_split (List.map (entryOf vals) (firsts vals)) 0 VNull)
    as (b1 & k1 & c1 & most & a1 & Hsplit1 & Hmost & _ & Hb1 & Ha1).
  { rewrite Hentries. rewrite Hentries in Hpositive.
    apply Exists_cons_hd. now inversion Hpositive. }
  destruct (findLeast_split (List.map (entryOf vals) (firsts vals)) VNull)
    as (b2 & k2 & c2 & least & a2 & Hsplit2 & Hleast & Hb2 & Ha2).
  { rewrite Hentries. discriminate. }
  exists most, least.
  rewrite Hentries in Hmost, Hleast.
  split; [now rewrite <- Hmost, Hentries|].
  split; [now rewrite <- Hleast, Hentries|].
  split; [intros Hnil; contradiction|]. intros _. split.
  - destruct (table_split _ _ _ _ _ _ Hsplit1) as (fs1 & fs2 & Hfs & -> & -> & ->).
    apply (split_positions vals fs1 fs2 most lt le); auto with arith.
  - destruct (table_split _ _ _ _ _ _ Hsplit2) as (fs1 & fs2 & Hfs & -> & -> & ->).
    destruct (split_positions vals fs1 fs2 least
                (fun a b => (b < a)%nat) (fun a b => (b <= a)%nat))
      as (before & after & Hsplit & Hbefore & Hall); auto with arith.
    exists before, after. auto.
Qed.

End Frequencies.

Lemma C7_first_seen_by_text_witness :
  let ws := [VStr "a"; VBool true; VStr "true"; VNull] in
  let vals := counted (List.map soleOf ws) in
  exists most least,
    Executor.executeMostFrequent (workingSet ws) = Ok most
    /\ Executor.executeLeastFrequent (workingSet ws) = Ok least
    /\ (vals = [] -> most = VNull /\ least = VNull)
    /\ (vals <> [] ->
        firstMostFrequent sameText vals most
        /\ firstLeastFrequent sameText vals least).
Proof.
  apply (C7_first_seen_by_text
           (workingSet [VStr "a"; VBool true; VStr "true"; VNull])).
  - repeat constructor.
  - repeat constructor.
Defined.

(** C7 (counterexample). Over the working set ["a", true, "true"] every value
    occurs once, so the first-seen value of maximal count is "a"; the code
    returns [true], which it counts together with the string "true". *)
Lemma C7_most_frequent_counterexample :
  let ws := [VStr "a"; VBool true; VStr "true"] in
  Executor.executeMostFrequent (workingSet ws) = Ok (VBool true)
  /\ firstMostFrequent strictEquals ws (VStr "a")
  /\ ~ firstMostFrequent strictEquals ws (VBool true).
Proof.
  intros ws. split; [reflexivity|]. split.
  - exists [], [VBool true; VStr "true"]. split; [reflexivity|]. split.
    + intros u [].
    + intros u [<-|[<-|[<-|[]]]]; vm_compute; lia.
  - intros (before & after & Hsplit & Hbefore & _).
    assert (Hin : In (VStr "a") before).
    { destruct before as [|b before]; [discriminate Hsplit|].
      injection Hsplit as <- _. now left. }
    specialize (Hbefore _ Hin). vm_compute in Hbefore. lia.
Qed.

Section TokenizerProperties.
Import Tokenizer.
Local Open Scope list_scope.

(** ** What the tokenizer keeps of its source *)

Lemma takeWhile_prefix (pred : ascii -> bool) (cs : list ascii) :
  take (length (takeWhile pred cs)) cs = takeWhile pred cs.
Proof.
  induction cs as [|c cs IH]; simpl; [reflexivity|].
  destruct (pred c); simpl; [now rewrite IH|reflexivity].
Qed.

Lemma takeWhile_Forall (pred : ascii -> bool) (cs : list ascii) :
  Forall (fun c => pred c = true) (takeWhile pred cs).
Proof.
  induction cs as [|c cs IH]; simpl; [constructor|].
  destruct (pred c) eqn:Hc; [now constructor|constructor].
Qed.

Lemma takeWhile_all (pred : ascii -> bool) (cs rest : list ascii) :
  Forall (fun c => pred c = true) cs ->
  match rest with c :: _ => pred c = false | [] => True end ->
  takeWhile pred (cs ++ rest) = cs.
Proof.
  intros Hcs Hrest. induction Hcs as [|c cs Hc _ IH]; simpl.
  - destruct rest as [|c rest]; [reflexivity|]. simpl. now rewrite Hrest.
  - now rewrite Hc, IH.
Qed.

Lemma advanceAll_app (cs1 cs2 : list ascii) (p : pos) :
  advanceAll (cs1 ++ cs2) p = advanceAll cs2 (advanceAll cs1 p).
Proof. apply fold_left_app. Qed.

Lemma advancePos_line (c : ascii) (p : pos) : (p.1 <= (advancePos c p).1)%Z.
Proof. unfold advancePos. destruct (Ascii.eqb c newline); simpl; lia. Qed.

Lemma advanceAll_line (cs : list ascii) (p : pos) :
  (p.1 <= (advanceAll cs p).1)%Z.
Proof.
  revert p. induction cs as [|c cs IH]; intros p; simpl; [lia|].
  fold (advanceAll cs (advancePos c p)).
  pose proof (advancePos_line c p). pose proof (IH (advancePos c p)). lia.
Qed.

Lemma isAlphaNumeric_not_blank (c : ascii) :
  isAlphaNumeric c = true -> isBlank c = false.
Proof.
  unfold isAlphaNumeric, isAlpha, isDigit, between, isBlank, newline, chr.
  intros Hc.
  destruct (Ascii.eqb_spec c " ") as [->|]; [discriminate Hc|].
  destruct (Ascii.eqb_spec c (ascii_of_nat 13)) as [->|]; [discriminate Hc|].
  destruct (Ascii.eqb_spec c (ascii_of_nat 9)) as [->|]; [discriminate Hc|].
  destruct (Ascii.eqb_spec c (ascii_of_nat 10)) as [->|]; [discriminate Hc|].
  reflexivity.
Qed.

Lemma isDigit_not_blank (c : ascii) : isDigit c = true -> isBlank c = false.
Proof.
  intros Hc. apply isAlphaNumeric_not_blank. unfold isAlphaNumeric.
  rewrite Hc. apply orb_true_r.
Qed.

Lemma keyword_not_EOF (text : string) :
  keyword text <> TokenType.EOF /\ keyword text <> TokenType.STRING.
Proof.
  unfold keyword.
  repeat match goal with
         | |- context [if ?b then _ else _] => destruct b
         end; split; discriminate.
Qed.

(** A lexeme made of [c] and a prefix [more] of the characters that
    follow. *)
Lemma lexemeToken_scanned (ty : TokenType.t) (c : ascii) (more rest : list ascii)
    (p : pos) :
  take (length more) rest = more -> length more <= length rest ->
  ty <> TokenType.EOF -> ty <> TokenType.STRING ->
  isBlank c = false ->
  (opensText c = false -> Forall (fun x => isBlank x = false) more) ->
  scanned_as c rest p (lexemeToken ty c more p).
Proof.
  intros Hprefix Hlength Heof Hstring Hc Hmore.
  unfold scanned_as, lexemeToken. rewrite Hprefix.
  repeat split; try assumption; try reflexivity.
  - now destruct Hstring.
  - now destruct Hstring.
  - intros Hopen. constructor; [assumption|now apply Hmore].
Qed.

Lemma oneOrTwo_scanned (c : ascii) (rest : list ascii) (p : pos)
    (two one : TokenType.t) :
  two <> TokenType.EOF -> two <> TokenType.STRING ->
  one <> TokenType.EOF -> one <> TokenType.STRING ->
  isBlank c = false ->
  scanned_as c rest p (oneOrTwo c rest p two one).
Proof.
  intros Htwo Htwo' Hone Hone' Hc. unfold oneOrTwo.
  destruct rest as [|d rest].
  - apply lexemeToken_scanned; simpl; try assumption; try reflexivity; auto.
  - destruct (Ascii.eqb_spec d "=") as [->|Hd].
    + apply lexemeToken_scanned; simpl; try assumption; try reflexivity; [lia|].
      intros _. now repeat constructor.
    + apply lexemeToken_scanned; simpl; try assumption; try reflexivity;
        [lia|auto].
Qed.

Lemma takeWhile_stops (pred : ascii -> bool) (cs : list ascii) :
  length (takeWhile pred cs) <> length cs ->
  exists d after,
    cs = takeWhile pred cs ++ d :: after /\ pred d = false.
Proof.
  induction cs as [|c cs IH]; simpl; [congruence|].
  destruct (pred c) eqn:Hc; simpl.
  - intros Hlength. destruct IH as (d & after & Hcs & Hd); [congruence|].
    exists d, after. split; [now rewrite <- Hcs|assumption].
  - intros _. now exists c, cs.
Qed.

Lemma string_scanned (quote : ascii) (rest : list ascii) (p : pos) :
  isBlank quote = false -> opensText quote = true ->
  scanned_as quote rest p (string_ quote rest p).
Proof.
  intros Hquote Hopen. unfold string_.
  set (body := takeWhile (fun d => negb (Ascii.eqb d quote)) rest).
  pose proof (takeWhile_length (fun d => negb (Ascii.eqb d quote)) rest) as Hbody.
  pose proof (takeWhile_prefix (fun d => negb (Ascii.eqb d quote)) rest) as Hprefix.
  fold body in Hbody, Hprefix.
  case_bool_decide as Hlength; unfold scanned_as.
  - rewrite Hprefix. simpl.
    repeat split; try assumption; try reflexivity; try discriminate.
    intros Hclosed. rewrite Hopen in Hclosed. discriminate Hclosed.
  - destruct (takeWhile_stops _ _ Hlength) as (d & after & Hrest & Hd).
    fold body in Hrest.
    apply negb_false_iff, Ascii.eqb_eq in Hd. subst d.
    assert (Htake : take (S (length body)) rest = body ++ [quote]).
    { rewrite Hrest at 1. rewrite take_app_ge by lia.
      replace (S (length body) - length body) with 1 by lia. reflexivity. }
    rewrite Htake.
    repeat split; try assumption; try reflexivity; try discriminate.
    + apply (f_equal length) in Hrest. rewrite length_app in Hrest.
      simpl in Hrest. lia.
    + change (quote :: body ++ [quote]) with ((quote :: body) ++ [quote]).
      now rewrite advanceAll_app.
    + simpl. unfold text_of. now rewrite list_ascii_of_string_of_list_ascii.
    + intros Hty. now destruct Hty.
    + intros Hclosed. rewrite Hopen in Hclosed. discriminate Hclosed.
Qed.

Lemma number_scanned (c : ascii) (rest : list ascii) (p : pos) :
  isBlank c = false -> scanned_as c rest p (number c rest p).
Proof.
  intros Hc. unfold number.
  set (whole := takeWhile isDigit rest).
  pose proof (takeWhile_length isDigit rest) as Hwhole.
  pose proof (takeWhile_prefix isDigit rest) as Hprefix.
  pose proof (takeWhile_Forall isDigit rest) as Hdigits.
  fold whole in Hwhole, Hprefix, Hdigits.
  assert (Hplain : scanned_as c rest p (lexemeToken TokenType.NUMBER c whole p)).
  { apply lexemeToken_scanned; try assumption; try discriminate.
    intros _. eapply Forall_impl; [exact Hdigits|].
    intros x. apply isDigit_not_blank. }
  destruct (drop (length whole) rest) as [|dot [|d after]] eqn:Hdrop;
    try exact Hplain.
  destruct (Ascii.eqb_spec dot ".") as [->|]; cbn [andb]; [|exact Hplain].
  destruct (isDigit d) eqn:Hd; [|exact Hplain].
  pose proof (take_drop (length whole) rest) as Hrest.
  rewrite Hprefix, Hdrop in Hrest.
  set (fraction := takeWhile isDigit (d :: after)).
  pose proof (takeWhile_length isDigit (d :: after)) as Hfraction.
  pose proof (takeWhile_prefix isDigit (d :: after)) as Hfprefix.
  pose proof (takeWhile_Forall isDigit (d :: after)) as Hfdigits.
  fold fraction in Hfraction, Hfprefix, Hfdigits.
  apply lexemeToken_scanned; try assumption; try discriminate.
  - rewrite <- Hrest at 1. rewrite length_app. cbn [length].
    rewrite take_app_ge by lia.
    replace (length whole + S (length fraction) - length whole)
      with (S (length fraction)) by lia.
    cbn [firstn take]. now rewrite Hfprefix.
  - rewrite <- Hrest. rewrite !length_app. cbn [length] in *. lia.
  - intros _. apply Forall_app. split.
    + eapply Forall_impl; [exact Hdigits|]. intros x. apply isDigit_not_blank.
    + constructor; [reflexivity|].
      eapply Forall_impl; [exact Hfdigits|]. intros x. apply isDigit_not_blank.
Qed.

Lemma takeWhile_scanned (ty : TokenType.t) (c : ascii) (rest : list ascii)
    (p : pos) :
  ty <> TokenType.EOF -> ty <> TokenType.STRING -> isBlank c = false ->
  scanned_as c rest p (lexemeToken ty c (takeWhile isAlphaNumeric rest) p).
Proof.
  intros Heof Hstring Hc.
  apply lexemeToken_scanned; try assumption.
  - apply takeWhile_prefix.
  - apply takeWhile_length.
  - intros _. eapply Forall_impl; [apply takeWhile_Forall|].
    intros x. apply isAlphaNumeric_not_blank.
Qed.

Lemma single_scanned (ty : TokenType.t) (c : ascii) (rest : list ascii) (p : pos) :
  ty <> TokenType.EOF -> ty <> TokenType.STRING -> isBlank c = false ->
  scanned_as c rest p (lexemeToken ty c [] p).
Proof.
  intros Heof Hstring Hc.
  apply lexemeToken_scanned; simpl; try assumption; try reflexivity;
    [lia|auto].
Qed.

(** Every branch of [scanToken()] consumes a prefix of the source and
    leaves the cursor behind it. *)
Lemma scanToken_scanned (c : ascii) (rest : list ascii) (p : pos) :
  scanned_as c rest p (scanToken c rest p).
Proof.
  unfold scanToken.
  repeat match goal with
         | |- scanned_as _ _ _ (if Ascii.eqb c ?x then _ else _) =>
             destruct (Ascii.eqb_spec c x) as [->|?];
             [first [ apply single_scanned; [discriminate|discriminate|reflexivity]
                    | apply oneOrTwo_scanned;
                      [discriminate|discriminate|discriminate|discriminate
                      |reflexivity]
                    | apply string_scanned; reflexivity
                    | apply takeWhile_scanned; [discriminate|discriminate|reflexivity]
                    | idtac ]|]
         end.
  destruct (Ascii.eqb c " " || Ascii.eqb c (chr 13) || Ascii.eqb c (chr 9)
            || Ascii.eqb c newline) eqn:Hblank.
  { unfold scanned_as. rewrite take_0. simpl.
    repeat split; [lia|exact Hblank]. }
  assert (Hc : isBlank c = false) by exact Hblank.
  destruct (Ascii.eqb_spec c (chr 34)) as [->|?];
    [apply string_scanned; reflexivity|].
  destruct (Ascii.eqb_spec c "'") as [->|?];
    [apply string_scanned; reflexivity|].
  destruct (Ascii.eqb_spec c "/") as [->|?].
  { destruct rest as [|d after];
      [apply single_scanned; [discriminate|discriminate|reflexivity]|].
    destruct (Ascii.eqb_spec d "/") as [->|];
      [|apply single_scanned; [discriminate|discriminate|reflexivity]].
    apply lexemeToken_scanned; try discriminate; try reflexivity.
    - simpl. now rewrite takeWhile_prefix.
    - simpl. pose proof (takeWhile_length
                           (fun x => negb (Ascii.eqb x newline)) after). lia. }
  destruct (Ascii.eqb_spec c "$") as [->|?];
    [apply takeWhile_scanned; [discriminate|discriminate|reflexivity]|].
  destruct (isDigit c); [now apply number_scanned|].
  destruct (isAlpha c).
  - unfold identifier.
    apply takeWhile_scanned; [apply keyword_not_EOF|apply keyword_not_EOF|exact Hc].
  - apply single_scanned; [discriminate|discriminate|exact Hc].
Qed.

Lemma advanceAll_lineBreaks (cs : list ascii) (p : pos) :
  (advanceAll cs p).1 = (p.1 + Z.of_nat (lineBreaks cs))%Z.
Proof.
  revert p. induction cs as [|c cs IH]; intros p;
    [unfold lineBreaks; simpl; lia|].
  change (advanceAll (c :: cs) p) with (advanceAll cs (advancePos c p)).
  rewrite IH. unfold lineBreaks, advancePos. cbn [List.filter].
  rewrite (Ascii.eqb_sym newline c).
  destruct (Ascii.eqb c newline); cbn [fst snd length]; lia.
Qed.

Lemma advanceAll_one_line (cs : list ascii) (p : pos) :
  Forall (fun c => c <> newline) cs ->
  advanceAll cs p = (p.1, p.2 + Z.of_nat (length cs))%Z.
Proof.
  intros Hcs. revert p. induction Hcs as [|c cs Hc _ IH]; intros p.
  - simpl. destruct p as [l k]. simpl. f_equal. lia.
  - change (advanceAll (c :: cs) p) with (advanceAll cs (advancePos c p)).
    rewrite IH. unfold advancePos.
    destruct (Ascii.eqb_spec c newline) as [->|_]; [now destruct Hc|].
    simpl. f_equal. lia.
Qed.

(** The loop of [tokenize()] at the cursor [p], with the tokens of the
    rest given: what [scan_loop] says, in terms of [scanned_as]. *)
Lemma scan_step (c : ascii) (rest : list ascii) (p : pos) :
  exists tok more p',
    scanned_as c rest p (tok, more, p')
    /\ scan (c :: rest) 0 p
       = match tok with
         | Some t => t :: scan (drop more rest) 0 p'
         | None => scan (drop more rest) 0 p'
         end.
Proof.
  pose proof (scanToken_scanned c rest p) as Hscanned.
  pose proof (scan_loop c rest p) as Hloop.
  destruct (scanToken c rest p) as [[tok more] p'].
  exists tok, more, p'. split; [exact Hscanned|].
  rewrite Hloop. now destruct tok.
Qed.

(** The line of every token is a line of the source. *)
Lemma tokenize_lines (source : string) :
  Forall (fun t =>
            (1 <= line t
             <= 1 + Z.of_nat (lineBreaks (list_ascii_of_string source)))%Z)
    (tokenize source).
Proof.
  unfold tokenize.
  assert (Hscan : forall n cs p, length cs <= n ->
            Forall (fun t => (p.1 <= line t <= (advanceAll cs p).1)%Z)
              (scan cs 0 p)).
  { induction n as [|n IH]; intros [|c rest] p Hn; simpl in Hn; try lia;
      try (simpl; repeat constructor; simpl; lia).
    destruct (scan_step c rest p) as (tok & more & p' & Hscanned & ->).
    destruct Hscanned as (Hmore & Hp' & Htok).
    assert (Hend : advanceAll (drop more rest) p' = advanceAll (c :: rest) p).
    { rewrite Hp'. rewrite <- advanceAll_app. simpl.
      now rewrite take_drop. }
    pose proof (advanceAll_line (c :: take more rest) p) as Hline.
    rewrite <- Hp' in Hline.
    pose proof (advanceAll_line (drop more rest) p') as Hline'.
    rewrite Hend in Hline'.
    assert (Hnext : Forall (fun t => (p.1 <= line t
                                      <= (advanceAll (c :: rest) p).1)%Z)
                      (scan (drop more rest) 0 p')).
    { rewrite <- Hend.
      eapply Forall_impl; [apply IH; rewrite length_drop; lia|].
      intros t Ht. simpl in Ht. lia. }
    destruct tok as [t|]; [|exact Hnext].
    constructor; [|exact Hnext].
    destruct Htok as (_ & _ & _ & _ & _ & Ht & _). rewrite Ht. lia. }
  pose proof (Hscan (length (list_ascii_of_string source))
                (list_ascii_of_string source) (1, 1)%Z) as Hlines.
  rewrite advanceAll_lineBreaks in Hlines. apply Hlines. lia.
Qed.

(** X1. The token array ends with the only EOF token it holds; this token
    has an empty value and the position of the end of the source, whose line
    is one more than the number of line breaks. *)
Theorem tokenize_single_EOF (source : string) :
  exists front eof,
    tokenize source = front ++ [eof]
    /\ Forall (fun t => type t <> TokenType.EOF) front
    /\ type eof = TokenType.EOF
    /\ value_ eof = ""
    /\ (line eof, column eof)
       = advanceAll (list_ascii_of_string source) (1, 1)%Z
    /\ line eof = (1 + Z.of_nat (lineBreaks (list_ascii_of_string source)))%Z.
Proof.
  unfold tokenize.
  assert (Hscan : forall n cs p, length cs <= n ->
            exists front,
              scan cs 0 p
              = front ++ [{| type := TokenType.EOF; value_ := "";
                             line := (advanceAll cs p).1;
                             column := (advanceAll cs p).2 |}]
              /\ Forall (fun t => type t <> TokenType.EOF) front).
  { induction n as [|n IH]; intros [|c rest] p Hn; simpl in Hn; try lia;
      try (exists []; split; [reflexivity|constructor]).
    destruct (scan_step c rest p) as (tok & more & p' & Hscanned & ->).
    destruct Hscanned as (Hmore & Hp' & Htok).
    destruct (IH (drop more rest) p') as (front & Hfront & Hnone).
    { rewrite length_drop. lia. }
    assert (Hend : advanceAll (drop more rest) p' = advanceAll (c :: rest) p).
    { rewrite Hp'. rewrite <- advanceAll_app. simpl.
      now rewrite take_drop. }
    rewrite Hend in Hfront.
    destruct tok as [t|].
    - exists (t :: front). rewrite Hfront. split; [reflexivity|].
      constructor; [apply Htok|exact Hnone].
    - now exists front. }
  destruct (Hscan (length (list_ascii_of_string source))
              (list_ascii_of_string source) (1, 1)%Z) as (front & Hfront & Hnone);
    [lia|].
  eexists front, _. split; [exact Hfront|].
  split; [exact Hnone|]. simpl.
  repeat split.
  - now destruct (advanceAll (list_ascii_of_string source) (1, 1)%Z).
  - apply advanceAll_lineBreaks.
Qed.

(** X2. Nothing but blanks is dropped: in a source with no quote and no
    slash, the values of the tokens, one after the other, are the source
    without its spaces, tabs, carriage returns and line breaks. *)
Theorem tokenize_drops_blanks_only (source : string) :
  Forall (fun c => opensText c = false) (list_ascii_of_string source) ->
  valuesText (tokenize source)
  = List.filter (fun c => negb (isBlank c)) (list_ascii_of_string source).
Proof.
  unfold tokenize. generalize (1, 1)%Z.
  assert (Hscan : forall n cs p, length cs <= n ->
            Forall (fun c => opensText c = false) cs ->
            valuesText (scan cs 0 p)
            = List.filter (fun c => negb (isBlank c)) cs).
  { induction n as [|n IH]; intros [|c rest] p Hn Hplain; simpl in Hn;
      try lia; try reflexivity.
    destruct (scan_step c rest p) as (tok & more & p' & Hscanned & ->).
    destruct Hscanned as (Hmore & Hp' & Htok).
    apply Forall_cons in Hplain as [Hc Hrest].
    assert (Hnext : valuesText (scan (drop more rest) 0 p')
                    = List.filter (fun c => negb (isBlank c)) (drop more rest)).
    { apply IH; [rewrite length_drop; lia|]. now apply Forall_drop. }
    destruct tok as [t|].
    - destruct Htok as (Hblank & _ & Hstring & Hvalue & Hlexeme & _).
      assert (Hty : type t <> TokenType.STRING).
      { intros Hty. apply Hstring in Hty as [Hopen _]. congruence. }
      unfold valuesText in *. simpl. rewrite Hnext, (Hvalue Hty).
      unfold text_of. rewrite list_ascii_of_string_of_list_ascii.
      rewrite Hblank. simpl. f_equal.
      rewrite <- (take_drop more rest) at 3. rewrite List.filter_app. f_equal.
      specialize (Hlexeme Hc). apply Forall_cons in Hlexeme as [_ Hlexeme].
      revert Hlexeme. generalize (take more rest). clear.
      intros xs Hxs. induction Hxs as [|x xs Hx _ IHxs]; [reflexivity|].
      simpl. rewrite Hx. simpl. f_equal. exact IHxs.
    - destruct Htok as [Hblank ->]. rewrite drop_0 in Hnext.
      simpl. rewrite Hblank. simpl. exact Hnext. }
  intros p. now apply Hscan with (n := length (list_ascii_of_string source)).
Qed.

(** X3. A string literal: from an opening quote (double or single) the
    tokenizer reads up to the next quote of the same kind, whatever stands
    in between, and adds one STRING token whose value is the text between the
    quotes; when no such quote follows, it adds one UNKNOWN token holding the
    rest of the source, opening quote included, and stops. *)
Theorem string_literal (q : ascii) (body rest : list ascii) (p : pos) :
  q = chr 34 \/ q = "'"%char ->
  Forall (fun d => d <> q) body ->
  let closed := advanceAll (q :: body ++ [q]) p in
  let open := advanceAll (q :: body) p in
  scan (q :: body ++ q :: rest) 0 p
  = {| type := TokenType.STRING; value_ := text_of body; line := closed.1;
       column := (closed.2 - Z.of_nat (length body + 2))%Z |}
    :: scan rest 0 closed
  /\ scan (q :: body) 0 p
     = [{| type := TokenType.UNKNOWN; value_ := text_of (q :: body);
           line := open.1;
           column := (open.2 - Z.of_nat (length body + 1))%Z |};
        {| type := TokenType.EOF; value_ := ""; line := open.1;
           column := open.2 |}].
Proof.
  intros Hq Hbody closed open.
  assert (Hpred : Forall (fun d => negb (Ascii.eqb d q) = true) body).
  { eapply Forall_impl; [exact Hbody|]. intros d Hd. simpl.
    now destruct (Ascii.eqb_spec d q). }
  assert (Hscan : forall after, scanToken q after p = string_ q after p).
  { intros after. destruct Hq as [-> | ->]; reflexivity. }
  split.
  - rewrite scan_loop, Hscan. unfold string_.
    rewrite (takeWhile_all _ body (q :: rest) Hpred)
      by (cbv beta iota; now rewrite Ascii.eqb_refl).
    rewrite bool_decide_eq_false_2
      by (rewrite length_app; simpl; lia).
    replace (drop (S (length body)) (body ++ q :: rest)) with rest.
    2: { replace (body ++ q :: rest) with ((body ++ [q]) ++ rest)
           by now rewrite <- app_assoc.
         rewrite drop_app_length'; [reflexivity|].
         rewrite length_app. simpl. lia. }
    unfold addToken, closed.
    assert (Hclosed : advanceAll (q :: body ++ [q]) p
                      = advancePos q (advanceAll (q :: body) p)).
    { change (q :: body ++ [q]) with ((q :: body) ++ [q]).
      now rewrite advanceAll_app. }
    rewrite Hclosed.
    replace (length (q :: body ++ [q])) with (length body + 2)
      by (simpl; rewrite length_app; simpl; lia).
    reflexivity.
  - pose proof (takeWhile_all _ body [] Hpred I) as Hwhole.
    rewrite app_nil_r in Hwhole.
    rewrite scan_loop, Hscan. unfold string_. rewrite Hwhole.
    rewrite bool_decide_eq_true_2 by reflexivity.
    rewrite drop_all. unfold addToken, open. simpl.
    repeat f_equal. lia.
Qed.

(** X4. Every token stands at its place in the source: its lexeme occurs
    there, the token carries the line on which the lexeme ends, its column
    is the column behind the lexeme minus the length of the lexeme (also for
    a string literal that spans lines) and, unless the lexeme spans lines,
    line and column are those of its first character. *)
Theorem tokens_are_located (source : string) :
  Forall (located (list_ascii_of_string source)) (tokenize source).
Proof.
  unfold tokenize.
  assert (Hscan : forall n pre cs, length cs <= n ->
            Forall (located (pre ++ cs))
              (scan cs 0 (advanceAll pre (1, 1)%Z))).
  { induction n as [|n IH]; intros pre [|c rest] Hn; simpl in Hn; try lia.
    - simpl. constructor; [|constructor].
      exists pre, [], []. cbv zeta. simpl. rewrite !app_nil_r.
      split; [reflexivity|]. split; [now left|]. split; [reflexivity|].
      split; [lia|]. intros _. now destruct (advanceAll pre (1, 1)%Z).
    - simpl. constructor; [|constructor].
      exists pre, [], []. cbv zeta. simpl. rewrite !app_nil_r.
      split; [reflexivity|]. split; [now left|]. split; [reflexivity|].
      split; [lia|]. intros _. now destruct (advanceAll pre (1, 1)%Z).
    - destruct (scan_step c rest (advanceAll pre (1, 1)%Z))
        as (tok & more & p' & Hscanned & ->).
      destruct Hscanned as (Hmore & Hp' & Htok).
      set (lexeme := c :: take more rest) in *.
      assert (Hsplit : pre ++ c :: rest = (pre ++ lexeme) ++ drop more rest).
      { unfold lexeme. rewrite <- app_assoc. simpl. now rewrite take_drop. }
      assert (Hnext : Forall (located (pre ++ c :: rest))
                        (scan (drop more rest) 0 p')).
      { rewrite Hsplit, Hp', <- advanceAll_app.
        apply IH. rewrite length_drop. lia. }
      destruct tok as [t|]; [|exact Hnext].
      constructor; [|exact Hnext].
      destruct Htok as (_ & _ & Hstring & Hvalue & _ & Hline & Hcolumn).
      exists pre, lexeme, (drop more rest). cbv zeta.
      split; [now rewrite app_assoc|].
      split; [|split; [|split]].
      + destruct (TokenType.eqb (type t) TokenType.STRING) eqn:Hty;
          [apply TokenType_eqb_eq in Hty
          |assert (Hother : type t <> TokenType.STRING)
             by (intros Heq; rewrite Heq in Hty; discriminate Hty);
           clear Hty; rename Hother into Hty].
        * right. exists c. split; [exact Hty|]. now apply Hstring.
        * left. rewrite (Hvalue Hty). unfold text_of.
          now rewrite list_ascii_of_string_of_list_ascii.
      + now rewrite Hline, Hp', advanceAll_app.
      + now rewrite Hcolumn, Hp', advanceAll_app.
      + intros Hone. rewrite Hline, Hcolumn, Hp'.
        rewrite (advanceAll_one_line lexeme _ Hone). simpl.
        destruct (advanceAll pre (1, 1)%Z) as [l k]. simpl. f_equal. lia. }
  apply (Hscan (length (list_ascii_of_string source)) []). lia.
Qed.

End TokenizerProperties.

Lemma tokenize_drops_blanks_only_witness :
  valuesText (Tokenizer.tokenize "USE a.b QUERY q $n SUM RETURN")
  = list_ascii_of_string "USEa.bQUERYq$nSUMRETURN".
Proof.
  apply (tokenize_drops_blanks_only "USE a.b QUERY q $n SUM RETURN").
  repeat constructor.
Defined.

Lemma string_literal_witness :
  Tokenizer.scan (list_ascii_of_string "'a b' x") 0 (1, 1)%Z
  = {| type := TokenType.STRING; value_ := "a b"; line := 1; column := 1 |}
    :: Tokenizer.scan (list_ascii_of_string " x") 0 (1, 6)%Z.
Proof.
  apply (string_literal "'" (list_ascii_of_string "a b")
           (list_ascii_of_string " x") (1, 1)%Z).
  - now right.
  - repeat constructor; discriminate.
Defined.

Section ParserCursor.
Context `{JSHost}.
Import Parser.
Local Open Scope list_scope.

(** ** The cursor moves forward, and errors name a line of the source *)

Lemma terminated_peek (ts : list Token) : terminated ts -> In (peek ts) ts.
Proof.
  intros (front & eof & -> & _). destruct front; simpl; now left.
Qed.

Lemma terminated_advance (ts : list Token) :
  terminated ts -> terminated (advance ts).
Proof.
  intros Hts. unfold advance. destruct (isAtEnd ts) eqn:Hend; [exact Hts|].
  destruct Hts as (front & eof & -> & Heof).
  destruct front as [|t front].
  - unfold isAtEnd in Hend. simpl in Hend. rewrite Heof in Hend.
    discriminate Hend.
  - simpl. now exists front, eof.
Qed.

Lemma suffix_advance (ts : list Token) : suffix (advance ts) ts.
Proof.
  unfold advance. destruct (isAtEnd ts); [reflexivity|].
  destruct ts as [|t ts]; [reflexivity|]. simpl. now apply suffix_cons_r.
Qed.

Lemma suffix_In (t : Token) (ts' ts : list Token) :
  suffix ts' ts -> In t ts' -> In t ts.
Proof. intros [k ->] Ht. apply in_or_app. now right. Qed.

Lemma parses_ok {A} (ts ts' : list Token) (x : A) :
  suffix ts' ts -> terminated ts' -> parses ts (Ok (x, ts')).
Proof. now split. Qed.

Lemma parses_suffix {A} (ts1 ts : list Token) (r : result (A * list Token)) :
  suffix ts1 ts -> parses ts1 r -> parses ts r.
Proof.
  intros Hsuffix. destruct r as [[x ts']|e]; simpl.
  - intros [Hts' Hterminated]. split; [now transitivity ts1|assumption].
  - intros [->|(t & message & Ht & ->)]; [now left|right].
    exists t, message. split; [now apply (suffix_In t ts1)|reflexivity].
Qed.

Lemma parses_bind {A B} (ts : list Token) (m : result (A * list Token))
    (k : A * list Token -> result (B * list Token)) :
  parses ts m ->
  (forall x ts1, suffix ts1 ts -> terminated ts1 -> parses ts1 (k (x, ts1))) ->
  parses ts (bind m k).
Proof.
  destruct m as [[x ts1]|e]; simpl; [|auto].
  intros [Hsuffix Hterminated] Hk.
  apply (parses_suffix ts1); [assumption|now apply Hk].
Qed.

Lemma parses_syntaxError {A} (ts : list Token) (message : string) :
  terminated ts -> parses (A := A) ts (syntaxError ts message).
Proof.
  intros Hts. right. exists (peek ts), message.
  split; [now apply terminated_peek|reflexivity].
Qed.

Lemma parses_advance {A} (ts : list Token) (x : A) :
  terminated ts -> parses ts (Ok (x, advance ts)).
Proof.
  intros Hts. split; [apply suffix_advance|now apply terminated_advance].
Qed.

Lemma match_parses (ty : TokenType.t) (ts ts' : list Token) :
  terminated ts -> match_ ty ts = Some ts' -> suffix ts' ts /\ terminated ts'.
Proof.
  intros Hts. unfold match_. destruct (check ty ts); [|discriminate].
  intros [= <-]. split; [apply suffix_advance|now apply terminated_advance].
Qed.

Lemma consume_parses (ty : TokenType.t) (message : string) (ts : list Token) :
  terminated ts -> parses ts (consume ty message ts).
Proof.
  intros Hts. unfold consume.
  destruct (check ty ts); [now apply parses_advance|now apply parses_syntaxError].
Qed.

Lemma parseFieldList_loop_parses (fuel : nat) (ts : list Token) :
  terminated ts -> parses ts (parseFieldList_loop fuel ts).
Proof.
  revert ts. induction fuel as [|fuel IH]; intros ts Hts; [now left|]. simpl.
  apply parses_bind; [now apply consume_parses|].
  intros tok ts1 _ Hts1.
  destruct (match_ TokenType.COMMA ts1) as [ts2|] eqn:Hcomma;
    [|now apply parses_ok].
  apply match_parses in Hcomma as [Hsuffix Hts2]; [|assumption].
  apply (parses_suffix ts2); [assumption|].
  apply parses_bind; [now apply IH|].
  intros more ts3 _ Hts3. now apply parses_ok.
Qed.

Lemma parseFieldList_parses (fuel : nat) (ts : list Token) :
  terminated ts -> parses ts (parseFieldList fuel ts).
Proof.
  intros Hts. unfold parseFieldList.
  destruct (check TokenType.RIGHT_BRACKET ts);
    [now apply parses_ok|now apply parseFieldList_loop_parses].
Qed.

Lemma parseUsePath_loop_parses (fuel : nat) (xs : list string) (ts : list Token) :
  terminated ts -> parses ts (parseUsePath_loop fuel xs ts).
Proof.
  revert xs ts. induction fuel as [|fuel IH]; intros xs ts Hts; [now left|]. simpl.
  destruct (match_ TokenType.DOT ts) as [ts1|] eqn:Hdot;
    [|now apply parses_ok].
  apply match_parses in Hdot as [Hsuffix Hts1]; [|assumption].
  apply (parses_suffix ts1); [assumption|].
  destruct (check TokenType.LEFT_BRACKET ts1).
  - apply parses_bind.
    { apply (parses_suffix (advance ts1)); [apply suffix_advance|].
      apply parseFieldList_parses. now apply terminated_advance. }
    intros fs ts2 Hsuffix2 Hts2.
    apply parses_bind; [now apply consume_parses|].
    intros rb ts3 Hsuffix3 Hts3. now apply parses_ok.
  - destruct (check TokenType.IDENTIFIER ts1); [|now apply parses_syntaxError].
    apply (parses_suffix (advance ts1)); [apply suffix_advance|].
    apply IH. now apply terminated_advance.
Qed.

Lemma parseUsePath_parses (fuel : nat) (ts : list Token) :
  terminated ts -> parses ts (parseUsePath fuel ts).
Proof.
  intros Hts. unfold parseUsePath.
  apply parses_bind.
  { destruct (check TokenType.IDENTIFIER ts);
      [now apply consume_parses|now apply parses_syntaxError]. }
  intros first ts1 Hsuffix1 Hts1.
  apply parses_bind; [now apply parseUsePath_loop_parses|].
  intros [xs fs] ts2 Hsuffix2 Hts2. now apply parses_ok.
Qed.

Lemma parseValue_parses (ts : list Token) :
  terminated ts -> parses ts (parseValue ts).
Proof.
  intros Hts. unfold parseValue.
  repeat match goal with
         | |- parses _ (if ?c then _ else _) => destruct c
         end;
    first [now apply parses_advance|now apply parses_syntaxError].
Qed.

Lemma parseComparisonOperator_parses (ts : list Token) :
  terminated ts -> parses ts (parseComparisonOperator ts).
Proof.
  intros Hts. unfold parseComparisonOperator.
  repeat match goal with
         | |- parses _ (if ?c then _ else _) => destruct c
         end;
    first [now apply parses_advance|now apply parses_syntaxError].
Qed.

Lemma parseCondition_parses (fuel : nat) :
  forall ts, terminated ts ->
    parses ts (parseCondition fuel ts)
    /\ parses ts (parseLogicalOr fuel ts)
    /\ (forall expr, parses ts (parseLogicalOr_loop fuel expr ts))
    /\ parses ts (parseLogicalAnd fuel ts)
    /\ (forall expr, parses ts (parseLogicalAnd_loop fuel expr ts))
    /\ parses ts (parseUnary fuel ts)
    /\ parses ts (parsePrimary fuel ts).
Proof.
  induction fuel as [|fuel IH]; intros ts Hts;
    [repeat split; intros; now left|].
  repeat split.
  - simpl. now apply IH.
  - simpl. apply parses_bind; [now apply IH|].
    intros expr ts1 _ Hts1. now apply IH.
  - intros expr. simpl.
    destruct (match_ TokenType.PIPE ts) as [ts1|] eqn:Hpipe;
      [|now apply parses_ok].
    apply match_parses in Hpipe as [Hsuffix Hts1]; [|assumption].
    apply (parses_suffix ts1); [assumption|].
    apply parses_bind; [now apply IH|].
    intros rhs ts2 _ Hts2. now apply IH.
  - simpl. apply parses_bind; [now apply IH|].
    intros expr ts1 _ Hts1. now apply IH.
  - intros expr. simpl.
    destruct (match_ TokenType.AMPERSAND ts) as [ts1|] eqn:Hamp;
      [|now apply parses_ok].
    apply match_parses in Hamp as [Hsuffix Hts1]; [|assumption].
    apply (parses_suffix ts1); [assumption|].
    apply parses_bind; [now apply IH|].
    intros rhs ts2 _ Hts2. now apply IH.
  - simpl.
    destruct (match_ TokenType.NOT ts) as [ts1|] eqn:Hnot; [|now apply IH].
    apply match_parses in Hnot as [Hsuffix Hts1]; [|assumption].
    apply (parses_suffix ts1); [assumption|].
    apply parses_bind; [now apply IH|].
    intros condition ts2 _ Hts2. now apply parses_ok.
  - simpl.
    destruct (match_ TokenType.LEFT_PAREN ts) as [ts1|] eqn:Hparen.
    + apply match_parses in Hparen as [Hsuffix Hts1]; [|assumption].
      apply (parses_suffix ts1); [assumption|].
      apply parses_bind; [now apply IH|].
      intros expr ts2 _ Hts2.
      apply parses_bind; [now apply consume_parses|].
      intros rp ts3 _ Hts3. now apply parses_ok.
    + apply parses_bind; [now apply consume_parses|].
      intros fieldTok ts1 _ Hts1.
      apply parses_bind; [now apply parseComparisonOperator_parses|].
      intros operator ts2 _ Hts2.
      apply parses_bind; [now apply parseValue_parses|].
      intros v ts3 _ Hts3. now apply parses_ok.
Qed.

Lemma parseWhere_parses (fuel : nat) (ts : list Token) :
  terminated ts -> parses ts (parseWhere fuel ts).
Proof.
  intros Hts. unfold parseWhere.
  destruct (match_ TokenType.WHERE ts) as [ts1|] eqn:Hwhere;
    [|now apply parses_ok].
  apply match_parses in Hwhere as [Hsuffix Hts1]; [|assumption].
  apply (parses_suffix ts1); [assumption|].
  apply parses_bind; [now apply consume_parses|].
  intros lp ts2 _ Hts2.
  apply parses_bind; [now apply parseCondition_parses|].
  intros c ts3 _ Hts3.
  apply parses_bind; [now apply consume_parses|].
  intros rp ts4 _ Hts4. now apply parses_ok.
Qed.

Lemma parseSelectOperation_parses (fuel : nat) (ts : list Token) :
  terminated ts -> parses ts (parseSelectOperation fuel ts).
Proof.
  intros Hts. unfold parseSelectOperation.
  assert (Hfields : forall ts0, terminated ts0 ->
            parses ts0
              match match_ TokenType.ASTERISK ts0 with
              | Some ts' => Ok (AllFields, ts')
              | None =>
                  match match_ TokenType.LEFT_BRACKET ts0 with
                  | Some ts' =>
                      let* '(l, ts'') := parseFieldList fuel ts' in
                      let* '(_, ts''') :=
                        consume TokenType.RIGHT_BRACKET
                          "Expected closing ']' after fields" ts'' in
                      Ok (FieldList l, ts''')
                  | None =>
                      if check TokenType.IDENTIFIER ts0
                      then Ok (FieldList [value_ (peek ts0)], advance ts0)
                      else Ok (AllFields, ts0)
                  end
              end).
  { intros ts0 Hts0.
    destruct (match_ TokenType.ASTERISK ts0) as [ts1|] eqn:Hstar.
    { apply match_parses in Hstar as [Hsuffix Hts1]; [|assumption].
      now apply parses_ok. }
    destruct (match_ TokenType.LEFT_BRACKET ts0) as [ts1|] eqn:Hbracket.
    { apply match_parses in Hbracket as [Hsuffix Hts1]; [|assumption].
      apply (parses_suffix ts1); [assumption|].
      apply parses_bind; [now apply parseFieldList_parses|].
      intros l ts2 _ Hts2.
      apply parses_bind; [now apply consume_parses|].
      intros rb ts3 _ Hts3. now apply parses_ok. }
    destruct (check TokenType.IDENTIFIER ts0);
      [now apply parses_advance|now apply parses_ok]. }
  assert (Hrest : forall each_ ts0, terminated ts0 ->
            parses ts0
              (let* '(fs, ts1) :=
                 match match_ TokenType.ASTERISK ts0 with
                 | Some ts' => Ok (AllFields, ts')
                 | None =>
                     match match_ TokenType.LEFT_BRACKET ts0 with
                     | Some ts' =>
                         let* '(l, ts'') := parseFieldList fuel ts' in
                         let* '(_, ts''') :=
                           consume TokenType.RIGHT_BRACKET
                             "Expected closing ']' after fields" ts'' in
                         Ok (FieldList l, ts''')
                     | None =>
                         if check TokenType.IDENTIFIER ts0
                         then Ok (FieldList [value_ (peek ts0)], advance ts0)
                         else Ok (AllFields, ts0)
                     end
                 end in
               let* '(c, ts2) := parseWhere fuel ts1 in
               Ok ({| fields := fs; conditions := c; each := Some each_ |}, ts2))).
  { intros each_ ts0 Hts0.
    apply parses_bind; [now apply Hfields|].
    intros fs ts1 _ Hts1.
    apply parses_bind; [now apply parseWhere_parses|].
    intros c ts2 _ Hts2. now apply parses_ok. }
  destruct (match_ TokenType.EACH ts) as [ts0|] eqn:Heach.
  - apply match_parses in Heach as [Hsuffix Hts0]; [|assumption].
    apply (parses_suffix ts0); [assumption|]. now apply Hrest.
  - now apply Hrest.
Qed.

Lemma parseStarSelect_parses (fuel : nat) (ts : list Token) :
  terminated ts -> parses ts (parseStarSelect fuel ts).
Proof.
  intros Hts. unfold parseStarSelect.
  apply (parses_suffix (advance ts)); [apply suffix_advance|].
  apply parses_bind;
    [apply parseWhere_parses; now apply terminated_advance|].
  intros c ts1 _ Hts1. now apply parses_ok.
Qed.

Lemma parsePercentOfOperand_parses (fuel : nat) (ts : list Token) :
  terminated ts -> parses ts (parsePercentOfOperand fuel ts).
Proof.
  intros Hts. unfold parsePercentOfOperand.
  destruct (check TokenType.SELECT ts);
    [now apply parseStarSelect_parses|now apply parseSelectOperation_parses].
Qed.

Lemma parseCountOperation_parses (fuel : nat) (ts : list Token) :
  terminated ts -> parses ts (parseCountOperation fuel ts).
Proof.
  intros Hts. unfold parseCountOperation.
  destruct (check TokenType.SELECT ts).
  - apply parses_bind; [now apply parseStarSelect_parses|].
    intros s ts1 _ Hts1. now apply parses_ok.
  - apply parses_bind; [now apply parseSelectOperation_parses|].
    intros s ts1 _ Hts1. now apply parses_ok.
Qed.

Lemma parsePercentOfOperation_parses (fuel : nat) (ts : list Token) :
  terminated ts -> parses ts (parsePercentOfOperation fuel ts).
Proof.
  intros Hts. unfold parsePercentOfOperation.
  apply parses_bind; [now apply parsePercentOfOperand_parses|].
  intros numerator ts1 _ Hts1.
  set (ts2 := if commaThenSelect ts
              then default ts1 (match_ TokenType.COMMA ts1) else ts1).
  assert (Hts2 : suffix ts2 ts1 /\ terminated ts2).
  { unfold ts2. destruct (commaThenSelect ts); [|now split].
    destruct (match_ TokenType.COMMA ts1) as [ts'|] eqn:Hcomma; simpl;
      [now apply (match_parses TokenType.COMMA)|now split]. }
  destruct Hts2 as [Hsuffix Hts2].
  apply (parses_suffix ts2); [assumption|].
  apply parses_bind; [now apply parsePercentOfOperand_parses|].
  intros denominator ts3 _ Hts3. now apply parses_ok.
Qed.

Lemma parseTwoVariables_parses (first second : string) (ts : list Token) :
  terminated ts -> parses ts (parseTwoVariables first second ts).
Proof.
  intros Hts. unfold parseTwoVariables.
  apply parses_bind; [now apply consume_parses|].
  intros a ts1 _ Hts1.
  apply parses_bind; [now apply consume_parses|].
  intros b ts2 _ Hts2. now apply parses_ok.
Qed.

Lemma parseArithmetic_parses (ts : list Token) :
  terminated ts ->
  parses ts (parseDivideOperation ts)
  /\ parses ts (parseMultiplyOperation ts)
  /\ parses ts (parseSubtractOperation ts).
Proof.
  intros Hts.
  unfold parseDivideOperation, parseMultiplyOperation, parseSubtractOperation.
  repeat split;
    (apply parses_bind; [now apply parseTwoVariables_parses|];
     intros [a b] ts1 _ Hts1; now apply parses_ok).
Qed.

Lemma parseVariableAssignment_parses (fuel : nat) (ts : list Token) :
  terminated ts -> parses ts (parseVariableAssignment fuel ts).
Proof.
  intros Hts. unfold parseVariableAssignment.
  apply parses_bind; [now apply consume_parses|].
  intros var ts1 _ Hts1.
  pose proof (terminated_advance ts1 Hts1) as Hadvance.
  apply parses_bind.
  - repeat match goal with
           | |- parses _ (if ?c then _ else _) => destruct c
           end;
      try (now apply parses_advance).
    + apply (parses_suffix (advance ts1)); [apply suffix_advance|].
      now apply parseCountOperation_parses.
    + apply (parses_suffix (advance ts1)); [apply suffix_advance|].
      apply parses_bind; [now apply parseSelectOperation_parses|].
      intros s ts' _ Hts'. now apply parses_ok.
    + now apply parses_syntaxError.
  - intros operation ts3 _ Hts3. now apply parses_ok.
Qed.

Lemma parseOperation_parses (fuel : nat) (ts : list Token) :
  terminated ts -> parses ts (parseOperation fuel ts).
Proof.
  intros Hts. unfold parseOperation. cbv zeta.
  pose proof (terminated_advance ts Hts) as Hadvance.
  destruct (parseArithmetic_parses (advance ts) Hadvance)
    as (Hdivide & Hmultiply & Hsubtract).
  repeat match goal with
         | |- parses _ (if ?c then _ else _) => destruct c
         end;
    first
      [ now apply parses_advance
      | apply parses_bind;
        [now apply parseVariableAssignment_parses
        |intros op ts' _ Hts'; now apply parses_ok]
      | apply (parses_suffix (advance ts)); [apply suffix_advance|];
        apply parses_bind;
        [first [ now apply parseSelectOperation_parses
               | now apply parseCountOperation_parses
               | now apply parsePercentOfOperation_parses
               | assumption ]
        |intros op ts' _ Hts'; now apply parses_ok] ].
Qed.

Lemma parseQueryBlock_loop_parses (fuel : nat) (ops : list OperationNode)
    (ts : list Token) :
  terminated ts -> parses ts (parseQueryBlock_loop fuel ops ts).
Proof.
  revert ops ts. induction fuel as [|fuel IH]; intros ops ts Hts; [now left|].
  simpl.
  destruct (negb (check TokenType.RETURN ts) && negb (check TokenType.QUERY ts)
            && negb (isAtEnd ts)); [|now apply parses_ok].
  apply parses_bind; [now apply parseOperation_parses|].
  intros op ts1 _ Hts1. now apply IH.
Qed.

Lemma parseQueryBlock_parses (fuel : nat) (ts : list Token) :
  terminated ts -> parses ts (parseQueryBlock fuel ts).
Proof.
  intros Hts. unfold parseQueryBlock.
  apply parses_bind; [now apply consume_parses|].
  intros nameTok ts1 _ Hts1.
  apply parses_bind; [now apply parseQueryBlock_loop_parses|].
  intros ops ts2 _ Hts2.
  apply parses_bind; [now apply consume_parses|].
  intros ret ts3 _ Hts3. now apply parses_ok.
Qed.

Lemma parse_loop_errors (fuel : nat) (program : ProgramNode) (ts : list Token)
    (e : exn) :
  terminated ts -> parse_loop fuel program ts = Throw e ->
  e = OutOfFuel \/ isSyntaxError ts e.
Proof.
  revert program ts. induction fuel as [|fuel IH]; intros program ts Hts; simpl;
    [intros [= <-]; now left|].
  destruct (isAtEnd ts); [discriminate|].
  pose proof (terminated_advance ts Hts) as Hadvance.
  assert (Hskip : forall program',
            parse_loop fuel program' (advance ts) = Throw e ->
            e = OutOfFuel \/ isSyntaxError ts e).
  { intros program' Hloop. apply IH in Hloop as [->|(t & message & Ht & ->)];
      [now left| |assumption].
    right. exists t, message.
    split; [now apply (suffix_In t (advance ts)), Ht; apply suffix_advance|].
    reflexivity. }
  assert (Hnode : forall A (m : result (A * list Token))
                         (k : A -> ProgramNode),
            parses (advance ts) m ->
            (let* '(x, ts1) := m in parse_loop fuel (k x) ts1) = Throw e ->
            e = OutOfFuel \/ isSyntaxError ts e).
  { intros A m k Hm. destruct m as [[x ts1]|e']; simpl.
    - destruct Hm as [Hsuffix Hts1]. intros Hloop.
      apply IH in Hloop as [->|(t & message & Ht & ->)]; [now left| |assumption].
      right. exists t, message. split; [|reflexivity].
      apply (suffix_In t (advance ts)); [apply suffix_advance|].
      now apply (suffix_In t ts1).
    - intros [= <-]. destruct Hm as [->|(t & message & Ht & ->)]; [now left|].
      right. exists t, message. split; [|reflexivity].
      now apply (suffix_In t (advance ts)); [apply suffix_advance|]. }
  destruct (check TokenType.COMMENT ts); [apply Hskip|].
  destruct (check TokenType.USE ts).
  { apply (Hnode _ (parseUsePath fuel (advance ts))
             (fun u => {| usePaths := usePaths program ++ [u];
                          queryBlocks := queryBlocks program |})).
    now apply parseUsePath_parses. }
  destruct (check TokenType.QUERY ts); [|apply Hskip].
  apply (Hnode _ (parseQueryBlock fuel (advance ts))
           (fun q => {| usePaths := usePaths program;
                        queryBlocks := queryBlocks program ++ [q] |})).
  now apply parseQueryBlock_parses.
Qed.

Lemma check_cons (ty : TokenType.t) (ts : list Token) :
  check ty ts = true -> ts = peek ts :: advance ts /\ type (peek ts) = ty.
Proof.
  unfold check, advance. destruct (isAtEnd ts) eqn:Hend; [discriminate|].
  intros Hty. apply TokenType_eqb_eq in Hty.
  destruct ts as [|t ts]; [discriminate Hend|]. now split.
Qed.

(** X5. [createQuery] fails with a syntax error only: the message is
    [Line n: ...] where [n] is the line of a token of the query text, between
    1 and one more than its number of line breaks. *)
Theorem createQuery_throws_syntax_errors (queryText : string) (e : exn) :
  SSOQL.createQuery queryText = Throw e ->
  exists n message,
    e = Error ("Line " ++ pretty n ++ ": " ++ message)
    /\ (1 <= n <= 1 + Z.of_nat (lineBreaks (list_ascii_of_string queryText)))%Z.
Proof.
  unfold SSOQL.createQuery, SSOQL.parseQuery. intros Hquery.
  pose proof (parse_fuel_suffices (Tokenizer.tokenize queryText)) as Hfuel.
  destruct (parse (Tokenizer.tokenize queryText)) as [ast|e'] eqn:Hparse;
    simpl in Hquery; [discriminate|].
  injection Hquery as <-.
  unfold parse in Hparse, Hfuel.
  destruct (parse_loop_errors _ _ _ _ (tokenize_ends_with_EOF queryText) Hparse)
    as [->|(t & message & Ht & ->)]; [now destruct Hfuel|].
  exists (line t), message. split; [reflexivity|].
  pose proof (tokenize_lines queryText) as Hlines.
  rewrite List.Forall_forall in Hlines. now apply Hlines.
Qed.

(** X6. Text outside USE declarations and QUERY blocks is skipped without
    an error: a token array that holds no USE and no QUERY token parses to
    the empty program. *)
Theorem parse_skips_other_tokens (tokens : list Token) :
  Forall (fun t => type t <> TokenType.USE /\ type t <> TokenType.QUERY) tokens ->
  parse tokens = Ok emptyProgram.
Proof.
  intros Htokens. unfold parse, fuelFor.
  assert (Hloop : forall fuel, length tokens < fuel ->
            parse_loop fuel emptyProgram tokens = Ok emptyProgram).
  { induction Htokens as [|t ts [Huse Hquery] _ IH]; intros [|fuel] Hfuel;
      simpl in Hfuel; try lia; [reflexivity|].
    simpl. destruct (isAtEnd (t :: ts)) eqn:Hend; [reflexivity|].
    assert (Hadvance : advance (t :: ts) = ts).
    { unfold advance. now rewrite Hend. }
    assert (Hcheck : forall ty, type t <> ty -> check ty (t :: ts) = false).
    { intros ty Hty. unfold check. rewrite Hend. simpl.
      now apply TokenType_eqb_neq. }
    rewrite (Hcheck _ Huse), (Hcheck _ Hquery), Hadvance.
    destruct (check TokenType.COMMENT (t :: ts)); apply IH; lia. }
  apply Hloop. lia.
Qed.

(** X7. A query block is closed by RETURN: when [parseQueryBlock] succeeds,
    the last token it consumed is a RETURN token, which follows the name of
    the block and its operations. *)
Theorem query_block_ends_with_RETURN (fuel : nat) (ts ts' : list Token)
    (q : QueryBlockNode) :
  terminated ts ->
  parseQueryBlock fuel ts = Ok (q, ts') ->
  exists nameToken between ret,
    ts = nameToken :: between ++ ret :: ts'
    /\ type nameToken = TokenType.IDENTIFIER
    /\ value_ nameToken = name q
    /\ type ret = TokenType.RETURN.
Proof.
  intros Hts. unfold parseQueryBlock, consume.
  destruct (check TokenType.IDENTIFIER ts) eqn:Hname; [|discriminate]. simpl.
  apply check_cons in Hname as [Hsplit Hname].
  pose proof (parseQueryBlock_loop_parses fuel [] (advance ts)
                (terminated_advance ts Hts)) as Hloop.
  destruct (parseQueryBlock_loop fuel [] (advance ts)) as [[ops ts2]|];
    [|discriminate].
  simpl. destruct Hloop as [[between Hbetween] Hts2].
  destruct (check TokenType.RETURN ts2) eqn:Hreturn; [|discriminate]. simpl.
  apply check_cons in Hreturn as [Hsplit2 Hreturn].
  intros [= <- <-].
  exists (peek ts), between, (peek ts2).
  repeat split; try assumption.
  now rewrite <- Hsplit2, <- Hbetween.
Qed.

End ParserCursor.

Lemma createQuery_throws_syntax_errors_witness :
  exists n message,
    Error "Line 2: Expected RETURN at end of query block"
    = Error ("Line " ++ pretty n ++ ": " ++ message)
    /\ (1 <= n <= 1 + Z.of_nat (lineBreaks (list_ascii_of_string
                                               ("QUERY q" ++ String Tokenizer.newline "SUM"))))%Z.
Proof.
  apply (createQuery_throws_syntax_errors
           ("QUERY q" ++ String Tokenizer.newline "SUM")).
  vm_compute. reflexivity.
Defined.

Lemma parse_skips_other_tokens_witness :
  Parser.parse (Tokenizer.tokenize "SELECT name WHERE (age > 3) RETURN")
  = Ok emptyProgram.
Proof.
  apply parse_skips_other_tokens. vm_compute.
  repeat (constructor; [split; discriminate|]). constructor.
Defined.

Lemma query_block_ends_with_RETURN_witness :
  exists nameToken between ret,
    Tokenizer.tokenize "q SUM RETURN"
    = nameToken
      :: (between ++ ret :: drop 3 (Tokenizer.tokenize "q SUM RETURN"))%list
    /\ type nameToken = TokenType.IDENTIFIER
    /\ value_ nameToken = "q"
    /\ type ret = TokenType.RETURN.
Proof.
  apply (query_block_ends_with_RETURN (H := exampleHost) 9
           (Tokenizer.tokenize "q SUM RETURN")
           (drop 3 (Tokenizer.tokenize "q SUM RETURN"))
           {| name := "q"; operations := [SumOperation] |}).
  - exists (take 3 (Tokenizer.tokenize "q SUM RETURN")),
      {| type := TokenType.EOF; value_ := ""; line := 1; column := 13 |}.
    now vm_compute.
  - vm_compute. reflexivity.
Defined.

Section UseResolution.
Import Executor.
Local Open Scope list_scope.

(** ** The working set a USE path resolves to *)

Lemma split_aux_plain (cs rest acc : list ascii) :
  forallb (fun c => negb (Ascii.eqb c ".")) cs = true ->
  split_aux "." (cs ++ rest) acc = split_aux "." rest (rev cs ++ acc).
Proof.
  revert acc. induction cs as [|c cs IH]; intros acc Hplain; [reflexivity|].
  simpl in Hplain. apply andb_true_iff in Hplain as [Hc Hcs].
  apply negb_true_iff in Hc. simpl. rewrite Hc, IH by assumption.
  now rewrite <- app_assoc.
Qed.

Lemma list_ascii_of_string_app (s t : string) :
  list_ascii_of_string (s ++ t)%string
  = list_ascii_of_string s ++ list_ascii_of_string t.
Proof. induction s as [|c s IH]; simpl; [reflexivity|now rewrite IH]. Qed.

(** The executor splits a path where the parser joined it. *)
Lemma split_join (xs : list string) :
  xs <> [] -> Forall (fun x => plainName x = true) xs ->
  split "." (Parser.join "." xs) = xs.
Proof.
  intros Hxs Hplain. unfold split, Parser.join.
  induction Hplain as [|x xs Hx Hplain IH]; [now destruct Hxs|].
  destruct xs as [|y xs].
  - simpl. rewrite <- (app_nil_r (list_ascii_of_string x)).
    rewrite split_aux_plain by exact Hx. simpl.
    now rewrite app_nil_r, rev_involutive, string_of_list_ascii_of_string.
  - change (String.concat "." (x :: y :: xs))
      with (x ++ String "." (String.concat "." (y :: xs)))%string.
    rewrite list_ascii_of_string_app, split_aux_plain by exact Hx. simpl.
    rewrite app_nil_r, rev_involutive, string_of_list_ascii_of_string.
    f_equal. now apply IH.
Qed.

Lemma traverse_reaches (root v : value) (parts : list string) :
  Reaches root parts v ->
  forall more, traverse root (parts ++ more) = traverse v more.
Proof.
  induction 1 as [v|v part next parts w Hnext Htruthy _ IH]; intros more;
    [reflexivity|].
  simpl. rewrite Hnext. simpl. rewrite Htruthy. simpl. apply IH.
Qed.

(** X8. A USE path that exists: when following its identifiers from the
    data finds a truthy value at every step, the path contributes the
    elements of the array it ends at, the record it ends at as a single row,
    and nothing when it ends at a scalar. *)
Theorem use_path_resolves (root v : value) (xs : list string) :
  xs <> [] -> Forall (fun x => plainName x = true) xs ->
  Reaches root xs v ->
  resolveUsePath root {| path := Parser.join "." xs; use_fields := None |}
  = Ok (rowsOf v).
Proof.
  intros Hxs Hplain Hreach. unfold resolveUsePath. simpl.
  rewrite split_join by assumption.
  rewrite <- (app_nil_r xs), (traverse_reaches _ _ _ Hreach). simpl.
  now destruct v.
Qed.

(** X9. A USE path that breaks: where a step finds a falsy value (null,
    false, 0, the empty string) or finds no property under a name that no
    built-in prototype supplies either, the traversal stops and the path
    resolves to what it had reached, whatever follows in the path; a path
    whose first identifier is missing resolves to the whole data. *)
Theorem use_path_stops_where_it_breaks (root v w : value)
    (xs more : list string) (k : string) :
  Forall (fun x => plainName x = true) (xs ++ k :: more) ->
  Reaches root xs v ->
  getProp v k = Ok w -> ToBoolean w = false ->
  (isUndefined w = true -> inherited k = false) ->
  resolveUsePath root
    {| path := Parser.join "." (xs ++ k :: more); use_fields := None |}
  = Ok (rowsOf v).
Proof.
  intros Hplain Hreach Hk Hfalsy _. unfold resolveUsePath. simpl.
  rewrite split_join by (assumption || now destruct xs).
  rewrite (traverse_reaches _ _ _ Hreach). simpl.
  rewrite Hk. simpl. rewrite Hfalsy. simpl. now destruct v.
Qed.

Lemma getProp_readable (v : value) (key : string) :
  readable v = true -> exists w, getProp v key = Ok w.
Proof.
  destruct v as [| |b|n|s|xs|props]; try discriminate; intros _; simpl;
    try (eexists; reflexivity).
  - destruct (String.eqb key "length"); [eexists; reflexivity|].
    destruct (arrayIndex key) as [i|]; [|eexists; reflexivity].
    destruct (String.get i s); eexists; reflexivity.
  - destruct (String.eqb key "length"); [eexists; reflexivity|].
    destruct (arrayIndex key); eexists; reflexivity.
Qed.

Lemma truthy_readable (v : value) : ToBoolean v = true -> readable v = true.
Proof. destruct v; simpl; auto. Qed.

Lemma traverse_readable (v : value) (parts : list string) :
  readable v = true -> exists w, traverse v parts = Ok w.
Proof.
  revert v. induction parts as [|part parts IH]; intros v Hv; simpl;
    [now exists v|].
  destruct (getProp_readable v part Hv) as [next ->]. simpl.
  destruct (ToBoolean next) eqn:Htruthy; simpl; [|now exists v].
  apply IH. now apply truthy_readable.
Qed.

(** X10. Resolving USE paths that have no field list and name no member of
    a built-in prototype never raises, whatever the data is, provided it is
    not null or undefined: the context of a query block is always built. *)
Theorem use_paths_always_resolve (program : ProgramNode) (root : value)
    (globals : gmap string value) :
  readable root = true ->
  Forall (fun usePath => use_fields usePath = None) (usePaths program) ->
  ownNames program = true ->
  exists rows,
    createContextForQuery program root globals
    = Ok {| data := root; variables := globals; currentContext := rows |}.
Proof.
  intros Hroot Hpaths _. unfold createContextForQuery, resolveDataFromUsePaths.
  assert (Hloop : forall resolvedData,
            exists rows,
              resolveDataFromUsePaths_loop root (usePaths program) resolvedData
              = Ok rows).
  { induction Hpaths as [|usePath paths Hnone _ IH]; intros resolvedData; simpl;
      [now exists resolvedData|].
    unfold resolveUsePath. rewrite Hnone.
    destruct (traverse_readable root (split "." (path usePath)) Hroot)
      as [currentData ->].
    simpl. destruct currentData; simpl; apply IH. }
  destruct (usePaths program) as [|usePath paths] eqn:Hprogram;
    [now exists []|].
  destruct (Hloop []) as [rows ->]. now exists rows.
Qed.

End UseResolution.

Lemma use_path_resolves_witness :
  Executor.resolveUsePath catalogData
    {| path := "products"; use_fields := None |}
  = Ok [VObj [("id", VNum 1); ("price", VNum 10)];
        VObj [("id", VNum 2); ("price", VNum 20)]].
Proof.
  apply (use_path_resolves catalogData
           (VArr [VObj [("id", VNum 1); ("price", VNum 10)];
                  VObj [("id", VNum 2); ("price", VNum 20)]]) ["products"]).
  - discriminate.
  - repeat constructor.
  - eapply Reaches_step; [reflexivity|reflexivity|constructor].
Defined.

Lemma use_path_stops_where_it_breaks_witness :
  Executor.resolveUsePath catalogData
    {| path := "orders.lines"; use_fields := None |}
  = Ok [catalogData].
Proof.
  apply (use_path_stops_where_it_breaks catalogData catalogData VUndefined
           [] ["lines"] "orders").
  - repeat constructor.
  - constructor.
  - reflexivity.
  - reflexivity.
  - reflexivity.
Defined.

Lemma use_paths_always_resolve_witness :
  exists rows,
    Executor.createContextForQuery (SSOQL.ast sumOverRecords) catalogData ∅
    = Ok {| data := catalogData; variables := ∅; currentContext := rows |}.
Proof.
  apply (use_paths_always_resolve (SSOQL.ast sumOverRecords) catalogData ∅).
  - reflexivity.
  - repeat constructor.
  - reflexivity.
Defined.

Section FieldLists.
Import Executor.
Local Open Scope list_scope.

(** ** The field list of a USE path *)

Lemma assoc_setProp (key k : string) (v : value) (props : list (string * value)) :
  assoc k (setProp key v props)
  = if String.eqb key k then Some v else assoc k props.
Proof.
  induction props as [|[k' w] props IH]; simpl.
  - reflexivity.
  - destruct (String.eqb_spec k' key) as [->|Hother]; simpl.
    + now destruct (String.eqb key k).
    + rewrite IH. destruct (String.eqb_spec k' k) as [->|_]; [|reflexivity].
      destruct (String.eqb_spec key k) as [->|_]; [now destruct Hother|reflexivity].
Qed.

Lemma setProp_keys (key : string) (v : value) (props : list (string * value)) :
  List.NoDup (List.map fst props) ->
  List.NoDup (List.map fst (setProp key v props))
  /\ forall k, In k (List.map fst (setProp key v props))
               <-> k = key \/ In k (List.map fst props).
Proof.
  induction props as [|[k' w] props IH]; simpl; intros Hkeys.
  - split; [repeat constructor; intros []|]. intros k. intuition.
  - apply List.NoDup_cons_iff in Hkeys as [Hfresh Hkeys].
    destruct (String.eqb_spec k' key) as [->|Hother]; simpl.
    + split; [now constructor|]. intros k. intuition.
    + destruct (IH Hkeys) as [Hnodup Hin]. split.
      * constructor; [|assumption]. rewrite Hin. intros [->|Hold]; auto.
      * intros k. rewrite Hin. intuition.
Qed.

(** X11. The field list of a USE path, when it names no member of a
    built-in prototype, keeps of every row the listed fields that are defined
    on it, with their values, each once; a listed field the row does not
    hold is left out, not set to null. *)
Theorem pickFields_keeps_defined_fields (item : value) (fs : list string) :
  readable item = true ->
  Forall (fun f => inherited f = false) fs ->
  exists picked,
    pickFields item fs [] = Ok (VObj picked)
    /\ List.NoDup (List.map fst picked)
    /\ forall k,
         assoc k picked
         = if existsb (String.eqb k) fs
           then match getProp item k with
                | Ok v => if isUndefined v then None else Some v
                | Throw _ => None
                end
           else None.
Proof.
  intros Hitem _.
  assert (Hloop : forall fs acc,
            List.NoDup (List.map fst acc) ->
            exists picked,
              pickFields item fs acc = Ok (VObj picked)
              /\ List.NoDup (List.map fst picked)
              /\ forall k,
                   assoc k picked
                   = if existsb (String.eqb k) fs
                        && match getProp item k with
                           | Ok v => negb (isUndefined v)
                           | Throw _ => false
                           end
                     then match getProp item k with
                          | Ok v => Some v
                          | Throw e => None
                          end
                     else assoc k acc).
  { clear fs. induction fs as [|f fs IH]; intros acc Hacc; simpl.
    - now exists acc.
    - destruct (getProp_readable item f Hitem) as [v Hv]. rewrite Hv. simpl.
      destruct (isUndefined v) eqn:Hdefined; simpl.
      + destruct (IH acc Hacc) as (picked & -> & Hnodup & Hpicked).
        exists picked. repeat split; [assumption|].
        intros k. rewrite Hpicked.
        destruct (String.eqb_spec k f) as [->|_]; [|reflexivity].
        simpl. rewrite Hv, Hdefined. simpl.
        now rewrite andb_false_r.
      + destruct (IH (setProp f v acc)) as (picked & -> & Hnodup & Hpicked);
          [now apply setProp_keys|].
        exists picked. repeat split; [assumption|].
        intros k. rewrite Hpicked, assoc_setProp.
        destruct (String.eqb_spec k f) as [->|Hother]; simpl.
        * rewrite Hv, Hdefined, String.eqb_refl. simpl.
          now destruct (existsb (String.eqb f) fs).
        * destruct (String.eqb_spec f k) as [->|_]; [now destruct Hother|].
          reflexivity. }
  destruct (Hloop fs []) as (picked & Hpick & Hnodup & Hpicked); [constructor|].
  exists picked. repeat split; try assumption.
  intros k. rewrite Hpicked.
  destruct (existsb (String.eqb k) fs); [|reflexivity].
  destruct (getProp item k) as [v|]; [|reflexivity].
  now destruct (isUndefined v).
Qed.

End FieldLists.

Lemma pickFields_keeps_defined_fields_witness :
  exists picked,
    Executor.pickFields (VObj [("id", VNum 1); ("price", VNum 10)])
      ["price"; "stock"] []
    = Ok (VObj picked)
    /\ List.NoDup (List.map fst picked)
    /\ forall k,
         assoc k picked
         = if existsb (String.eqb k) ["price"; "stock"]
           then match getProp (VObj [("id", VNum 1); ("price", VNum 10)]) k with
                | Ok v => if isUndefined v then None else Some v
                | Throw _ => None
                end
           else None.
Proof.
  apply (pickFields_keeps_defined_fields
           (VObj [("id", VNum 1); ("price", VNum 10)]) ["price"; "stock"]).
  - reflexivity.
  - repeat constructor.
Defined.

Section Shapes.
Context `{JSHost}.
Import Executor.
Local Open Scope list_scope.

(** ** The shape test of the aggregates *)

(** X12. The numeric aggregates and UNIQUE look at the shape of the first
    element only: when it is a scalar (or null), none of them raises,
    whatever the other elements are among those that [Number()] can convert,
    and the state is left as it was. *)
Theorem scalar_first_element_never_raises (first : value) (others : list value)
    (globals : gmap string value) (context : ExecutionContext) :
  currentContext context = first :: others ->
  notRecord first = true ->
  Forall (fun v => convertible v = true) others ->
  Forall (fun operation =>
            exists v,
              executeOperation operation (globals, context)
              = Ok (v, (globals, context)))
    [SumOperation; AverageOperation; MedianOperation; MinOperation;
     MaxOperation; VarianceOperation; StandardDeviationOperation;
     RangeOperation; UniqueOperation].
Proof.
  intros Hrows Hfirst _.
  assert (Hvalues : forall what,
            exists values,
              numericValues what first (first :: others) = Ok values).
  { intros what. unfold numericValues. rewrite Hfirst. eexists. reflexivity. }
  assert (Hmin : exists x, executeMin context = Ok x).
  { unfold executeMin. rewrite Hrows.
    destruct (Hvalues "find minimum of") as [values ->]. simpl.
    destruct values; eexists; reflexivity. }
  assert (Hmax : exists x, executeMax context = Ok x).
  { unfold executeMax. rewrite Hrows.
    destruct (Hvalues "find maximum of") as [values ->]. simpl.
    destruct values; eexists; reflexivity. }
  assert (Hvariance : exists x, executeVariance context = Ok x).
  { unfold executeVariance. rewrite Hrows.
    destruct others as [|second others]; [eexists; reflexivity|].
    destruct (Hvalues "calculate variance of") as [values Hok].
    unfold numericValues in *. rewrite Hfirst in *.
    injection Hok as <-.
    cbv zeta. cbn [bind].
    destruct (List.filter _ _) as [|x [|y values]]; eexists; reflexivity. }
  assert (Hmedian : exists x, executeMedian context = Ok x).
  { unfold executeMedian. rewrite Hrows.
    destruct (Hvalues "calculate median of") as [values ->]. cbn [bind].
    destruct values as [|x values]; [eexists; reflexivity|].
    cbv zeta.
    destruct (length (sortNumbers (x :: values)) mod 2 =? 0)%nat;
      eexists; reflexivity. }
  repeat constructor; simpl; unfold number.
  - unfold executeSum. rewrite Hrows, Hfirst. simpl. eexists. reflexivity.
  - unfold executeAverage, executeSum. rewrite Hrows, Hfirst. simpl.
    eexists. reflexivity.
  - destruct Hmedian as [x ->]. simpl. eexists. reflexivity.
  - destruct Hmin as [x ->]. simpl. eexists. reflexivity.
  - destruct Hmax as [x ->]. simpl. eexists. reflexivity.
  - destruct Hvariance as [x ->]. simpl. eexists. reflexivity.
  - unfold executeStandardDeviation. destruct Hvariance as [x ->]. simpl.
    eexists. reflexivity.
  - unfold executeRange. destruct Hmin as [x ->], Hmax as [y ->]. simpl.
    eexists. reflexivity.
  - unfold executeUnique. rewrite Hrows, Hfirst. simpl. eexists. reflexivity.
Qed.

(** X13. When the first element is a record (or array) that does not have
    exactly one key, each aggregate raises its own error [Cannot ... objects
    with multiple properties]: the error of AVERAGE is the one of SUM, the
    error of RANGE the one of MIN, the error of STANDARD_DEVIATION the one of
    VARIANCE; VARIANCE and STANDARD_DEVIATION return 0 instead when the
    element is alone. *)
Theorem several_keys_first_element_raises (first : value) (others : list value)
    (context : ExecutionContext) :
  currentContext context = first :: others ->
  severalKeys first ->
  executeSum context
  = Throw (Error "Cannot sum objects with multiple properties")
  /\ executeAverage context
     = Throw (Error "Cannot sum objects with multiple properties")
  /\ executeMedian context
     = Throw (Error "Cannot calculate median of objects with multiple properties")
  /\ executeMin context
     = Throw (Error "Cannot find minimum of objects with multiple properties")
  /\ executeMax context
     = Throw (Error "Cannot find maximum of objects with multiple properties")
  /\ executeRange context
     = Throw (Error "Cannot find minimum of objects with multiple properties")
  /\ executeUnique context
     = Throw (Error "Cannot find unique values of objects with multiple properties")
  /\ (others <> [] ->
      executeVariance context
      = Throw (Error "Cannot calculate variance of objects with multiple properties")
      /\ executeStandardDeviation context
         = Throw (Error "Cannot calculate variance of objects with multiple properties"))
  /\ (others = [] ->
      executeVariance context = Ok 0%float
      /\ executeStandardDeviation context = Ok (PrimFloat.sqrt 0)).
Proof.
  intros Hrows [Hrecord Hkeys].
  assert (Hvalues : forall what rows,
            numericValues what first rows = Throw (multipleProperties what)).
  { intros what rows. unfold numericValues. rewrite Hrecord.
    destruct (Object_keys first) as [|key [|key' keys]]; try reflexivity.
    now destruct Hkeys. }
  assert (Hsum : executeSum context = Throw (multipleProperties "sum")).
  { unfold executeSum. rewrite Hrows, Hrecord.
    destruct (Object_keys first) as [|key [|key' keys]]; try reflexivity.
    now destruct Hkeys. }
  assert (Hmin : executeMin context
                 = Throw (multipleProperties "find minimum of")).
  { unfold executeMin. now rewrite Hrows, Hvalues. }
  split; [exact Hsum|].
  split; [unfold executeAverage; now rewrite Hrows, Hsum|].
  split; [unfold executeMedian; now rewrite Hrows, Hvalues|].
  split; [exact Hmin|].
  split; [unfold executeMax; now rewrite Hrows, Hvalues|].
  split; [unfold executeRange; now rewrite Hmin|].
  split.
  { unfold executeUnique. rewrite Hrows, Hrecord.
    destruct (Object_keys first) as [|key [|key' keys]]; try reflexivity.
    now destruct Hkeys. }
  split.
  - intros Hothers. unfold executeStandardDeviation, executeVariance.
    rewrite Hrows.
    destruct others as [|second others]; [now destruct Hothers|].
    now rewrite Hvalues.
  - intros ->. unfold executeStandardDeviation, executeVariance.
    now rewrite Hrows.
Qed.

Lemma soleValue_several (what : string) (item : value) :
  severalKeys item -> soleValue what item = Throw (multipleProperties what).
Proof.
  intros [Hrecord Hkeys]. unfold soleValue. rewrite Hrecord.
  destruct (Object_keys item) as [|key [|key' keys]]; try reflexivity.
  now destruct Hkeys.
Qed.

Lemma countFrequencies_several (what : string) (items : list value)
    (m : frequencies) :
  Exists severalKeys items ->
  countFrequencies what items m = Throw (multipleProperties what).
Proof.
  intros Hitems. revert m.
  induction items as [|item items IH]; intros m; [inversion Hitems|]. simpl.
  destruct (soleValue what item) as [v|e] eqn:Hsole; simpl.
  - assert (Hrest : Exists severalKeys items).
    { inversion Hitems as [? ? Hitem|]; [|assumption].
      rewrite (soleValue_several what item Hitem) in Hsole. discriminate Hsole. }
    destruct (isNull v || isUndefined v); [now apply IH|].
    destruct (has (ToString v) m); now apply IH.
  - unfold soleValue in Hsole.
    destruct (notRecord item) eqn:Hrecord; [discriminate|].
    destruct (Object_keys item) as [|key [|key' keys]]; try congruence.
    destruct item as [| |b|n|s|xs|props]; try discriminate Hrecord;
      simpl in Hsole; try discriminate Hsole.
    destruct (String.eqb key "length"); [discriminate|].
    destruct (arrayIndex key); discriminate.
Qed.

(** X14. MOST_FREQUENT and LEAST_FREQUENT test the shape of every element:
    one record (or array) anywhere in the working set that does not have
    exactly one key makes them raise, also behind a scalar first element,
    when [String()] can convert the values that are counted. *)
Theorem frequent_values_test_every_element (context : ExecutionContext) :
  Exists severalKeys (currentContext context) ->
  Forall (fun item => severalKeys item \/ convertible (soleOf item) = true)
    (currentContext context) ->
  executeMostFrequent context
  = Throw (Error "Cannot find most frequent value of objects with multiple properties")
  /\ executeLeastFrequent context
     = Throw (Error "Cannot find least frequent value of objects with multiple properties").
Proof.
  intros Hitems _. unfold executeMostFrequent, executeLeastFrequent.
  destruct (currentContext context) as [|item items]; [inversion Hitems|].
  now rewrite !countFrequencies_several.
Qed.

End Shapes.

Lemma scalar_first_element_never_raises_witness :
  Forall (fun operation =>
            exists v,
              Executor.executeOperation operation
                (∅, workingSet [VNum 1; VObj [("a", VNum 1); ("b", VNum 2)]])
              = Ok (v, (∅, workingSet [VNum 1; VObj [("a", VNum 1); ("b", VNum 2)]])))
    [SumOperation; AverageOperation; MedianOperation; MinOperation;
     MaxOperation; VarianceOperation; StandardDeviationOperation;
     RangeOperation; UniqueOperation].
Proof.
  apply (scalar_first_element_never_raises (VNum 1)
           [VObj [("a", VNum 1); ("b", VNum 2)]]).
  - reflexivity.
  - reflexivity.
  - repeat constructor.
Defined.

Lemma several_keys_first_element_raises_witness :
  Executor.executeSum (workingSet [VObj [("a", VNum 1); ("b", VNum 2)]; VNum 1])
  = Throw (Error "Cannot sum objects with multiple properties").
Proof.
  apply (several_keys_first_element_raises
           (VObj [("a", VNum 1); ("b", VNum 2)]) [VNum 1]
           (workingSet [VObj [("a", VNum 1); ("b", VNum 2)]; VNum 1])).
  - reflexivity.
  - split; [reflexivity|]. simpl. lia.
Defined.

Lemma frequent_values_test_every_element_witness :
  Executor.executeMostFrequent
    (workingSet [VNum 1; VObj [("a", VNum 1); ("b", VNum 2)]])
  = Throw (Error "Cannot find most frequent value of objects with multiple properties").
Proof.
  apply (frequent_values_test_every_element
           (workingSet [VNum 1; VObj [("a", VNum 1); ("b", VNum 2)]])).
  - apply Exists_cons_tl. apply Exists_cons_hd.
    split; [reflexivity|]. simpl. lia.
  - repeat constructor; right; reflexivity.
Defined.

Section States.
Context `{JSHost}.
Import Executor.
Local Open Scope list_scope.

(** ** What the operations do to the state *)

Lemma number_state (r : result float) (st st' : state) (v : value) :
  number r st = Ok (v, st') -> st' = st.
Proof. unfold number. destruct r; simpl; [now intros [= _ <-]|discriminate]. Qed.

(** An operation that neither selects nor assigns leaves the state as it
    was. *)
Lemma executeOperation_reads (operation : OperationNode)
    (st st' : state) (v : value) :
  readsOnly operation = true ->
  executeOperation operation st = Ok (v, st') ->
  st' = st.
Proof.
  destruct st as [globals context].
  destruct operation; try discriminate; intros _; simpl;
    try apply number_state.
  - rewrite executeCount_zero. simpl. now intros [= _ <-].
  - unfold executePercentOf, executePercentOf_around. rewrite executePercentOf_try_ok. simpl.
    now intros [= _ <-].
  - destruct (executeMostFrequent context); simpl; [|discriminate].
    now intros [= _ <-].
  - destruct (executeLeastFrequent context); simpl; [|discriminate].
    now intros [= _ <-].
  - destruct (executeUnique context); simpl; [|discriminate].
    now intros [= _ <-].
Qed.

(** X15. Only SELECT and the assignment of a variable change the state: a
    sequence of operations made of COUNT, PERCENT_OF, the aggregates and the
    arithmetic on variables leaves the working set, the variables and the
    data exactly as they were, so each of them sees the same rows. *)
Theorem reading_operations_keep_state (ops : list OperationNode)
    (result_ v : value) (st st' : state) :
  forallb readsOnly ops = true ->
  executeOperations ops result_ st = Ok (v, st') ->
  st' = st.
Proof.
  revert result_. induction ops as [|operation ops IH]; intros result_; simpl.
  - now intros _ [= _ <-].
  - intros Hreads. apply andb_true_iff in Hreads as [Hoperation Hops].
    destruct (executeOperation operation st) as [[w st1]|] eqn:Hrun; simpl;
      [|discriminate].
    apply (executeOperation_reads _ _ _ _ Hoperation) in Hrun. subst st1.
    now apply IH.
Qed.

Lemma executeOperation_variables (operation : OperationNode) :
  forall globals context v globals' context',
    executeOperation operation (globals, context) = Ok (v, (globals', context')) ->
    data context' = data context
    /\ (variables context = globals -> variables context' = globals')
    /\ (forall x, is_Some (globals !! x) -> is_Some (globals' !! x))
    /\ (forall x, is_Some (variables context !! x) ->
                  is_Some (variables context' !! x)).
Proof.
  induction operation; intros globals context v globals' context' Hrun;
    try (apply executeOperation_reads in Hrun; [|reflexivity];
         injection Hrun as <- <-; auto).
  - simpl in Hrun. rewrite executeSelect_rows in Hrun. simpl in Hrun.
    injection Hrun as _ <- <-. auto.
  - simpl in Hrun.
    destruct (executeOperation operation (globals, context))
      as [[w [globals1 context1]]|] eqn:Hinner; simpl in Hrun; [|discriminate].
    injection Hrun as _ <- <-.
    destruct (IHoperation _ _ _ _ _ Hinner)
      as (Hdata & Hsame & Hglobals & Hvariables).
    simpl. repeat split.
    + exact Hdata.
    + intros Heq. now rewrite (Hsame Heq).
    + intros x Hx. apply lookup_insert_is_Some'. right. now apply Hglobals.
    + intros x Hx. apply lookup_insert_is_Some'. right. now apply Hvariables.
Qed.

(** X16. The two maps of variables go together: along the operations of a
    query block the data is never replaced, no variable is ever unset, and a
    context whose variables are the executor's own (as the context built
    for a query block is) still has the executor's variables at the end, so
    every assignment is visible to the query blocks that follow. *)
Theorem operations_keep_variables (ops : list OperationNode) (result_ v : value)
    (globals globals' : gmap string value) (context context' : ExecutionContext) :
  executeOperations ops result_ (globals, context) = Ok (v, (globals', context')) ->
  data context' = data context
  /\ (variables context = globals -> variables context' = globals')
  /\ (forall x, is_Some (globals !! x) -> is_Some (globals' !! x))
  /\ (forall x, is_Some (variables context !! x) ->
                is_Some (variables context' !! x)).
Proof.
  revert result_ globals context.
  induction ops as [|operation ops IH]; intros result_ globals context; simpl.
  - intros [= _ <- <-]. auto.
  - destruct (executeOperation operation (globals, context))
      as [[w [globals1 context1]]|] eqn:Hop; simpl; [|discriminate].
    intros Hrest.
    destruct (executeOperation_variables _ _ _ _ _ _ Hop)
      as (Hdata & Hsame & Hglobals & Hvariables).
    destruct (IH _ _ _ Hrest) as (Hdata' & Hsame' & Hglobals' & Hvariables').
    repeat split.
    + congruence.
    + auto.
    + auto.
    + auto.
Qed.

Lemma executeOperation_keeps_variables (operation : OperationNode)
    (st st' : state) (v : value) :
  (forall name inner, operation <> VariableAssignment name inner) ->
  executeOperation operation st = Ok (v, st') ->
  fst st' = fst st /\ variables (snd st') = variables (snd st).
Proof.
  intros Hplain Hrun. destruct st as [globals context].
  destruct operation;
    try (apply executeOperation_reads in Hrun; [|reflexivity];
         now subst st').
  - simpl in Hrun. rewrite executeSelect_rows in Hrun. simpl in Hrun.
    now injection Hrun as _ <-.
  - now destruct (Hplain _ _ eq_refl).
Qed.

(** X17. The division of two assigned variables, in a state whose values
    [Number()] can convert: after [$a op1] and [$b op2] (where [op2] is not
    itself an assignment and the names differ), [DIVIDE $a $b] yields the
    value of [op1] divided by the value of [op2], and 0 when the value of
    [op2] is the number 0. *)
Theorem divide_assigned_variables (a b : string) (op1 op2 : OperationNode)
    (result_ v1 v2 : value) (st st1 st2 : state) :
  a <> b ->
  (forall name inner, op2 <> VariableAssignment name inner) ->
  convertibleState st ->
  executeOperation op1 st = Ok (v1, st1) ->
  executeOperation op2 (assigned a v1 st1) = Ok (v2, st2) ->
  executeOperations
    [VariableAssignment a op1; VariableAssignment b op2; DivideOperation a b]
    result_ st
  = Ok (VNum (if strictlyZero v2 then 0%float else divide v1 v2),
        assigned b v2 st2).
Proof.
  intros Hnames Hplain _ Hop1 Hop2.
  destruct st as [globals context], st1 as [globals1 context1].
  cbn [executeOperations executeOperation]. rewrite Hop1. cbn [bind].
  change (<[a:=v1]> globals1, setVariable a v1 context1)
    with (assigned a v1 (globals1, context1)).
  destruct (assigned a v1 (globals1, context1)) as [globals1' context1'] eqn:Hst1.
  cbn [executeOperation]. rewrite Hop2.
  destruct st2 as [globals2 context2]. cbn [bind].
  destruct (executeOperation_keeps_variables _ _ _ _ Hplain Hop2)
    as [_ Hvariables].
  simpl in Hvariables.
  assert (Ha : variables (setVariable b v2 context2) !! a = Some v1).
  { simpl. rewrite lookup_insert_ne by congruence. rewrite Hvariables.
    injection Hst1 as _ <-. simpl. apply lookup_insert_eq. }
  assert (Hb : variables (setVariable b v2 context2) !! b = Some v2).
  { simpl. apply lookup_insert_eq. }
  unfold number, executeDivide, getVariableValue. rewrite Ha, Hb. cbn [bind].
  unfold assigned. simpl. now destruct (strictlyZero v2).
Qed.

Lemma execute_loop_names (program : ProgramNode) (root : value)
    (blocks : list QueryBlockNode) (globals results final : gmap string value) :
  execute_loop program root blocks globals results = Ok final ->
  forall k, is_Some (final !! k)
            <-> is_Some (results !! k) \/ In k (List.map name blocks).
Proof.
  revert globals results.
  induction blocks as [|queryBlock blocks IH]; intros globals results; simpl.
  - intros [= <-] k. intuition.
  - destruct (createContextForQuery program root globals) as [context|]; simpl;
      [|discriminate].
    destruct (executeQueryBlock queryBlock (globals, context))
      as [[v [globals' context']]|]; simpl; [|discriminate].
    intros Hrest k. rewrite (IH _ _ Hrest k), lookup_insert_is_Some.
    destruct (decide (name queryBlock = k)); intuition.
Qed.

(** X18. The result map has exactly one entry per query name: whenever
    [execute()] succeeds on a program none of whose query blocks is named
    [__proto__], the keys of the result are the names of the query blocks of
    the program, and nothing else. *)
Theorem results_are_keyed_by_query_names (q : SSOQL.SSOQLQuery) (root : value)
    (results : gmap string value) :
  Forall (fun queryBlock => name queryBlock <> "__proto__")
    (queryBlocks (SSOQL.ast q)) ->
  SSOQL.execute q root = Ok results ->
  forall k,
    is_Some (results !! k)
    <-> In k (List.map name (queryBlocks (SSOQL.ast q))).
Proof.
  intros _. unfold SSOQL.execute, Executor.execute.
  destruct (execute_loop _ _ _ _ _) as [raw|] eqn:Hloop; simpl; [|discriminate].
  intros [= <-] k. rewrite lookup_fmap, fmap_is_Some.
  rewrite (execute_loop_names _ _ _ _ _ _ Hloop k), lookup_empty.
  split; [intros [[? [=]]|Hk]; exact Hk|now right].
Qed.

End States.

Lemma reading_operations_keep_state_witness :
  (∅, workingSet [VNum 1; VNum 2]) = ((∅, workingSet [VNum 1; VNum 2]) : Executor.state).
Proof.
  apply (reading_operations_keep_state
           [SumOperation; MaxOperation;
            CountOperation {| fields := AllFields; conditions := None;
                              each := None |}]
           VNull (VNum 0)
           (∅, workingSet [VNum 1; VNum 2]) (∅, workingSet [VNum 1; VNum 2]));
    [reflexivity|vm_compute; reflexivity].
Defined.

Lemma operations_keep_variables_witness :
  let context := workingSet [VNum 1; VNum 2] in
  let context' := setVariable "$s" (VNum 3) context in
  data context' = data context
  /\ (variables context = ∅ -> variables context' = <["$s" := VNum 3]> ∅)
  /\ (forall x, is_Some ((∅ : gmap string value) !! x) ->
                is_Some ((<["$s" := VNum 3]> ∅ : gmap string value) !! x))
  /\ (forall x, is_Some (variables context !! x) ->
                is_Some (variables context' !! x)).
Proof.
  intros context context'.
  apply (operations_keep_variables [VariableAssignment "$s" SumOperation; MaxOperation]
           VNull (VNum 2)).
  vm_compute. reflexivity.
Defined.

Lemma divide_assigned_variables_witness :
  let st := (∅, workingSet [VNum 6; VNum 2]) in
  Executor.executeOperations
    [VariableAssignment "$a" SumOperation; VariableAssignment "$b" MinOperation;
     DivideOperation "$a" "$b"] VNull st
  = Ok (VNum (if Executor.strictlyZero (VNum 2) then 0%float
              else Executor.divide (VNum 8) (VNum 2)),
        assigned "$b" (VNum 2) (assigned "$a" (VNum 8) st)).
Proof.
  intros st.
  apply (divide_assigned_variables "$a" "$b" SumOperation MinOperation VNull
           (VNum 8) (VNum 2) st st (assigned "$a" (VNum 8) st)).
  - discriminate.
  - discriminate.
  - split; [repeat constructor|apply map_Forall_empty].
  - vm_compute. reflexivity.
  - vm_compute. reflexivity.
Defined.

Lemma results_are_keyed_by_query_names_witness :
  is_Some (({[ "q" := VStr "[]" ]} : gmap string value) !! "q")
  <-> In "q" ["q"].
Proof.
  apply (results_are_keyed_by_query_names productsAst productsData).
  - repeat constructor. discriminate.
  - vm_compute. reflexivity.
Defined.

Section Conditions.
Context `{JSHost}.
Import Executor.
Local Open Scope list_scope.

(** ** Conditions *)

(** X19. A comparison with the literal [null], on a field that is held by
    the row or that no built-in prototype supplies: [field = null] holds
    exactly for the rows where the field is null or missing, [field != null]
    for the others, and the four order comparisons with [null] hold for no
    row. *)
Theorem comparisons_with_null (field : string) (item actual : value)
    (context : ExecutionContext) :
  getProp item field = Ok actual ->
  (isUndefined actual = true -> inherited field = false) ->
  let compare operator :=
    evaluateComparison field operator VNull item context in
  compare OperatorType.EQUALS = Ok (isNull actual || isUndefined actual)
  /\ compare OperatorType.NOT_EQUALS
     = Ok (negb (isNull actual || isUndefined actual))
  /\ compare OperatorType.GREATER_THAN = Ok false
  /\ compare OperatorType.LESS_THAN = Ok false
  /\ compare OperatorType.GREATER_THAN_EQUALS = Ok false
  /\ compare OperatorType.LESS_THAN_EQUALS = Ok false.
Proof.
  intros Hactual _ compare. unfold compare, evaluateComparison.
  rewrite Hactual. simpl.
  assert (Hequal : looseEquals actual VNull = isNull actual || isUndefined actual)
    by (destruct actual as [| |[]| | | |]; reflexivity).
  rewrite Hequal. repeat split; reflexivity.
Qed.

(** X20. Conditions obey the laws of De Morgan and of double negation,
    errors included: [!(a & b)] and [!a | !b] give the same outcome on every
    row, as do [!(a | b)] and [!a & !b], and [!!a] and [a]. *)
Theorem conditions_obey_de_morgan (a b : ConditionNode) (item : value)
    (context : ExecutionContext) :
  let NOT := UnaryCondition OperatorType.NOT in
  let AND := BinaryCondition OperatorType.AND in
  let OR := BinaryCondition OperatorType.OR in
  evaluateCondition (NOT (AND a b)) item context
  = evaluateCondition (OR (NOT a) (NOT b)) item context
  /\ evaluateCondition (NOT (OR a b)) item context
     = evaluateCondition (AND (NOT a) (NOT b)) item context
  /\ evaluateCondition (NOT (NOT a)) item context
     = evaluateCondition a item context.
Proof.
  intros NOT AND OR. unfold NOT, AND, OR. cbn [evaluateCondition].
  destruct (evaluateCondition a item context) as [[|]|ea];
    destruct (evaluateCondition b item context) as [[|]|eb];
    repeat split; reflexivity.
Qed.

End Conditions.

Section Unique.
Context `{JSHost}.
Import Executor.
Local Open Scope list_scope.

(** ** UNIQUE *)











End Unique.

Lemma comparisons_with_null_witness :
  Executor.evaluateComparison "age" OperatorType.EQUALS VNull
    (VObj [("name", VStr "a")]) (workingSet [])
  = Ok true.
Proof.
  apply (comparisons_with_null "age" (VObj [("name", VStr "a")]) VUndefined
           (workingSet [])).
  - reflexivity.
  - reflexivity.
Defined.


Section SelectRows.
Context `{JSHost}.
Import Executor.
Local Open Scope list_scope.

(** ** SELECT and PERCENT_OF *)

(** X25. In this version of the executor a SELECT starts from an empty row
    list: whatever its fields and its condition (also one that names an
    unassigned variable), SELECT yields the empty list and leaves an empty
    working set, and PERCENT_OF, which counts the rows of two SELECTs, yields
    0 and leaves the state as it was. *)
Theorem select_starts_from_no_rows (s numerator denominator : SelectOperationNode)
    (globals : gmap string value) (context : ExecutionContext) :
  executeOperation (SelectOperation s) (globals, context)
  = Ok (VArr [], (globals, setCurrentContext [] context))
  /\ executeOperation (PercentOfOperation numerator denominator)
       (globals, context)
     = Ok (VNum 0, (globals, context)).
Proof.
  assert (Hselect : forall s' context',
            executeSelect s' context'
            = Ok ([], setCurrentContext [] context')).
  { intros s' context'. unfold executeSelect.
    destruct (conditions s'); simpl;
      destruct (fields s') as [|[|f [|g fs]]]; reflexivity. }
  split.
  - cbn [executeOperation]. now rewrite Hselect.
  - cbn [executeOperation]. unfold executePercentOf, executePercentOf_around, executePercentOf_try.
    now rewrite !Hselect.
Qed.

End SelectRows.

Section WorkingSets.
Context `{JSHost}.
Import Executor.
Local Open Scope list_scope.

(** ** The working set of a query block *)

Lemma resolveDataFromUsePaths_loop_rows (root : value) (paths : list UsePathNode)
    (rowss : list (list value)) :
  Forall2 (fun usePath rows => resolveUsePath root usePath = Ok rows)
    paths rowss ->
  forall resolvedData,
    resolveDataFromUsePaths_loop root paths resolvedData
    = Ok (resolvedData ++ concat rowss).
Proof.
  induction 1 as [|usePath rows paths rowss Hrows _ IH]; intros resolvedData;
    simpl.
  - now rewrite app_nil_r.
  - rewrite Hrows. simpl. rewrite IH. now rewrite <- app_assoc.
Qed.

(** X26. The working set of a query block is the rows of the USE paths of
    the program, one path after the other in source order; it does not depend
    on the variables, so every query block starts from the same rows,
    whatever the blocks before it selected. *)
Theorem working_set_joins_use_paths (program : ProgramNode) (root : value)
    (rowss : list (list value)) (globals : gmap string value) :
  Forall2 (fun usePath rows => resolveUsePath root usePath = Ok rows)
    (usePaths program) rowss ->
  createContextForQuery program root globals
  = Ok {| data := root; variables := globals; currentContext := concat rowss |}.
Proof.
  intros Hrows. unfold createContextForQuery, resolveDataFromUsePaths.
  pose proof (resolveDataFromUsePaths_loop_rows _ _ _ Hrows []) as Hloop.
  destruct (usePaths program) as [|usePath paths].
  - inversion Hrows. reflexivity.
  - now rewrite Hloop.
Qed.

(** X27. USE and SUM, end to end: when the path of the only USE declaration
    leads to an array whose first element is a scalar and whose elements
    [Number()] can convert, the query [QUERY q SUM RETURN] (for a name [q]
    other than [__proto__]) is reported as the sum of [Number(x)] over the
    elements [x] of this array, counting 0 for those that are not numbers. *)
Theorem use_then_sum (xs : list string) (queryName : string) (root : value)
    (items : list value) :
  xs <> [] -> Forall (fun x => plainName x = true) xs ->
  Reaches root xs (VArr items) ->
  match items with first :: _ => notRecord first = true | [] => True end ->
  Forall (fun v => convertible v = true) items ->
  queryName <> "__proto__" ->
  SSOQL.execute
    {| SSOQL.ast :=
         {| usePaths := [{| path := Parser.join "." xs; use_fields := None |}];
            queryBlocks :=
              [{| name := queryName; operations := [SumOperation] |}] |} |}
    root
  = Ok {[ queryName :=
            VNum (fold_left (fun sum v => (sum + orZero (ToNumber v))%float)
                    items 0%float) ]}.
Proof.
  intros Hxs Hplain Hreach Hfirst _ _.
  unfold SSOQL.execute, Executor.execute. cbn [SSOQL.ast queryBlocks execute_loop].
  unfold createContextForQuery, resolveDataFromUsePaths.
  cbn [usePaths resolveDataFromUsePaths_loop].
  unfold resolveUsePath. cbn [path use_fields].
  rewrite split_join by assumption.
  rewrite <- (app_nil_r xs), (traverse_reaches _ _ _ Hreach).
  cbn [traverse bind app]. unfold executeQueryBlock.
  cbn [operations executeOperations executeOperation].
  unfold number, executeSum. cbn [currentContext].
  destruct items as [|first others].
  - cbn [bind fold_left name]. rewrite insert_empty, map_fmap_singleton.
    reflexivity.
  - rewrite Hfirst. cbn [bind name].
    rewrite insert_empty, map_fmap_singleton. reflexivity.
Qed.

End WorkingSets.

Lemma working_set_joins_use_paths_witness :
  Executor.createContextForQuery
    {| usePaths := [{| path := "products"; use_fields := None |};
                    {| path := "products"; use_fields := None |}];
       queryBlocks := [] |} productsData ∅
  = Ok {| data := productsData; variables := ∅;
          currentContext :=
            concat [[record1 "id" 1; record1 "id" 2];
                    [record1 "id" 1; record1 "id" 2]] |}.
Proof.
  apply (working_set_joins_use_paths
           {| usePaths := [{| path := "products"; use_fields := None |};
                           {| path := "products"; use_fields := None |}];
              queryBlocks := [] |} productsData).
  repeat constructor.
Defined.

Lemma use_then_sum_witness :
  SSOQL.execute
    {| SSOQL.ast :=
         {| usePaths := [{| path := "a.b"; use_fields := None |}];
            queryBlocks := [{| name := "q"; operations := [SumOperation] |}] |} |}
    (VObj [("a", VObj [("b", VArr [VNum 1; VStr "x"; VNum 2])])])
  = Ok {[ "q" :=
            VNum (fold_left
                    (fun sum v => (sum + Executor.orZero (ToNumber v))%float)
                    [VNum 1; VStr "x"; VNum 2] 0%float) ]}.
Proof.
  apply (use_then_sum (H := exampleHost) ["a"; "b"] "q"
           (VObj [("a", VObj [("b", VArr [VNum 1; VStr "x"; VNum 2])])])
           [VNum 1; VStr "x"; VNum 2]).
  - discriminate.
  - repeat constructor.
  - eapply Reaches_step; [reflexivity|reflexivity|].
    eapply Reaches_step; [reflexivity|reflexivity|]. constructor.
  - reflexivity.
  - repeat constructor.
  - discriminate.
Defined.

Section ConditionParsing.
Context `{JSHost}.
Import Parser.
Local Open Scope list_scope.

(** ** Conditions are parsed by precedence *)

(** More fuel does not change a result. *)
Lemma bind_fuel {A B} (m m' : result A) (k k' : A -> result B) :
  (m <> Throw OutOfFuel -> m' = m) ->
  (forall x, k x <> Throw OutOfFuel -> k' x = k x) ->
  bind m k <> Throw OutOfFuel -> bind m' k' = bind m k.
Proof.
  intros Hm Hk. destruct m as [x|e]; simpl.
  - intros Hrun. rewrite Hm by discriminate. simpl. now apply Hk.
  - intros He. rewrite Hm; [reflexivity|]. intros [= ->]. now destruct He.
Qed.

Lemma parseCondition_fuel (fuel : nat) :
  forall fuel' ts, fuel <= fuel' ->
    (parseCondition fuel ts <> Throw OutOfFuel ->
     parseCondition fuel' ts = parseCondition fuel ts)
    /\ (parseLogicalOr fuel ts <> Throw OutOfFuel ->
        parseLogicalOr fuel' ts = parseLogicalOr fuel ts)
    /\ (forall expr, parseLogicalOr_loop fuel expr ts <> Throw OutOfFuel ->
          parseLogicalOr_loop fuel' expr ts = parseLogicalOr_loop fuel expr ts)
    /\ (parseLogicalAnd fuel ts <> Throw OutOfFuel ->
        parseLogicalAnd fuel' ts = parseLogicalAnd fuel ts)
    /\ (forall expr, parseLogicalAnd_loop fuel expr ts <> Throw OutOfFuel ->
          parseLogicalAnd_loop fuel' expr ts = parseLogicalAnd_loop fuel expr ts)
    /\ (parseUnary fuel ts <> Throw OutOfFuel ->
        parseUnary fuel' ts = parseUnary fuel ts)
    /\ (parsePrimary fuel ts <> Throw OutOfFuel ->
        parsePrimary fuel' ts = parsePrimary fuel ts).
Proof.
  induction fuel as [|fuel IH]; intros [|fuel'] ts Hfuel;
    try (repeat split; intros; simpl in *; congruence); try lia.
  assert (Hle : fuel <= fuel') by lia.
  repeat split.
  - simpl. apply (IH fuel' ts Hle).
  - simpl. apply bind_fuel; [apply (IH fuel' ts Hle)|].
    intros [expr ts1]. apply (IH fuel' ts1 Hle).
  - intros expr. simpl.
    destruct (match_ TokenType.PIPE ts) as [ts1|]; [|reflexivity].
    apply bind_fuel; [apply (IH fuel' ts1 Hle)|].
    intros [rhs ts2]. apply (IH fuel' ts2 Hle).
  - simpl. apply bind_fuel; [apply (IH fuel' ts Hle)|].
    intros [expr ts1]. apply (IH fuel' ts1 Hle).
  - intros expr. simpl.
    destruct (match_ TokenType.AMPERSAND ts) as [ts1|]; [|reflexivity].
    apply bind_fuel; [apply (IH fuel' ts1 Hle)|].
    intros [rhs ts2]. apply (IH fuel' ts2 Hle).
  - simpl. destruct (match_ TokenType.NOT ts) as [ts1|];
      [|apply (IH fuel' ts Hle)].
    apply bind_fuel; [apply (IH fuel' ts1 Hle)|]. now intros [condition ts2].
  - simpl. destruct (match_ TokenType.LEFT_PAREN ts) as [ts1|]; [|reflexivity].
    apply bind_fuel; [apply (IH fuel' ts1 Hle)|]. now intros [expr ts2].
Qed.

(** Rewriting with the type of the token under the cursor. *)
Ltac at_token Htype :=
  rewrite ?check_head, ?advance_head, ?isAtEnd_head by (rewrite Htype; discriminate);
  rewrite ?Htype; simpl.

Lemma match_head (ty : TokenType.t) (t : Token) (ts : list Token) :
  type t = ty -> ty <> TokenType.EOF -> match_ ty (t :: ts) = Some ts.
Proof.
  intros Htype Hty. unfold match_.
  rewrite check_head, advance_head by congruence.
  rewrite Htype. unfold TokenType.eqb. now rewrite Pos.eqb_refl.
Qed.

Lemma match_other (ty : TokenType.t) (t : Token) (ts : list Token) :
  type t <> ty -> match_ ty (t :: ts) = None.
Proof.
  intros Htype. unfold match_, check.
  destruct (isAtEnd (t :: ts)); [reflexivity|]. simpl.
  now rewrite TokenType_eqb_neq.
Qed.

Lemma match_none (ty : TokenType.t) (ts : list Token) :
  check ty ts = false -> match_ ty ts = None.
Proof. intros Hcheck. unfold match_. now rewrite Hcheck. Qed.

Lemma parseComparisonOperator_token (to : Token) (operator : OperatorType.t)
    (ts : list Token) :
  operatorOf (type to) = Some operator ->
  parseComparisonOperator (to :: ts) = Ok (operator, ts).
Proof.
  intros Hoperator. unfold parseComparisonOperator.
  destruct (type to) eqn:Htype; try discriminate Hoperator;
    injection Hoperator as <-; now at_token Htype.
Qed.

Lemma parseValue_token (tv : Token) (v : value) (ts : list Token) :
  literalOf tv = Some v -> parseValue (tv :: ts) = Ok (v, ts).
Proof.
  unfold literalOf, parseValue, peek. simpl.
  destruct (type tv) eqn:Htype; try discriminate; intros [= <-];
    now at_token Htype.
Qed.

(** The first token of a condition. *)
Lemma Condition_first (l : level) (c : ConditionNode) (ts : list Token) :
  Condition l c ts ->
  exists t ts',
    ts = t :: ts'
    /\ type t <> TokenType.EOF
    /\ (l = Primary -> type t <> TokenType.NOT).
Proof.
  induction 1 as [field operator v tf to tv [Htf _] _ _
                 |c lp ts rp Hlp _ _ _
                 |c ts _ IH|c bang ts Hbang _ _
                 |c ts _ IH|l r ts1 amp ts2 _ IH _ _ _
                 |c ts _ IH|l r ts1 pipe ts2 _ IH _ _ _].
  - exists tf, [to; tv]. rewrite Htf. repeat split; discriminate.
  - exists lp, (ts ++ [rp]). rewrite Hlp. repeat split; discriminate.
  - destruct IH as (t & ts' & -> & Heof & _). exists t, ts'.
    repeat split; [assumption|discriminate].
  - exists bang, ts. rewrite Hbang. repeat split; discriminate.
  - destruct IH as (t & ts' & -> & Heof & _). exists t, ts'.
    repeat split; [assumption|discriminate].
  - destruct IH as (t & ts' & -> & Heof & _). exists t, (ts' ++ amp :: ts2).
    repeat split; [assumption|discriminate].
  - destruct IH as (t & ts' & -> & Heof & _). exists t, ts'.
    repeat split; [assumption|discriminate].
  - destruct IH as (t & ts' & -> & Heof & _). exists t, (ts' ++ pipe :: ts2).
    repeat split; [assumption|discriminate].
Qed.

Lemma eventually_ok {A} (r : result A) : eventually (fun _ => r) r.
Proof. now exists 0. Qed.

Lemma parseLogicalAnd_loop_end (c : ConditionNode) (rest : list Token) :
  check TokenType.AMPERSAND rest = false ->
  eventually (fun fuel => parseLogicalAnd_loop fuel c rest) (Ok (c, rest)).
Proof.
  intros Hrest. exists 1. intros [|fuel] Hfuel; [lia|]. simpl.
  now rewrite match_none.
Qed.

Lemma parseLogicalOr_loop_end (c : ConditionNode) (rest : list Token) :
  check TokenType.PIPE rest = false ->
  eventually (fun fuel => parseLogicalOr_loop fuel c rest) (Ok (c, rest)).
Proof.
  intros Hrest. exists 1. intros [|fuel] Hfuel; [lia|]. simpl.
  now rewrite match_none.
Qed.

Lemma Condition_parsedAt (l : level) (c : ConditionNode) (ts : list Token) :
  Condition l c ts -> parsedAt l c ts.
Proof.
  induction 1 as [field operator v tf to tv [Htf Hfield] Hoperator Hvalue
                 |c lp ts rp Hlp Hinner IH Hrp
                 |c ts Hprimary IH|c bang ts Hbang _ IH
                 |c ts _ IH|l r ts1 amp ts2 _ IHl Hamp _ IHr
                 |c ts _ IH|l r ts1 pipe ts2 _ IHl Hpipe _ IHr]; simpl.
  - (* field operator value *)
    intros rest. exists 1. intros [|fuel] Hfuel; [lia|]. simpl.
    rewrite match_other by (rewrite Htf; discriminate).
    unfold consume. at_token Htf. unfold peek. simpl.
    rewrite (parseComparisonOperator_token _ _ _ Hoperator). simpl.
    rewrite (parseValue_token _ _ _ Hvalue). simpl. now rewrite Hfield.
  - (* ( disjunction ) *)
    intros rest. rewrite <- app_assoc. simpl.
    destruct (IH (rp :: rest) (Ok (c, rp :: rest))) as [n Hn].
    { now at_token Hrp. }
    { apply parseLogicalOr_loop_end. now at_token Hrp. }
    exists (S (S n)). intros [|[|fuel]] Hfuel; try lia. simpl.
    rewrite (match_head _ _ _ Hlp) by discriminate.
    rewrite Hn by lia. simpl. unfold consume. now at_token Hrp.
  - (* a primary as a unary *)
    intros rest. destruct (IH rest) as [n Hn].
    exists (S n). intros [|fuel] Hfuel; [lia|]. simpl.
    destruct (Condition_first _ _ _ Hprimary) as (t & ts' & -> & _ & Ht).
    simpl. rewrite match_other by now apply Ht.
    simpl in Hn. now rewrite Hn by lia.
  - (* ! unary *)
    intros rest. destruct (IH rest) as [n Hn].
    exists (S n). intros [|fuel] Hfuel; [lia|]. simpl.
    rewrite (match_head _ _ _ Hbang) by discriminate.
    now rewrite Hn by lia.
  - (* a unary as a conjunction *)
    intros rest result_ [n2 Hloop]. destruct (IH rest) as [n1 Hunary].
    exists (S (Nat.max n1 n2)). intros [|fuel] Hfuel; [lia|]. simpl.
    rewrite Hunary by lia. simpl. apply Hloop. lia.
  - (* conjunction & unary *)
    intros rest result_ [n2 Hloop]. rewrite <- app_assoc. simpl.
    apply IHl. destruct (IHr rest) as [n1 Hunary].
    exists (S (Nat.max n1 n2)). intros [|fuel] Hfuel; [lia|]. simpl.
    rewrite (match_head _ _ _ Hamp) by discriminate.
    rewrite Hunary by lia. simpl. apply Hloop. lia.
  - (* a conjunction as a disjunction *)
    intros rest result_ Hrest [n2 Hloop].
    destruct (IH rest (Ok (c, rest))) as [n1 Hconjunction];
      [now apply parseLogicalAnd_loop_end|].
    exists (S (Nat.max n1 n2)). intros [|fuel] Hfuel; [lia|]. simpl.
    rewrite Hconjunction by lia. simpl. apply Hloop. lia.
  - (* disjunction | conjunction *)
    intros rest result_ Hrest [n2 Hloop]. rewrite <- app_assoc. simpl.
    apply IHl; [now at_token Hpipe|].
    destruct (IHr rest (Ok (r, rest))) as [n1 Hconjunction];
      [now apply parseLogicalAnd_loop_end|].
    exists (S (Nat.max n1 n2)). intros [|fuel] Hfuel; [lia|]. simpl.
    rewrite (match_head _ _ _ Hpipe) by discriminate.
    rewrite Hconjunction by lia. simpl. apply Hloop. lia.
Qed.

(** X22. The condition of a WHERE clause is read by precedence: [!] binds
    tighter than [&], which binds tighter than [|]; [&] and [|] group from
    the left; parentheses group. For every token sequence that the grammar
    [Condition] reads as the tree [c], [parseCondition] returns [c] and
    stops right behind the sequence. *)
Theorem conditions_parse_by_precedence (c : ConditionNode)
    (ts rest : list Token) (fuel : nat) :
  Condition Disjunction c ts ->
  check TokenType.PIPE rest = false ->
  check TokenType.AMPERSAND rest = false ->
  6 * length (ts ++ rest) + 5 <= fuel ->
  parseCondition fuel (ts ++ rest) = Ok (c, rest).
Proof.
  intros Hc Hpipe Hamp Hfuel.
  destruct (Condition_parsedAt _ _ _ Hc rest (Ok (c, rest)) Hamp
              (parseLogicalOr_loop_end c rest Hpipe)) as [n Hn].
  pose proof (proj1 (parseCondition_sound fuel (ts ++ rest)) Hfuel) as Hsound.
  assert (Hrun : parseCondition fuel (ts ++ rest) <> Throw OutOfFuel).
  { destruct (parseCondition fuel (ts ++ rest)) as [[c' ts']|e];
      [discriminate|]. simpl in Hsound. congruence. }
  destruct (parseCondition_fuel fuel (S (Nat.max fuel n)) (ts ++ rest))
    as [Hsame _]; [lia|].
  rewrite <- (Hsame Hrun). simpl. apply Hn. lia.
Qed.

End ConditionParsing.

Lemma conditions_parse_by_precedence_witness :
  Parser.parseCondition 100 (take 12 conditionTokens ++ drop 12 conditionTokens)%list
  = Ok (BinaryCondition OperatorType.OR
          (ComparisonCondition "a" OperatorType.EQUALS (VNum (parseFloat "1")))
          (BinaryCondition OperatorType.AND
             (ComparisonCondition "b" OperatorType.EQUALS (VNum (parseFloat "2")))
             (UnaryCondition OperatorType.NOT
                (ComparisonCondition "c" OperatorType.EQUALS
                   (VNum (parseFloat "3"))))),
        drop 12 conditionTokens).
Proof.
  apply (conditions_parse_by_precedence (H := exampleHost)).
  - apply (Condition_or _ _ (take 3 conditionTokens) _
             (drop 4 (take 12 conditionTokens)));
      [|reflexivity|].
    + apply Condition_conjunction, Condition_unary, Condition_primary.
      now apply Condition_comparison.
    + apply (Condition_and _ _ (take 3 (drop 4 conditionTokens)) _
               (drop 8 (take 12 conditionTokens)));
        [|reflexivity|].
      * apply Condition_unary, Condition_primary.
        now apply Condition_comparison.
      * apply Condition_not; [reflexivity|]. apply Condition_primary.
        now apply Condition_comparison.
  - reflexivity.
  - reflexivity.
  - vm_compute. lia.
Defined.

Section SimpleOperations.
Context `{JSHost}.
Import Parser.
Local Open Scope list_scope.

(** ** Operations are recorded in source order *)

(** Rewriting with the type of the token under the cursor. *)
Ltac at_token Htype :=
  rewrite ?check_head, ?advance_head, ?isAtEnd_head by (rewrite Htype; discriminate);
  rewrite ?Htype; simpl.

Lemma parseOperation_aggregate (fuel : nat) (t : Token) (operation : OperationNode)
    (rest : list Token) :
  aggregateOf (type t) = Some operation ->
  parseOperation fuel (t :: rest) = Ok (Some operation, rest).
Proof.
  intros Haggregate. unfold parseOperation.
  destruct (type t) eqn:Htype; try discriminate Haggregate;
    injection Haggregate as <-; now at_token Htype.
Qed.

Lemma parseVariableAssignment_aggregate (fuel : nat) (x : string) (tx t : Token)
    (operation : OperationNode) (rest : list Token) :
  isVariable x tx -> aggregateOf (type t) = Some operation ->
  parseVariableAssignment fuel (tx :: t :: rest)
  = Ok (VariableAssignment x operation, rest).
Proof.
  intros [Htx Hx] Haggregate. unfold parseVariableAssignment, consume.
  at_token Htx. unfold peek. simpl. rewrite Hx.
  destruct (type t) eqn:Htype; try discriminate Haggregate;
    injection Haggregate as <-; now at_token Htype.
Qed.

Lemma parseTwoVariables_tokens (first second a b : string) (ta tb : Token)
    (rest : list Token) :
  isVariable a ta -> isVariable b tb ->
  parseTwoVariables first second (ta :: tb :: rest) = Ok ((a, b), rest).
Proof.
  intros [Hta Ha] [Htb Hb]. unfold parseTwoVariables, consume.
  at_token Hta. at_token Htb. unfold peek. simpl. now rewrite Ha, Hb.
Qed.

Lemma parseOperation_simple (fuel : nat) (operation : OperationNode)
    (ts rest : list Token) :
  SimpleOperation operation ts ->
  parseOperation fuel (ts ++ rest) = Ok (Some operation, rest).
Proof.
  destruct 1 as [operation t Haggregate
                |x operation tx t Hx Haggregate
                |a b t ta tb Ht Ha Hb|a b t ta tb Ht Ha Hb|a b t ta tb Ht Ha Hb];
    simpl.
  - now apply parseOperation_aggregate.
  - unfold parseOperation. destruct Hx as [Htx Hx]. at_token Htx.
    rewrite (parseVariableAssignment_aggregate fuel x tx t operation rest);
      [reflexivity|now split|assumption].
  - unfold parseOperation, parseDivideOperation. at_token Ht.
    now rewrite (parseTwoVariables_tokens _ _ a b).
  - unfold parseOperation, parseMultiplyOperation. at_token Ht.
    now rewrite (parseTwoVariables_tokens _ _ a b).
  - unfold parseOperation, parseSubtractOperation. at_token Ht.
    now rewrite (parseTwoVariables_tokens _ _ a b).
Qed.

(** The first token of such an operation starts no other clause. *)
Lemma SimpleOperation_first (operation : OperationNode) (ts rest : list Token) :
  SimpleOperation operation ts ->
  check TokenType.RETURN (ts ++ rest) = false
  /\ check TokenType.QUERY (ts ++ rest) = false
  /\ isAtEnd (ts ++ rest) = false.
Proof.
  assert (Haggregate : forall t operation rest,
            aggregateOf (type t) = Some operation ->
            check TokenType.RETURN (t :: rest) = false
            /\ check TokenType.QUERY (t :: rest) = false
            /\ isAtEnd (t :: rest) = false).
  { clear. intros t operation rest Haggregate.
    destruct (type t) eqn:Htype; try discriminate Haggregate;
      repeat split; now at_token Htype. }
  destruct 1 as [operation t Ht
                |x operation tx t [Htx _] _
                |a b t ta tb Ht _ _|a b t ta tb Ht _ _|a b t ta tb Ht _ _];
    simpl; try (now apply (Haggregate t operation));
    repeat split; first [now at_token Htx|now at_token Ht].
Qed.

Lemma parseQueryBlock_loop_simple (ops : list OperationNode)
    (tss : list (list Token)) :
  Forall2 SimpleOperation ops tss ->
  forall fuel before ret rest,
    isToken TokenType.RETURN ret ->
    length tss < fuel ->
    parseQueryBlock_loop fuel before (concat tss ++ ret :: rest)
    = Ok (before ++ ops, ret :: rest).
Proof.
  induction 1 as [|operation ts ops tss Hoperation _ IH];
    intros [|fuel] before ret rest Hret Hfuel; simpl in Hfuel; try lia.
  - simpl. at_token Hret. now rewrite app_nil_r.
  - cbn [concat parseQueryBlock_loop]. rewrite <- app_assoc.
    destruct (SimpleOperation_first _ _ (concat tss ++ ret :: rest) Hoperation)
      as (-> & -> & ->).
    simpl. rewrite (parseOperation_simple _ _ _ _ Hoperation). simpl.
    rewrite IH by (assumption || lia). now rewrite <- app_assoc.
Qed.

(** X23. The operations of a query block are recorded in source order: a
    block made of aggregate keywords, assignments of aggregates to variables
    and arithmetic on two variables, closed by RETURN, parses to the list of
    these operations, one node per operation, with the name of the block. *)
Theorem simple_operations_parse_in_order (queryName : string)
    (ops : list OperationNode) (tss : list (list Token))
    (nameToken ret : Token) (rest : list Token) (fuel : nat) :
  isIdentifier queryName nameToken ->
  Forall2 SimpleOperation ops tss ->
  isToken TokenType.RETURN ret ->
  length tss < fuel ->
  parseQueryBlock fuel (nameToken :: concat tss ++ ret :: rest)
  = Ok ({| name := queryName; operations := ops |}, rest).
Proof.
  intros [Hname Hvalue] Hops Hret Hfuel. unfold parseQueryBlock, consume.
  at_token Hname. unfold peek. simpl.
  rewrite (parseQueryBlock_loop_simple _ _ Hops) by assumption. simpl.
  at_token Hret. now rewrite Hvalue.
Qed.

End SimpleOperations.

Lemma simple_operations_parse_in_order_witness :
  let tokens := Tokenizer.tokenize "q $a SUM $b MAX DIVIDE $a $b RETURN" in
  Parser.parseQueryBlock 9
    (hd Parser.eofToken tokens
     :: concat [take 2 (drop 1 tokens); take 2 (drop 3 tokens);
                take 3 (drop 5 tokens)]
        ++ hd Parser.eofToken (drop 8 tokens) :: drop 9 tokens)%list
  = Ok ({| name := "q";
           operations := [VariableAssignment "$a" SumOperation;
                          VariableAssignment "$b" MaxOperation;
                          DivideOperation "$a" "$b"] |},
        drop 9 tokens).
Proof.
  intros tokens.
  apply (simple_operations_parse_in_order (H := exampleHost)).
  - now split.
  - repeat constructor.
  - reflexivity.
  - simpl. lia.
Defined.

Section SelectForms.
Context `{JSHost}.
Import Parser.
Local Open Scope list_scope.

(** ** The forms of a field selection *)

(** Rewriting with the type of the token under the cursor. *)
Ltac at_token Htype :=
  rewrite ?check_head, ?advance_head, ?isAtEnd_head by (rewrite Htype; discriminate);
  rewrite ?Htype; simpl.

(** X28. The forms of a SELECT: a bare field name selects the same as the
    bracketed list with this one name, and a SELECT with no field
    specification selects the same as [*] (when what follows the keyword is
    not EACH, a name, a bracket or an asterisk). *)
Theorem select_field_forms (fuel : nat) (x : string) (t lb rb star : Token)
    (rest : list Token) :
  1 <= fuel ->
  isIdentifier x t ->
  isToken TokenType.LEFT_BRACKET lb -> isToken TokenType.RIGHT_BRACKET rb ->
  isToken TokenType.ASTERISK star ->
  parseSelectOperation fuel (lb :: t :: rb :: rest)
  = parseSelectOperation fuel (t :: rest)
  /\ (check TokenType.EACH rest = false ->
      check TokenType.ASTERISK rest = false ->
      check TokenType.LEFT_BRACKET rest = false ->
      check TokenType.IDENTIFIER rest = false ->
      parseSelectOperation fuel rest = parseSelectOperation fuel (star :: rest)).
Proof.
  intros Hfuel [Ht Hx] Hlb Hrb Hstar. unfold isToken in *.
  destruct t as [ty v l k], lb as [tylb vlb llb klb], rb as [tyrb vrb lrb krb],
    star as [tys vs ls ks].
  simpl in Ht, Hx, Hlb, Hrb, Hstar. subst ty v tylb tyrb tys.
  destruct fuel as [|fuel']; [lia|]. split.
  - unfold parseSelectOperation, parseFieldList. cbn [parseFieldList_loop].
    unfold consume, match_, check, advance, isAtEnd, peek. reflexivity.
  - intros Heach Hany Hbracket Hname.
    unfold parseSelectOperation, match_ at 1 2 3.
    rewrite Heach, Hany, Hbracket, Hname.
    unfold match_, check, advance, isAtEnd, peek. reflexivity.
Qed.

End SelectForms.

Lemma select_field_forms_witness :
  let tokens := Tokenizer.tokenize "[name] name * WHERE (age > 3)" in
  Parser.parseSelectOperation 40 (take 3 tokens ++ drop 5 tokens)%list
  = Parser.parseSelectOperation 40 (hd Parser.eofToken (drop 3 tokens) :: drop 5 tokens)
  /\ Parser.parseSelectOperation 40 (drop 5 tokens)
     = Parser.parseSelectOperation 40 (hd Parser.eofToken (drop 4 tokens) :: drop 5 tokens).
Proof.
  intros tokens.
  destruct (select_field_forms (H := exampleHost) 40 "name"
              (hd Parser.eofToken (drop 3 tokens))
              (hd Parser.eofToken tokens)
              (hd Parser.eofToken (drop 2 tokens))
              (hd Parser.eofToken (drop 4 tokens))
              (drop 5 tokens)) as [Hlist Hstar];
    try reflexivity; [lia|now split|].
  split; [|now apply Hstar].
  rewrite <- Hlist. reflexivity.
Defined.
